(** * relay-it-webapp: note diffing, marker-aware markdown rendering,
      note state and chat history

    A shallow embedding of the client logic of the repository:

    - [markAiAdditions] (hooks/useChat.ts): the prefix/suffix diff that wraps
      the text added by the assistant in a [:::ai] ... [:::] block;
    - [InlineMarkdown], [renderLines], [MarkdownPreview]
      (components/notes/NoteEditor.tsx): the markdown preview;
    - [useSessionNote] (hooks/useSessionNote.ts): the note state with its
      debounced save;
    - [useChat] (hooks/useChat.ts): chat history and the summarize command.

    JavaScript strings are sequences of UTF-16 code units; they are modelled
    as lists of code units ([N]).  React state is passed explicitly; timers,
    the database and the HTTP endpoints are part of an explicit world. *)

From Stdlib Require Import NArith String Ascii Sorted.
From stdpp Require Import prelude gmap pretty.

Set Warnings "-register-all".

Open Scope N_scope.
Open Scope nat_scope.

(** ** JavaScript strings *)

Module Js.

(** A string is a list of UTF-16 code units. *)
Definition jsstring : Type := list N.

(** Code units of a literal (the literals of the sources are ASCII or are
    given by their code units). *)
Definition str (s : string) : jsstring :=
  (λ a : ascii, N_of_ascii a) <$> list_ascii_of_string s.

Definition nl : N := 10%N.
#[global] Arguments nl : simpl never.

(** ECMAScript LineTerminator: LF, CR, LS, PS. *)
Definition is_line_terminator (c : N) : bool :=
  ((c =? 10) || (c =? 13) || (c =? 8232) || (c =? 8233))%N.

(** ECMAScript WhiteSpace and LineTerminator, the set removed by
    [String.prototype.trim] and matched by the regular expression [\s]. *)
Definition is_ws (c : N) : bool :=
  ((c =? 9) || (c =? 11) || (c =? 12) || (c =? 32) || (c =? 160)
   || (c =? 5760) || ((8192 <=? c) && (c <=? 8202)) || (c =? 8239)
   || (c =? 8287) || (c =? 12288) || (c =? 65279)
   || is_line_terminator c)%N.

(** The regular expression class [\d]. *)
Definition is_digit (c : N) : bool := ((48 <=? c) && (c <=? 57))%N.

Fixpoint drop_while (p : N → bool) (s : jsstring) : jsstring :=
  match s with
  | [] => []
  | c :: t => if p c then drop_while p t else s
  end.

Fixpoint take_while (p : N → bool) (s : jsstring) : jsstring :=
  match s with
  | [] => []
  | c :: t => if p c then c :: take_while p t else []
  end.

Definition trimStart (s : jsstring) : jsstring := drop_while is_ws s.
Definition trimEnd (s : jsstring) : jsstring :=
  reverse (drop_while is_ws (reverse s)).
Definition trim (s : jsstring) : jsstring := trimEnd (trimStart s).

(** [s.slice(a, b)] for non-negative [a], [b]: both ends are clamped to the
    length and an empty string results when [b <= a]. *)
Definition slice (a b : nat) (s : jsstring) : jsstring :=
  take (b - a) (drop a s).

(** [s.slice(a)]. *)
Definition slice_from (a : nat) (s : jsstring) : jsstring := drop a s.

(** [s.startsWith(p)]; [strip_prefix] also returns what follows. *)
Fixpoint strip_prefix (p s : jsstring) : option jsstring :=
  match p, s with
  | [], _ => Some s
  | _ :: _, [] => None
  | a :: p', b :: s' => if (a =? b)%N then strip_prefix p' s' else None
  end.

Definition startsWith (p s : jsstring) : bool :=
  bool_decide (is_Some (strip_prefix p s)).

Definition endsWith (p s : jsstring) : bool :=
  startsWith (reverse p) (reverse s).

(** Truthiness of a string: non-empty. *)
Definition truthy (s : jsstring) : bool :=
  match s with [] => false | _ => true end.

(** [s.split('\n')]. *)
Fixpoint split_lines (s : jsstring) : list jsstring :=
  match s with
  | [] => [[]]
  | c :: t =>
      if (c =? nl)%N then [] :: split_lines t
      else match split_lines t with
           | l :: ls => (c :: l) :: ls
           | [] => [[c]]
           end
  end.

(** [s.replace(/\n{3,}/g, '\n\n')]: every maximal run of three or more
    line feeds becomes two.  [pending] counts the line feeds of the run
    being read, which are written out when the run ends. *)
Definition emit_run (pending : nat) : jsstring :=
  replicate (if decide (3 ≤ pending) then 2 else pending) nl.

Fixpoint collapse_from (pending : nat) (s : jsstring) : jsstring :=
  match s with
  | [] => emit_run pending
  | c :: t =>
      if (c =? nl)%N then collapse_from (S pending) t
      else emit_run pending ++ c :: collapse_from 0 t
  end.

Definition collapse_newlines (s : jsstring) : jsstring := collapse_from 0 s.

End Js.

Import Js.

(** ** The diff annotator (hooks/useChat.ts, [markAiAdditions]) *)

Module Diff.

Definition marker_open : jsstring := str ":::ai".
Definition marker_close : jsstring := str ":::".

(** The loop [while (prefixEnd < minLen && old[prefixEnd] === new[prefixEnd])
    prefixEnd++].  Each iteration increments [prefixEnd], which is bounded
    by [minLen], so [minLen] iterations are enough (see
    [prefix_loop_exits]). *)
Fixpoint prefix_loop (fuel : nat) (oldContent newContent : jsstring)
    (minLen prefixEnd : nat) : nat :=
  match fuel with
  | 0 => prefixEnd
  | S fuel' =>
      if bool_decide (prefixEnd < minLen)
         && bool_decide (oldContent !! prefixEnd = newContent !! prefixEnd)
      then prefix_loop fuel' oldContent newContent minLen (S prefixEnd)
      else prefixEnd
  end.

(** The loop that moves [oldSuffixStart] and [newSuffixStart] down while
    both are above [prefixEnd] and the code units before them agree. *)
Fixpoint suffix_loop (fuel : nat) (oldContent newContent : jsstring)
    (prefixEnd oldSuffixStart newSuffixStart : nat) : nat * nat :=
  match fuel with
  | 0 => (oldSuffixStart, newSuffixStart)
  | S fuel' =>
      if bool_decide (prefixEnd < oldSuffixStart)
         && bool_decide (prefixEnd < newSuffixStart)
         && bool_decide (oldContent !! (oldSuffixStart - 1)
                         = newContent !! (newSuffixStart - 1))
      then suffix_loop fuel' oldContent newContent prefixEnd
             (oldSuffixStart - 1) (newSuffixStart - 1)
      else (oldSuffixStart, newSuffixStart)
  end.

(** The transient result of the two scans. *)
Record DiffResult := {
  prefixEnd : nat;
  oldSuffixStart : nat;
  newSuffixStart : nat;
}.

Definition scan (oldContent newContent : jsstring) : DiffResult :=
  let minLen := length oldContent `min` length newContent in
  let p := prefix_loop minLen oldContent newContent minLen 0 in
  let '(o, n) := suffix_loop (length oldContent) oldContent newContent p
                   (length oldContent) (length newContent) in
  {| prefixEnd := p; oldSuffixStart := o; newSuffixStart := n |}.

Definition prefix_of (d : DiffResult) (newContent : jsstring) : jsstring :=
  slice 0 (prefixEnd d) newContent.
Definition added_of (d : DiffResult) (newContent : jsstring) : jsstring :=
  slice (prefixEnd d) (newSuffixStart d) newContent.
Definition suffix_of (d : DiffResult) (newContent : jsstring) : jsstring :=
  slice_from (newSuffixStart d) newContent.

Definition cleanPrefix (prefix : jsstring) : jsstring :=
  if endsWith [nl] prefix then prefix
  else if truthy prefix then prefix ++ [nl] else [].

Definition cleanSuffix (suffix : jsstring) : jsstring :=
  if startsWith [nl] suffix then suffix
  else if truthy suffix then nl :: suffix else [].

(** The template literal of the marked note, before the line feeds are
    collapsed. *)
Definition wrap (prefix addedContent suffix : jsstring) : jsstring :=
  cleanPrefix prefix ++ [nl] ++ marker_open ++ [nl] ++ trim addedContent
    ++ [nl] ++ marker_close ++ [nl] ++ cleanSuffix suffix.

Definition markAiAdditions (oldContent newContent : jsstring) : jsstring :=
  if negb (truthy (trim oldContent)) then newContent
  else
    let d := scan oldContent newContent in
    let prefix := prefix_of d newContent in
    let addedContent := added_of d newContent in
    let suffix := suffix_of d newContent in
    if truthy (trim addedContent)
    then collapse_newlines (wrap prefix addedContent suffix)
    else newContent.

(** The marker block is inserted exactly when the old note is not blank and
    the added region is not blank. *)
Definition inserts_marker (oldContent newContent : jsstring) : bool :=
  truthy (trim oldContent)
  && truthy (trim (added_of (scan oldContent newContent) newContent)).

End Diff.

(** ** The markdown preview (components/notes/NoteEditor.tsx) *)

Module Markdown.

(** React elements, as far as the preview builds them: the element type,
    the [key] given to it, and its children.  A string child is [Text].
    [DivAi] is the [div] that carries [aiWrapperClass], [DivProse] the
    root [div] of the preview; other class names are styling only. *)
Inductive tag :=
  | Span | Strong | Em | Code
  | Ul | Ol | Li | H1 | H2 | H3 | Blockquote | Hr | P
  | DivAi | DivProse.

Inductive node :=
  | Text (s : jsstring)
  | Elem (t : tag) (key : option nat) (children : list node).

#[global] Instance tag_eq_dec : EqDecision tag.
Proof. solve_decision. Defined.

(** *** Inline parser, [InlineMarkdown] *)

(** The result of [String.prototype.match] for a regular expression with
    one group: [index], [match[0]] and [match[1]]. *)
Record regex_match := {
  index : nat;
  whole : jsstring;
  group1 : jsstring;
}.

(** [(.+?)d] read at the start of [s]: the shortest non-empty run of code
    units that are not line terminators and that is followed by [d]. *)
Fixpoint lazy_group (d s : jsstring) : option jsstring :=
  match s with
  | [] => None
  | c :: t =>
      if is_line_terminator c then None
      else if startsWith d t then Some [c]
      else (c ::.) <$> lazy_group d t
  end.

(** [d(.+?)d] anchored at the start of [s]. *)
Definition match_at (d s : jsstring) : option jsstring :=
  strip_prefix d s ≫= lazy_group d.

(** [s.match(/d(.+?)d/)]: the leftmost position at which the pattern
    matches; [i] is the position of [s] in the string searched. *)
Fixpoint search_from (d s : jsstring) (i : nat) : option regex_match :=
  match match_at d s with
  | Some g => Some {| index := i; whole := d ++ g ++ d; group1 := g |}
  | None =>
      match s with
      | [] => None
      | _ :: t => search_from d t (S i)
      end
  end.

Definition search (d s : jsstring) : option regex_match := search_from d s 0.

Inductive style := bold | italic | code.

Definition delimiter (ty : style) : jsstring :=
  match ty with
  | bold => str "**"
  | italic => str "*"
  | code => str "`"
  end.

Definition style_tag (ty : style) : tag :=
  match ty with
  | bold => Strong
  | italic => Em
  | code => Code
  end.

(** The array [matches] before it is sorted: the non-null entries, in the
    order bold, italic, code. *)
Definition candidates (remaining : jsstring) : list (style * regex_match) :=
  omap (λ ty, (ty,.) <$> search (delimiter ty) remaining) [bold; italic; code].

(** [Array.prototype.sort] with [a.index - b.index]; the sort is stable:
    an entry stays before the later entries of the same index. *)
Fixpoint insert_by_index (x : style * regex_match)
    (l : list (style * regex_match)) : list (style * regex_match) :=
  match l with
  | [] => [x]
  | y :: l' =>
      if bool_decide (index (x.2) ≤ index (y.2)) then x :: l
      else y :: insert_by_index x l'
  end.

Definition sort_by_index (l : list (style * regex_match))
    : list (style * regex_match) :=
  foldr insert_by_index [] l.

(** The [while (remaining.length > 0)] loop.  Each iteration that does not
    break shortens [remaining], so [length remaining] iterations are
    enough (see [inline_loop_fuel]). *)
Fixpoint inline_loop (fuel : nat) (remaining : jsstring) (partKey : nat)
    : list node :=
  match fuel with
  | 0 => []
  | S fuel' =>
      if bool_decide (0 < length remaining) then
        match sort_by_index (candidates remaining) with
        | [] => [Elem Span (Some partKey) [Text remaining]]
        | first :: _ =>
            let m := first.2 in
            let before :=
              if bool_decide (0 < index m)
              then [Elem Span (Some partKey) [Text (slice 0 (index m) remaining)]]
              else [] in
            let partKey' := partKey + length before in
            before
            ++ Elem (style_tag (first.1)) (Some partKey') [Text (group1 m)]
            :: inline_loop fuel'
                 (slice_from (index m + length (whole m)) remaining)
                 (S partKey')
        end
      else []
  end.

Definition InlineMarkdown (text : jsstring) : list node :=
  inline_loop (length text) text 0.

(** *** Block parser, [renderLines] *)

Inductive list_kind := bullet | numbered.

#[global] Instance list_kind_eq_dec : EqDecision list_kind.
Proof. solve_decision. Defined.

(** The variables of [renderLines]: [localElements], [listItems], and the
    counter [key] that [MarkdownPreview] shares between its calls. *)
Record lines_state := {
  localElements : list node;
  listItems : option (list_kind * list jsstring);
  key : nat;
}.

Definition pushElement (wrapAi : bool) (n : node) (st : lines_state)
    : lines_state :=
  let pushed :=
    if wrapAi then Elem DivAi (Some (key st)) [n]
    else match n with
         | Elem t _ children => Elem t (Some (key st)) children
         | Text _ => Elem Span (Some (key st)) [n]
         end in
  {| localElements := localElements st ++ [pushed];
     listItems := listItems st;
     key := S (key st) |}.

Definition list_items (items : list jsstring) : list node :=
  imap (λ i item, Elem Li (Some i) (InlineMarkdown item)) items.

Definition flushList (wrapAi : bool) (st : lines_state) : lines_state :=
  match listItems st with
  | None => st
  | Some (kind, items) =>
      let st' :=
        pushElement wrapAi
          (Elem (match kind with bullet => Ul | numbered => Ol end) None
             (list_items items)) st in
      {| localElements := localElements st';
         listItems := None;
         key := key st' |}
  end.

(** [if (listItems?.type !== kind) { flushList(); listItems = {type: kind,
    items: []} }], then [listItems.items.push(item)]. *)
Definition add_item (wrapAi : bool) (kind : list_kind) (item : jsstring)
    (st : lines_state) : lines_state :=
  let st1 :=
    if bool_decide (fst <$> listItems st = Some kind) then st
    else
      let st' := flushList wrapAi st in
      {| localElements := localElements st';
         listItems := Some (kind, []);
         key := key st' |} in
  {| localElements := localElements st1;
     listItems := (λ l, (l.1, l.2 ++ [item])) <$> listItems st1;
     key := key st1 |}.

(** The match of the numbered-item pattern on [trimmed], giving
    [match[1]]: anchored at the start, one or more digits ([\d+]), a dot,
    one or more white-space code units ([\s+]), then a group of any code
    units except line terminators (dot-star).  The quantifiers are greedy
    and no backtracking can change the result: the digits are followed by
    a dot, the white space is taken whole, and the group runs to the first
    line terminator. *)
Definition numbered_match (s : jsstring) : option jsstring :=
  if truthy (take_while is_digit s) then
    match drop_while is_digit s with
    | c :: t =>
        if (c =? 46)%N && truthy (take_while is_ws t)
        then Some (take_while (λ c, negb (is_line_terminator c))
                     (drop_while is_ws t))
        else None
    | [] => None
    end
  else None.

Definition render_line (wrapAi : bool) (st : lines_state) (line : jsstring)
    : lines_state :=
  let trimmed := trim line in
  let block t from :=
    Elem t None (InlineMarkdown (slice_from from trimmed)) in
  if startsWith (str "- ") trimmed || startsWith (str "* ") trimmed then
    add_item wrapAi bullet (slice_from 2 trimmed) st
  else
    match numbered_match trimmed with
    | Some item => add_item wrapAi numbered item st
    | None =>
        let st := flushList wrapAi st in
        if negb (truthy trimmed) then st
        else if startsWith (str "### ") trimmed then
          pushElement wrapAi (block H3 4) st
        else if startsWith (str "## ") trimmed then
          pushElement wrapAi (block H2 3) st
        else if startsWith (str "# ") trimmed then
          pushElement wrapAi (block H1 2) st
        else if startsWith (str "> ") trimmed then
          pushElement wrapAi (block Blockquote 2) st
        else if startsWith (str "---") trimmed
                || startsWith (str "***") trimmed then
          pushElement wrapAi (Elem Hr None []) st
        else pushElement wrapAi (block P 0) st
    end.

(** [renderLines(targetLines, wrapAi)], with the shared counter [key]
    passed in and out. *)
Definition renderLines (targetLines : list jsstring) (wrapAi : bool)
    (key0 : nat) : list node * nat :=
  let st :=
    flushList wrapAi
      (foldl (render_line wrapAi)
         {| localElements := []; listItems := None; key := key0 |}
         targetLines) in
  (localElements st, key st).

(** *** [MarkdownPreview] *)

Record preview_state := {
  elements : list node;
  inAiBlock : bool;
  normalBuffer : list jsstring;
  aiBuffer : list jsstring;
  next_key : nat;
}.

Definition flushNormal (st : preview_state) : preview_state :=
  if bool_decide (length (normalBuffer st) = 0) then st
  else
    let r := renderLines (normalBuffer st) false (next_key st) in
    {| elements := elements st ++ r.1;
       inAiBlock := inAiBlock st;
       normalBuffer := [];
       aiBuffer := aiBuffer st;
       next_key := r.2 |}.

Definition flushAi (st : preview_state) : preview_state :=
  if bool_decide (length (aiBuffer st) = 0) then st
  else
    let r := renderLines (aiBuffer st) true (next_key st) in
    {| elements := elements st ++ r.1;
       inAiBlock := inAiBlock st;
       normalBuffer := normalBuffer st;
       aiBuffer := [];
       next_key := r.2 |}.

Definition set_inAiBlock (b : bool) (st : preview_state) : preview_state :=
  {| elements := elements st;
     inAiBlock := b;
     normalBuffer := normalBuffer st;
     aiBuffer := aiBuffer st;
     next_key := next_key st |}.

(** One iteration of [for (const line of lines)]. *)
Definition preview_line (st : preview_state) (line : jsstring)
    : preview_state :=
  let trimmed := trim line in
  if bool_decide (trimmed = Diff.marker_open) then
    set_inAiBlock true (flushAi (flushNormal st))
  else if bool_decide (trimmed = Diff.marker_close) then
    set_inAiBlock false (flushAi st)
  else if inAiBlock st then
    {| elements := elements st;
       inAiBlock := inAiBlock st;
       normalBuffer := normalBuffer st;
       aiBuffer := aiBuffer st ++ [line];
       next_key := next_key st |}
  else
    {| elements := elements st;
       inAiBlock := inAiBlock st;
       normalBuffer := normalBuffer st ++ [line];
       aiBuffer := aiBuffer st;
       next_key := next_key st |}.

Definition preview_init : preview_state :=
  {| elements := []; inAiBlock := false; normalBuffer := [];
     aiBuffer := []; next_key := 0 |}.

Definition preview_run (lines : list jsstring) : preview_state :=
  foldl preview_line preview_init lines.

Definition MarkdownPreview (content : jsstring) : node :=
  let st := flushAi (flushNormal (preview_run (split_lines content))) in
  Elem DivProse None (elements st).

End Markdown.

(** ** The note state (hooks/useSessionNote.ts) *)

Module Note.

Record SessionNote := {
  id : jsstring;
  note_content : jsstring;
}.

(** A pending [setTimeout] of [updateContent]: when it is due, and the
    closure [() => saveNote(newContent)], that is the text and the
    [note?.id] that [saveNote] had when the timer was set. *)
Record timer := {
  deadline : nat;
  captured_id : option jsstring;
  payload : jsstring;
}.

(** The state of the hook ([note], [content], [isSaving], the two refs) and
    of its world: the clock in milliseconds, the table of pending timers,
    and the update requests sent to the table [session_notes].
    [saveNote_calls] records the argument of every call of [saveNote]. *)
Record state := {
  note : option SessionNote;
  content : jsstring;
  isSaving : bool;
  lastSavedContent : jsstring;
  saveTimeoutRef : option nat;
  now : nat;
  timers : gmap nat timer;
  next_timer : nat;
  db_updates : list (jsstring * jsstring);
  saveNote_calls : list jsstring;
}.

(** The hook when it is mounted, at time [t]. *)
Definition mount (t : nat) : state :=
  {| note := None; content := []; isSaving := false;
     lastSavedContent := []; saveTimeoutRef := None; now := t;
     timers := ∅; next_timer := 1; db_updates := [];
     saveNote_calls := [] |}.

Definition setContent (c : jsstring) (st : state) : state :=
  {| note := note st; content := c; isSaving := isSaving st;
     lastSavedContent := lastSavedContent st;
     saveTimeoutRef := saveTimeoutRef st; now := now st;
     timers := timers st; next_timer := next_timer st;
     db_updates := db_updates st; saveNote_calls := saveNote_calls st |}.

Definition clearTimeout (i : nat) (st : state) : state :=
  {| note := note st; content := content st; isSaving := isSaving st;
     lastSavedContent := lastSavedContent st;
     saveTimeoutRef := saveTimeoutRef st; now := now st;
     timers := delete i (timers st); next_timer := next_timer st;
     db_updates := db_updates st; saveNote_calls := saveNote_calls st |}.

(** [saveTimeoutRef.current = setTimeout(..., delay)]. *)
Definition setTimeout (delay : nat) (nid : option jsstring)
    (text : jsstring) (st : state) : state :=
  {| note := note st; content := content st; isSaving := isSaving st;
     lastSavedContent := lastSavedContent st;
     saveTimeoutRef := Some (next_timer st); now := now st;
     timers :=
       <[next_timer st :=
           {| deadline := now st + delay; captured_id := nid;
              payload := text |}]> (timers st);
     next_timer := S (next_timer st);
     db_updates := db_updates st; saveNote_calls := saveNote_calls st |}.

Definition set_now (t : nat) (st : state) : state :=
  {| note := note st; content := content st; isSaving := isSaving st;
     lastSavedContent := lastSavedContent st;
     saveTimeoutRef := saveTimeoutRef st; now := t;
     timers := timers st; next_timer := next_timer st;
     db_updates := db_updates st; saveNote_calls := saveNote_calls st |}.

Definition note_id (st : state) : option jsstring := id <$> note st.

Section hook.

(** The reply of the database to [update({content}).eq('id', id)
    .select().single()]: the updated row, or [None] for an error. *)
Context (db_update : jsstring → jsstring → option SessionNote).

(** [saveNote(newContent)], in the closure in which [note?.id] is [nid].
    The request is awaited; it is modelled as one step. *)
Definition saveNote (nid : option jsstring) (newContent : jsstring)
    (st : state) : state :=
  let calls := saveNote_calls st ++ [newContent] in
  match nid with
  | Some i =>
      if negb (truthy i) || bool_decide (newContent = lastSavedContent st)
      then
        {| note := note st; content := content st; isSaving := isSaving st;
           lastSavedContent := lastSavedContent st;
           saveTimeoutRef := saveTimeoutRef st; now := now st;
           timers := timers st; next_timer := next_timer st;
           db_updates := db_updates st; saveNote_calls := calls |}
      else
        match db_update i newContent with
        | Some data =>
            {| note := Some data; content := content st; isSaving := false;
               lastSavedContent := newContent;
               saveTimeoutRef := saveTimeoutRef st; now := now st;
               timers := timers st; next_timer := next_timer st;
               db_updates := db_updates st ++ [(i, newContent)];
               saveNote_calls := calls |}
        | None =>
            {| note := note st; content := content st; isSaving := false;
               lastSavedContent := lastSavedContent st;
               saveTimeoutRef := saveTimeoutRef st; now := now st;
               timers := timers st; next_timer := next_timer st;
               db_updates := db_updates st ++ [(i, newContent)];
               saveNote_calls := calls |}
        end
  | None =>
      {| note := note st; content := content st; isSaving := isSaving st;
         lastSavedContent := lastSavedContent st;
         saveTimeoutRef := saveTimeoutRef st; now := now st;
         timers := timers st; next_timer := next_timer st;
         db_updates := db_updates st; saveNote_calls := calls |}
  end.

Definition clear_pending (st : state) : state :=
  match saveTimeoutRef st with
  | Some i => clearTimeout i st
  | None => st
  end.

Definition updateContent (newContent : jsstring) (st : state) : state :=
  let nid := note_id st in
  setTimeout 800 nid newContent (clear_pending (setContent newContent st)).

Definition appendToNote (text : jsstring) (st : state) : state :=
  let newContent :=
    if truthy (content st) then content st ++ [nl; nl] ++ text else text in
  saveNote (note_id st) newContent (setContent newContent st).

Definition setNoteContent (newContent : jsstring) (st : state) : state :=
  saveNote (note_id st) newContent (setContent newContent st).

Definition forceSave (st : state) : state :=
  let st' := clear_pending st in
  if bool_decide (content st ≠ lastSavedContent st)
  then saveNote (note_id st) (content st) st'
  else st'.

(** The timer [i], if it is pending and due, leaves the table and runs
    its closure. *)
Definition run_timer (i : nat) (st : state) : state :=
  match timers st !! i with
  | Some t =>
      if bool_decide (deadline t ≤ now st)
      then saveNote (captured_id t) (payload t) (clearTimeout i st)
      else st
  | None => st
  end.

(** The timers that are due run in the order in which they were set. *)
Definition run_due (st : state) : state :=
  foldl (flip run_timer) st (seq 0 (next_timer st)).

(** [ms] milliseconds pass with no call of the hook. *)
Fixpoint advance (ms : nat) (st : state) : state :=
  match ms with
  | 0 => st
  | S ms' => advance ms' (run_due (set_now (S (now st)) st))
  end.

(** A sequence of calls [updateContent(text)], each [gap] milliseconds
    after the one before. *)
Definition typing (calls : list (nat * jsstring)) (st : state) : state :=
  foldl (λ st c, updateContent c.2 (advance c.1 st)) st calls.

End hook.

End Note.

(** ** Chat history and the summarize command (hooks/useChat.ts) *)

Module Chat.

Inductive role := user | assistant.

Record ChatMessage := {
  id : jsstring;
  session_id : jsstring;
  msg_role : role;
  content : jsstring;
  created_at : jsstring;
}.

(** An extracted entity; the values of [data] are kept as text. *)
Record ExtractedInfo := {
  entity_id : jsstring;
  entity_type : option jsstring;
  data : gmap jsstring jsstring;
}.

Record summarize_entity := {
  se_type : jsstring;
  se_title : option jsstring;
  se_attributes : gmap jsstring jsstring;
}.

Record ChatResponse := {
  reply : jsstring;
  updatedNote : option jsstring;
  noteWasModified : bool;
}.

Record SummarizeResult := {
  condensedSummary : jsstring;
  suggestedTitle : jsstring;
  keyHighlights : option (list jsstring);
  recommendations : option (list jsstring);
}.

(** How [fetch] on [/api/chat] ends: aborted by the 60 s timer
    ([AbortError]), the network error ['Failed to fetch'], another error
    with its message, a thrown value that is not an [Error], a response
    that is not [ok], or a response with its JSON body. *)
Inductive chat_fetch :=
  | Aborted
  | FailedToFetch
  | Threw (message : jsstring)
  | ThrewOther
  | HttpError (status : nat)
  | HttpOk (result : ChatResponse).

(** What the hook does to the outside: rows inserted, requests posted, and
    the callbacks [onNoteUpdate], [onNoteAppend], [onEntitiesUpdate]. *)
Inductive effect :=
  | InsertMessage (session : jsstring) (r : role) (text : jsstring)
  | PostChat (session userMessage currentNote : jsstring)
  | PostSummarize (session : option jsstring)
      (entities : list summarize_entity)
  | InsertSummary (session : option jsstring)
      (summaryData : gmap jsstring jsstring)
  | NoteUpdate (newContent : jsstring)
  | NoteAppend (text : jsstring)
  | EntitiesUpdate.

(** How a call of a callback ends. *)
Inductive callback := Returns | Throws.

(** The options of the hook.  Of the callback [onEntitiesUpdate] the hook
    sees only whether a call returns or throws; the number is the number
    of effects before the call.  A callback that is not given is one that
    returns. *)
Record props := {
  sessionId : option jsstring;
  entities : list ExtractedInfo;
  selectedEntityIds : gset jsstring;
  currentNote : jsstring;
  onEntitiesUpdate : nat → callback;
}.

(** [messages], [isLoading], the effects so far, and the clock: [clock n]
    is what the reading number [n] of [Date.now()] returns, and [reads]
    counts the readings made so far. *)
Record state := {
  messages : list ChatMessage;
  isLoading : bool;
  log : list effect;
  clock : nat → nat;
  reads : nat;
}.

(** What [Date.now()] returns when it is read next. *)
Definition now (st : state) : nat := clock st (reads st).

Definition setMessages (f : list ChatMessage → list ChatMessage)
    (st : state) : state :=
  {| messages := f (messages st); isLoading := isLoading st;
     log := log st; clock := clock st; reads := reads st |}.

Definition setIsLoading (b : bool) (st : state) : state :=
  {| messages := messages st; isLoading := b; log := log st;
     clock := clock st; reads := reads st |}.

Definition perform (e : effect) (st : state) : state :=
  {| messages := messages st; isLoading := isLoading st;
     log := log st ++ [e]; clock := clock st; reads := reads st |}.

(** The clock has been read once more. *)
Definition read_clock (st : state) : state :=
  {| messages := messages st; isLoading := isLoading st;
     log := log st; clock := clock st; reads := S (reads st) |}.

(** [prev => prev.some(m => m.id === msg.id) ? prev : [...prev, msg]]. *)
Definition add_unless_present (msg : ChatMessage)
    (prev : list ChatMessage) : list ChatMessage :=
  if existsb (λ m, bool_decide (id m = id msg)) prev then prev
  else prev ++ [msg].

(** The handler of the realtime [INSERT] event. *)
Definition realtime_insert (newMessage : ChatMessage) (st : state) : state :=
  setMessages (add_unless_present newMessage) st.

(** [s.includes(kw)]. *)
Fixpoint includes (kw s : jsstring) : bool :=
  startsWith kw s
  || match s with
     | [] => false
     | _ :: t => includes kw t
     end.

Definition keywords : list jsstring :=
  [str "summarize"; str "summary"; [32317; 32080]%N; [25688; 35201]%N;
   [27010; 25324]%N].

Definition ai_summary : jsstring := str "ai-summary".

Definition nothing_to_summarize : jsstring :=
  str "There's nothing to summarize yet. Upload some screenshots first!".

Definition join_lines (ls : list jsstring) : jsstring :=
  match ls with
  | [] => []
  | l :: ls' => l ++ foldr (λ x acc, nl :: x ++ acc) [] ls'
  end.

Definition bullets (ls : list jsstring) : jsstring :=
  join_lines ((λ h, str "- " ++ h) <$> ls).

Definition some_truthy (s : option jsstring) : bool :=
  match s with Some x => truthy x | None => false end.

Section hook.

(** The outside world.  The number given to each request is the number
    of effects before it, so that equal requests may be answered
    differently.
    - [insert_message]: the row returned by the insert into
      [chat_messages], or [None] for an error;
    - [post_chat]: the outcome of the request to [/api/chat];
    - [post_summarize]: the body of the reply of [/api/summarize], or
      [None] when the request fails or the response is not [ok];
    - [toLowerCase], [toISOString]: the library functions. *)
Context (insert_message : nat → jsstring → role → jsstring
                          → option ChatMessage)
        (post_chat : nat → jsstring → jsstring → jsstring → chat_fetch)
        (post_summarize : nat → option jsstring → list summarize_entity
                          → option SummarizeResult)
        (toLowerCase : jsstring → jsstring)
        (toISOString : nat → jsstring).

Context (p : props).

Definition isSummarizeCommand (message : jsstring) : bool :=
  let lowered := toLowerCase message in
  existsb (λ kw, includes kw lowered) keywords.

(** [saveMessage(role, content)]: the state after the insert and the row
    saved, if any. *)
Definition saveMessage (r : role) (text : jsstring) (st : state)
    : state * option ChatMessage :=
  match sessionId p with
  | Some sid =>
      if truthy sid
      then (perform (InsertMessage sid r text) st,
            insert_message (length (log st)) sid r text)
      else (st, None)
  | None => (st, None)
  end.

(** The turn shown when the save failed; the clock is read when the turn is
    appended, and both of its fields that hold a time are taken from that
    reading. *)
Definition temp_message (text : jsstring) (st : state) : ChatMessage :=
  {| id := str "temp-" ++ str (pretty (now st));
     session_id := default [] (sessionId p);
     msg_role := assistant;
     content := text;
     created_at := toISOString (now st) |}.

Definition addAssistantMessage (text : jsstring) (st : state) : state :=
  let '(st1, savedMsg) := saveMessage assistant text st in
  let st2 :=
    match savedMsg with
    | Some m => setMessages (add_unless_present m) st1
    | None =>
        read_clock
          (setMessages (λ prev, prev ++ [temp_message text st1]) st1)
    end in
  setIsLoading false st2.

Definition contextEntities : list ExtractedInfo :=
  if bool_decide (0 < size (selectedEntityIds p))
  then filter (λ e, entity_id e ∈ selectedEntityIds p
                    ∧ entity_type e ≠ Some ai_summary) (entities p)
  else filter (λ e, entity_type e ≠ Some ai_summary) (entities p).

Definition summarize_payload : list summarize_entity :=
  (λ e, {| se_type := if some_truthy (entity_type e)
                      then default [] (entity_type e) else str "generic";
           se_title := data e !! str "title";
           se_attributes := data e |}) <$> contextEntities.

Definition numbered_fields (name : string) (values : option (list jsstring))
    (m : gmap jsstring jsstring) : gmap jsstring jsstring :=
  foldl (λ m iv, <[str name ++ str (pretty (S iv.1)) := iv.2]> m) m
    (imap (λ i v, (i, v)) (default [] values)).

Definition summaryData (userQuery : jsstring) (result : SummarizeResult)
    : gmap jsstring jsstring :=
  numbered_fields "recommendation_" (recommendations result)
    (numbered_fields "highlight_" (keyHighlights result)
       (<[str "user_query" := userQuery]>
        (<[str "item_count" := str (pretty (length contextEntities))]>
         (<[str "suggested_title" := suggestedTitle result]>
          (<[str "summary" := condensedSummary result]> ∅))))).

Definition responseText (result : SummarizeResult) : jsstring :=
  let section title items :=
    match items with
    | Some (h :: hs) => [nl; nl] ++ str title ++ [nl] ++ bullets (h :: hs)
    | _ => []
    end in
  str "**" ++ suggestedTitle result ++ str "**" ++ [nl; nl]
    ++ condensedSummary result
    ++ section "**Key Highlights:**" (keyHighlights result)
    ++ section "**Recommendations:**" (recommendations result).

(** [handleSummarizeCommand(userQuery)].  The whole body is in one [try]:
    a request that fails ends in the turn that says that no summary could
    be made; so does a callback [onEntitiesUpdate] that throws, which is
    called after the summary was shown. *)
Definition handleSummarizeCommand (userQuery : jsstring) (st : state)
    : state :=
  if bool_decide (length contextEntities = 0) then
    addAssistantMessage nothing_to_summarize st
  else
    let st1 := perform (PostSummarize (sessionId p) summarize_payload) st in
    match post_summarize (length (log st)) (sessionId p) summarize_payload
    with
    | None =>
        addAssistantMessage
          (str "Sorry, I couldn't create a summary. Please try again.") st1
    | Some result =>
        let st2 :=
          perform (InsertSummary (sessionId p) (summaryData userQuery result))
            st1 in
        let st3 := addAssistantMessage (responseText result) st2 in
        match onEntitiesUpdate p (length (log st3)) with
        | Returns => perform EntitiesUpdate st3
        | Throws =>
            addAssistantMessage
              (str "Sorry, I couldn't create a summary. Please try again.")
              (perform EntitiesUpdate st3)
        end
    end.

Definition chatLog (userMessage aiResponse : jsstring) : jsstring :=
  [nl; nl] ++ Diff.marker_open ++ [nl] ++ str "---" ++ [nl; nl]
    ++ str "**You:** " ++ userMessage ++ [nl; nl] ++ str "**AI:** "
    ++ aiResponse ++ [nl] ++ Diff.marker_close.

Definition error_turn (errorMessage : jsstring) : jsstring :=
  str "Sorry, I encountered an error: " ++ errorMessage.

Definition sendMessage (userMessage : jsstring) (st : state) : state :=
  match sessionId p with
  | None => st
  | Some sid =>
      if negb (truthy sid) || negb (truthy (trim userMessage)) then st
      else
        let st := setIsLoading true st in
        let '(st, savedUserMsg) := saveMessage user userMessage st in
        let st :=
          match savedUserMsg with
          | Some m => setMessages (add_unless_present m) st
          | None => st
          end in
        let st :=
          if isSummarizeCommand userMessage
          then handleSummarizeCommand userMessage st
          else
            let outcome :=
              post_chat (length (log st)) sid userMessage (currentNote p) in
            let st := perform (PostChat sid userMessage (currentNote p)) st in
            match outcome with
            | HttpOk result =>
                let aiResponse :=
                  if truthy (reply result) then reply result
                  else str "I processed your request." in
                let st := addAssistantMessage aiResponse st in
                if noteWasModified result
                   && some_truthy (updatedNote result)
                then perform
                       (NoteUpdate
                          (Diff.markAiAdditions (currentNote p)
                             (default [] (updatedNote result)))) st
                else if negb (noteWasModified result)
                then perform (NoteAppend (chatLog userMessage aiResponse)) st
                else st
            | HttpError status =>
                addAssistantMessage
                  (error_turn (str "API request failed: "
                                 ++ str (pretty status))) st
            | Aborted =>
                addAssistantMessage
                  (error_turn (str "Request timed out. Please try again.")) st
            | FailedToFetch =>
                addAssistantMessage
                  (error_turn
                     (str "Network error. Please check your connection and try again."))
                  st
            | Threw message => addAssistantMessage (error_turn message) st
            | ThrewOther =>
                addAssistantMessage (error_turn (str "Unknown error")) st
            end in
        setIsLoading false st
  end.

End hook.

End Chat.


(** ** Removing the markers (components/notes/NoteEditor.tsx) *)

Module Editor.

(** [text.replace(re, '')] for a global regular expression [re] that never
    matches the empty string: [match_len s] is the length of the match of
    [re] at the start of [s], if there is one.  The text is read from the
    left; a match is left out and the search goes on after it.  [skip]
    counts the code units of the current match still to be left out. *)
Fixpoint remove_matches (match_len : jsstring → option nat) (skip : nat)
    (s : jsstring) : jsstring :=
  match s with
  | [] => []
  | c :: t =>
      match skip with
      | S k => remove_matches match_len k t
      | 0 =>
          match match_len s with
          | Some (S k) => remove_matches match_len k t
          | _ => c :: remove_matches match_len 0 t
          end
      end
  end.

(** The opening delimiter with an optional line feed after it. *)
Definition open_len (s : jsstring) : option nat :=
  match strip_prefix Diff.marker_open s with
  | Some (c :: _) => if (c =? nl)%N then Some 6 else Some 5
  | Some [] => Some 5
  | None => None
  end.

(** An optional line feed and three colons. *)
Definition close_len (s : jsstring) : option nat :=
  match s with
  | c :: t =>
      if (c =? nl)%N && startsWith Diff.marker_close t then Some 4
      else if startsWith Diff.marker_close s then Some 3
      else None
  | [] => None
  end.

Definition removeAiMarkers (text : jsstring) : jsstring :=
  remove_matches close_len 0 (remove_matches open_len 0 text).

(** What the timer of the editor does when it fires, 5 s after [content]
    was last set: [Some cleaned] stands for the call [onChange(cleaned)],
    [None] for no call.  The timer is set only when [content] includes the
    opening delimiter. *)
Definition expire (content : jsstring) : option jsstring :=
  if Chat.includes Diff.marker_open content then
    let cleanedContent := removeAiMarkers content in
    if bool_decide (cleanedContent ≠ content) then Some cleanedContent
    else None
  else None.

End Editor.

(** * Properties *)

Import Diff.

(** ** Vocabulary of the statements *)

(** A string is blank when it is empty or made of white space only. *)
Definition blank (s : jsstring) : Prop := Forall (λ c, is_ws c = true) s.

(** [s] holds three line feeds in a row somewhere. *)
Definition has_triple_newline (s : jsstring) : Prop :=
  ∃ a b, s = a ++ [nl; nl; nl] ++ b.

(** [s] without the line feeds at its end, and without those at its start. *)
Definition strip_trailing_newlines (s : jsstring) : jsstring :=
  reverse (drop_while (λ c, c =? nl)%N (reverse s)).
Definition strip_leading_newlines (s : jsstring) : jsstring :=
  drop_while (λ c, c =? nl)%N s.

(** A checker for [has_triple_newline]: [run] is the number of line feeds
    just read. *)
Fixpoint run_free (run : nat) (s : jsstring) : bool :=
  match s with
  | [] => true
  | c :: t =>
      if (c =? nl)%N then bool_decide (run < 2) && run_free (S run) t
      else run_free 0 t
  end.

(** ** Strings *)

Section strings.
Implicit Types (s t p : jsstring) (c : N).

Lemma drop_while_nil_iff f s :
  drop_while f s = [] ↔ Forall (λ c, f c = true) s.
Proof.
  induction s as [|c s IH]; simpl.
  - split; [by constructor|done].
  - destruct (f c) eqn:E.
    + rewrite IH. split; [by constructor|by inversion 1].
    + split; [done|]. inversion 1; congruence.
Qed.

Lemma drop_while_app_all f s t :
  Forall (λ c, f c = true) s → drop_while f (s ++ t) = drop_while f t.
Proof. induction 1 as [|c s Hc _ IH]; simpl; [done|by rewrite Hc]. Qed.

Lemma drop_while_stop f c s : f c = false → drop_while f (c :: s) = c :: s.
Proof. simpl. by intros ->. Qed.

Lemma take_drop_while f s : take_while f s ++ drop_while f s = s.
Proof.
  induction s as [|c s IH]; simpl; [done|].
  destruct (f c); simpl; [by rewrite IH|done].
Qed.

Lemma take_while_all f s : Forall (λ c, f c = true) (take_while f s).
Proof.
  induction s as [|c s IH]; simpl; [constructor|].
  destruct (f c) eqn:E; by constructor.
Qed.

Lemma drop_while_head f s c t : drop_while f s = c :: t → f c = false.
Proof.
  induction s as [|x s IH]; simpl; [done|].
  destruct (f x) eqn:E; [done|]. by intros [= -> _].
Qed.

Lemma trim_nil_iff s : trim s = [] ↔ blank s.
Proof.
  unfold trim, trimEnd, trimStart, blank.
  rewrite <- (reverse_involutive []), (inj_iff reverse), reverse_nil.
  rewrite drop_while_nil_iff, Forall_reverse.
  split.
  - intros H.
    rewrite <- (take_drop_while is_ws s). apply Forall_app.
    split; [apply take_while_all|done].
  - intros H. assert (drop_while is_ws s = []) as ->; [|constructor].
    by apply drop_while_nil_iff.
Qed.

Lemma truthy_false s : truthy s = false ↔ s = [].
Proof. by destruct s. Qed.

Lemma truthy_true s : truthy s = true ↔ s ≠ [].
Proof. by destruct s. Qed.

Lemma strip_prefix_Some p s r : strip_prefix p s = Some r ↔ s = p ++ r.
Proof.
  revert s. induction p as [|a p IH]; intros s; simpl.
  - split; [by intros [= ->]|by intros ->].
  - destruct s as [|b s]; [done|].
    destruct (N.eqb_spec a b) as [->|Hne].
    + rewrite IH. split; [by intros ->|by intros [= ->]].
    + split; [done|]. intros [= ? _]. by subst.
Qed.

Lemma startsWith_true p s : startsWith p s = true ↔ ∃ r, s = p ++ r.
Proof.
  unfold startsWith. rewrite bool_decide_eq_true. unfold is_Some.
  by setoid_rewrite strip_prefix_Some.
Qed.

Lemma startsWith_nl s : startsWith [nl] s = true ↔ head s = Some nl.
Proof.
  rewrite startsWith_true. destruct s as [|c s]; simpl.
  - split; [by intros [r ?]|done].
  - split; [by intros [r [= -> _]]|intros [= ->]; by exists s].
Qed.

Lemma endsWith_nl s : endsWith [nl] s = true ↔ last s = Some nl.
Proof.
  unfold endsWith. rewrite reverse_singleton, startsWith_nl.
  by rewrite head_reverse.
Qed.

Lemma trim_head_not_ws s c t : trim s = c :: t → is_ws c = false.
Proof.
  unfold trim, trimEnd, trimStart. intros H.
  destruct (drop_while is_ws s) as [|x u] eqn:E.
  { by rewrite reverse_nil in H. }
  pose proof (drop_while_head _ _ _ _ E) as Hx.
  destruct (drop_while is_ws (reverse (x :: u))) as [|y v] eqn:E2.
  { by rewrite reverse_nil in H. }
  pose proof (take_drop_while is_ws (reverse (x :: u))) as Htd.
  rewrite E2 in Htd.
  apply (f_equal reverse) in Htd.
  rewrite reverse_involutive, reverse_app in Htd.
  rewrite H in Htd. simpl in Htd. by injection Htd as -> _.
Qed.

Lemma trim_last_not_ws s c : last (trim s) = Some c → is_ws c = false.
Proof.
  unfold trim, trimEnd. rewrite last_reverse. intros H.
  destruct (drop_while is_ws (reverse (trimStart s))) as [|x u] eqn:E;
    [done|].
  simpl in H. injection H as ->. by eapply drop_while_head.
Qed.

Lemma trim_head_not_nl s : head (trim s) ≠ Some nl.
Proof.
  destruct (trim s) as [|c t] eqn:E; [done|].
  apply trim_head_not_ws in E. simpl. intros [= Hc].
  by rewrite Hc in E.
Qed.

Lemma trim_last_not_nl s : last (trim s) ≠ Some nl.
Proof. by intros H%trim_last_not_ws. Qed.

End strings.

(** ** The diff annotator *)

Section diff_loops.
Implicit Types (old new : jsstring).

(** The fuel of [prefix_loop] is enough: the loop stops where its
    condition fails, and what it has passed agrees in both texts. *)
Lemma prefix_loop_exits fuel old new m p :
  p ≤ m → m - p ≤ fuel →
  let r := prefix_loop fuel old new m p in
  p ≤ r ≤ m
  ∧ ¬ (r < m ∧ old !! r = new !! r)
  ∧ ∀ i, p ≤ i < r → old !! i = new !! i.
Proof.
  revert p. induction fuel as [|fuel IH]; intros p Hp Hfuel; simpl.
  - split; [lia|]. split; [lia|]. intros i ?; lia.
  - destruct (decide (p < m)) as [Hlt|Hge];
      [rewrite (bool_decide_eq_true_2 _ Hlt)
      |rewrite (bool_decide_eq_false_2 _ Hge)]; simpl.
    + destruct (decide (old !! p = new !! p)) as [Heq|Hne];
        [rewrite (bool_decide_eq_true_2 _ Heq)
        |rewrite (bool_decide_eq_false_2 _ Hne)].
      * destruct (IH (S p)) as (Hr & Hstop & Hsame); [lia..|].
        split; [lia|]. split; [done|].
        intros i Hi. destruct (decide (i = p)) as [->|]; [done|].
        apply Hsame. lia.
      * split; [lia|]. split; [tauto|]. intros i ?; lia.
    + split; [lia|]. split; [tauto|]. intros i ?; lia.
Qed.

(** The same for [suffix_loop]. *)
Lemma suffix_loop_exits fuel old new p o n :
  o - p ≤ fuel →
  let r := suffix_loop fuel old new p o n in
  r.1 ≤ o ∧ r.2 ≤ n ∧ o - r.1 = n - r.2
  ∧ (p ≤ o → p ≤ r.1) ∧ (p ≤ n → p ≤ r.2)
  ∧ ¬ (p < r.1 ∧ p < r.2 ∧ old !! (r.1 - 1) = new !! (r.2 - 1)).
Proof.
  revert o n. induction fuel as [|fuel IH]; intros o n Hfuel; simpl.
  - repeat split; try lia.
  - destruct (decide (p < o)) as [Ho|Ho];
      [rewrite (bool_decide_eq_true_2 _ Ho)
      |rewrite (bool_decide_eq_false_2 _ Ho)]; simpl;
      [|repeat split; simpl; lia].
    destruct (decide (p < n)) as [Hn|Hn];
      [rewrite (bool_decide_eq_true_2 _ Hn)
      |rewrite (bool_decide_eq_false_2 _ Hn)]; simpl;
      [|repeat split; simpl; lia].
    destruct (decide (old !! (o - 1) = new !! (n - 1))) as [Heq|Hne];
      [rewrite (bool_decide_eq_true_2 _ Heq)
      |rewrite (bool_decide_eq_false_2 _ Hne)]; simpl;
      [|repeat split; simpl; try lia; tauto].
    destruct (IH (o - 1) (n - 1)) as (H1 & H2 & H3 & H4 & H5 & H6); [lia|].
    repeat split; try lia. done.
Qed.

(** The three parts cut out of the new text make up the new text. *)
Lemma scan_parts old new :
  let d := scan old new in
  prefixEnd d ≤ newSuffixStart d ≤ length new
  ∧ new = prefix_of d new ++ added_of d new ++ suffix_of d new.
Proof.
  unfold scan.
  set (m := length old `min` length new).
  pose proof (prefix_loop_exits m old new m 0 ltac:(lia) ltac:(lia))
    as (Hp & _ & _). simpl in Hp.
  set (p := prefix_loop m old new m 0) in *.
  pose proof (suffix_loop_exits (length old) old new p (length old)
                (length new) ltac:(lia)) as (_ & Hn & _ & _ & Hpn & _).
  simpl in Hn, Hpn.
  destruct (suffix_loop _ _ _ _ _ _) as [o n]. simpl in *.
  assert (p ≤ n) by lia.
  split; [lia|].
  unfold prefix_of, added_of, suffix_of, slice, slice_from. simpl.
  rewrite Nat.sub_0_r, drop_0.
  rewrite <- (take_drop p new) at 1. f_equal.
  rewrite <- (take_drop (n - p) (drop p new)) at 1. f_equal.
  rewrite drop_drop. f_equal. lia.
Qed.

End diff_loops.

Section collapse.
Implicit Types (s a b : jsstring).

Lemma emit_run_small k : k ≤ 2 → emit_run k = replicate k nl.
Proof.
  intros. unfold emit_run. case_decide; [lia|done].
Qed.

Lemma emit_run_large k : 2 ≤ k → emit_run k = [nl; nl].
Proof.
  intros. unfold emit_run. case_decide; [done|].
  by assert (k = 2) as -> by lia.
Qed.

Lemma collapse_from_newlines k j s :
  collapse_from k (replicate j nl ++ s) = collapse_from (k + j) s.
Proof.
  revert k. induction j as [|j IH]; intros k; simpl.
  - by rewrite Nat.add_0_r.
  - rewrite IH. f_equal. lia.
Qed.

Lemma collapse_from_plain k s :
  head s ≠ Some nl →
  collapse_from k s = emit_run k ++ collapse_newlines s.
Proof.
  destruct s as [|c s]; simpl; intros Hc.
  - by rewrite app_nil_r.
  - unfold collapse_newlines. simpl.
    destruct (N.eqb_spec c nl) as [->|_]; [congruence|done].
Qed.

Lemma collapse_from_app k a b :
  a ≠ [] → last a ≠ Some nl →
  collapse_from k (a ++ b) = collapse_from k a ++ collapse_newlines b.
Proof.
  revert k. induction a as [|c a IH]; intros k Hne Hlast; [done|].
  simpl. destruct a as [|c' a].
  - simpl in *. destruct (N.eqb_spec c nl) as [->|_]; [done|].
    by rewrite <- app_assoc.
  - specialize (IH (if (c =? nl)%N then S k else 0)).
    destruct (N.eqb_spec c nl) as [->|_].
    + by apply IH.
    + rewrite IH by done. by rewrite <- app_assoc.
Qed.

(** A run of line feeds between a text that does not end with one and a
    text that does not start with one is collapsed on its own. *)
Lemma collapse_separated a k b :
  last a ≠ Some nl → head b ≠ Some nl →
  collapse_newlines (a ++ replicate k nl ++ b)
  = collapse_newlines a ++ emit_run k ++ collapse_newlines b.
Proof.
  intros Ha Hb. unfold collapse_newlines at 1.
  destruct (decide (a = [])) as [->|Hne].
  - simpl. by rewrite collapse_from_newlines, collapse_from_plain.
  - rewrite collapse_from_app by done.
    unfold collapse_newlines at 1.
    rewrite collapse_from_newlines, (collapse_from_plain _ b) by done.
    reflexivity.
Qed.

Lemma collapse_plain s :
  Forall (λ c, c ≠ nl) s → collapse_newlines s = s.
Proof.
  unfold collapse_newlines.
  induction 1 as [|c s Hc _ IH]; simpl; [done|].
  destruct (N.eqb_spec c nl); [done|]. by rewrite IH.
Qed.

(** The result of the replacement has no three line feeds in a row. *)
Lemma run_free_newlines j s :
  j ≤ 2 → head s ≠ Some nl → run_free 0 s = true →
  run_free 0 (replicate j nl ++ s) = true.
Proof.
  intros Hj Hs Hfree.
  assert (∀ r, run_free r s = true) as Hany.
  { intros r. destruct s as [|c s]; [done|]. simpl in *.
    by destruct (N.eqb_spec c nl) as [->|_]. }
  destruct j as [|[|[|j]]]; simpl; rewrite ?Hany; try done. lia.
Qed.

Lemma collapse_from_run_free k s : run_free 0 (collapse_from k s) = true.
Proof.
  assert (∀ k, ∃ j, j ≤ 2 ∧ emit_run k = replicate j nl) as Hemit.
  { intros j. unfold emit_run. case_decide; eauto with lia.
    exists j. split; [lia|done]. }
  revert k. induction s as [|c s IH]; intros k; simpl.
  - destruct (Hemit k) as (j & Hj & ->).
    rewrite <- (app_nil_r (replicate j nl)).
    by apply run_free_newlines.
  - destruct (N.eqb_spec c nl) as [->|Hc]; [apply IH|].
    destruct (Hemit k) as (j & Hj & ->).
    apply run_free_newlines; [done|simpl; congruence|].
    simpl. destruct (N.eqb_spec c nl); [done|apply IH].
Qed.

Lemma run_free_sound r s : run_free r s = true → ¬ has_triple_newline s.
Proof.
  intros Hfree (a & b & ->). revert r Hfree.
  induction a as [|c a IH]; intros r; simpl.
  - rewrite !andb_true_iff, !bool_decide_eq_true. lia.
  - destruct (c =? nl)%N; [|apply IH].
    rewrite andb_true_iff. intros [_ ?]. by eapply IH.
Qed.

Lemma collapse_no_triple s : ¬ has_triple_newline (collapse_newlines s).
Proof. eapply run_free_sound, collapse_from_run_free. Qed.

Lemma strip_trailing_shape s :
  ∃ j, s = strip_trailing_newlines s ++ replicate j nl
       ∧ last (strip_trailing_newlines s) ≠ Some nl
       ∧ (j = 0 ↔ last s ≠ Some nl).
Proof.
  unfold strip_trailing_newlines.
  pose proof (take_drop_while (λ c, c =? nl)%N (reverse s)) as Hsplit.
  pose proof (take_while_all (λ c, c =? nl)%N (reverse s)) as Hall.
  set (run := take_while _ _) in *. set (rest := drop_while _ _) in *.
  assert (run = replicate (length run) nl) as Hrun.
  { clear Hsplit. induction Hall as [|c l Hc _ IH]; simpl; [done|].
    apply N.eqb_eq in Hc as ->. by rewrite <- IH. }
  assert (last (reverse rest) ≠ Some nl) as Hlast.
  { rewrite last_reverse. destruct rest as [|c rest'] eqn:E; [done|].
    apply drop_while_head in E. simpl. intros [= ->]. done. }
  exists (length run). split; [|split; [done|]].
  - apply (f_equal reverse) in Hsplit.
    rewrite reverse_involutive, reverse_app in Hsplit.
    rewrite <- Hsplit. f_equal.
    rewrite Hrun at 1. by rewrite reverse_replicate.
  - rewrite <- (reverse_involutive s), last_reverse, <- Hsplit.
    destruct run as [|c run']; simpl.
    + split; [intros _|done].
      by rewrite last_reverse in Hlast.
    + split; [done|]. intros Hc. exfalso. apply Hc.
      inversion Hall as [|?? Hx]. by apply N.eqb_eq in Hx as ->.
Qed.

Lemma strip_leading_shape s :
  ∃ j, s = replicate j nl ++ strip_leading_newlines s
       ∧ head (strip_leading_newlines s) ≠ Some nl
       ∧ (j = 0 ↔ head s ≠ Some nl).
Proof.
  unfold strip_leading_newlines.
  induction s as [|c s (j & Hs & Hhead & Hj)]; simpl.
  - by exists 0.
  - destruct (N.eqb_spec c nl) as [->|Hc].
    + exists (S j). split; [simpl; by rewrite <- Hs|]. split; [done|].
      split; [done|]. by intros [].
    + exists 0. split; [done|]. split; [simpl; congruence|].
      split; [simpl; congruence|done].
Qed.

End collapse.

Section diff_wrap.
Implicit Types (s prefix suffix added : jsstring).

(** The separator that the result shows between a delimiter and the text
    next to it: a blank line, unless there is no text. *)
Definition separator (s : jsstring) : jsstring :=
  if truthy s then [nl; nl] else [nl].

(** The marker block as the claim words it: one line feed between each
    delimiter and the prefix or suffix. *)
Definition one_newline_wrap (prefix added suffix : jsstring) : jsstring :=
  prefix ++ [nl] ++ marker_open ++ [nl] ++ trim added ++ [nl]
    ++ marker_close ++ [nl] ++ suffix.

Lemma collapse_head s :
  head s ≠ Some nl → head (collapse_newlines s) ≠ Some nl.
Proof.
  destruct s as [|c s]; [done|]. unfold collapse_newlines. simpl.
  by destruct (N.eqb_spec c nl) as [->|?].
Qed.

Lemma collapse_last k s :
  s ≠ [] → last s ≠ Some nl → last (collapse_from k s) ≠ Some nl.
Proof.
  revert k. induction s as [|c s IH]; intros k Hne Hlast; [done|].
  simpl. destruct s as [|c' s].
  - simpl in *. destruct (N.eqb_spec c nl) as [->|?]; [done|].
    rewrite last_app. simpl. congruence.
  - change (last (c :: c' :: s)) with (last (c' :: s)) in Hlast.
    destruct (N.eqb_spec c nl) as [->|?]; [by apply IH|].
    pose proof (IH 0 ltac:(done) Hlast) as IH0.
    rewrite last_app, last_cons.
    destruct (last (collapse_from 0 (c' :: s))); congruence.
Qed.

Lemma collapse_last' s :
  last s ≠ Some nl → last (collapse_newlines s) ≠ Some nl.
Proof.
  destruct (decide (s = [])) as [->|Hne]; [done|]. by apply collapse_last.
Qed.

Lemma cleanPrefix_shape prefix :
  ∃ k, cleanPrefix prefix ++ [nl]
       = strip_trailing_newlines prefix ++ replicate k nl
       ∧ emit_run k = separator prefix.
Proof.
  destruct (strip_trailing_shape prefix) as (j & Hsplit & _ & Hj).
  unfold cleanPrefix, separator.
  destruct (endsWith [nl] prefix) eqn:Hends.
  - apply endsWith_nl in Hends.
    exists (S j). split.
    + rewrite Hsplit at 1. rewrite <- app_assoc. f_equal.
      by rewrite replicate_S_end.
    + assert (j ≠ 0) by (rewrite Hj; tauto).
      assert (truthy prefix = true) as -> by (by destruct prefix).
      apply emit_run_large. lia.
  - assert (last prefix ≠ Some nl) as Hlast.
    { intros ?%endsWith_nl. congruence. }
    assert (j = 0) as -> by by apply Hj.
    simpl in Hsplit. rewrite app_nil_r in Hsplit.
    destruct (truthy prefix) eqn:Ht.
    + exists 2. split; [|done].
      rewrite <- Hsplit. by rewrite <- app_assoc.
    + apply truthy_false in Ht as ->. by exists 1.
Qed.

Lemma cleanSuffix_shape suffix :
  ∃ m, [nl] ++ cleanSuffix suffix
       = replicate m nl ++ strip_leading_newlines suffix
       ∧ emit_run m = separator suffix.
Proof.
  destruct (strip_leading_shape suffix) as (j & Hsplit & _ & Hj).
  unfold cleanSuffix, separator.
  destruct (startsWith [nl] suffix) eqn:Hstarts.
  - apply startsWith_nl in Hstarts.
    exists (S j). split.
    + by rewrite Hsplit at 1.
    + assert (j ≠ 0) by (rewrite Hj; tauto).
      assert (truthy suffix = true) as -> by (by destruct suffix).
      apply emit_run_large. lia.
  - assert (head suffix ≠ Some nl) as Hhead.
    { intros ?%startsWith_nl. congruence. }
    assert (j = 0) as -> by by apply Hj.
    simpl in Hsplit.
    destruct (truthy suffix) eqn:Ht.
    + exists 2. split; [|done]. by rewrite <- Hsplit.
    + apply truthy_false in Ht as ->. by exists 1.
Qed.

(** The collapsed template, piece by piece. *)
Lemma collapse_wrap prefix added suffix :
  trim added ≠ [] →
  collapse_newlines (wrap prefix added suffix)
  = collapse_newlines (strip_trailing_newlines prefix)
    ++ separator prefix ++ marker_open ++ [nl]
    ++ collapse_newlines (trim added) ++ [nl] ++ marker_close
    ++ separator suffix
    ++ collapse_newlines (strip_leading_newlines suffix).
Proof.
  intros Hadded.
  destruct (cleanPrefix_shape prefix) as (k & Hpre & <-).
  destruct (cleanSuffix_shape suffix) as (m & Hsuf & <-).
  destruct (strip_trailing_shape prefix) as (_ & _ & Hcore & _).
  destruct (strip_leading_shape suffix) as (_ & _ & Hrest & _).
  pose proof (trim_head_not_nl added) as Hhead.
  pose proof (trim_last_not_nl added) as Hlast.
  unfold wrap.
  rewrite (app_assoc (cleanPrefix prefix)), Hpre, <- app_assoc.
  set (score := strip_leading_newlines suffix) in *.
  set (t := trim added) in *.
  assert (marker_open ++ [nl] ++ t ++ [nl] ++ marker_close ++ [nl]
            ++ cleanSuffix suffix
          = marker_open ++ replicate 1 nl ++ t ++ replicate 1 nl
              ++ marker_close ++ replicate m nl ++ score) as ->.
  { simpl. by rewrite <- Hsuf. }
  rewrite collapse_separated; [|done|done].
  rewrite (collapse_separated marker_open); [|done|by destruct t].
  rewrite (collapse_separated t); [|done|done].
  rewrite (collapse_separated marker_close); [|done|done].
  rewrite (collapse_plain marker_open), (collapse_plain marker_close);
    [|by repeat constructor..].
  rewrite (emit_run_small 1) by lia. reflexivity.
Qed.

End diff_wrap.

(** *** The example of the spec *)

Definition hello_world : jsstring := str "hello world".
Definition hello_brave_new_world : jsstring := str "hello brave new world".

(** C1, as stated, fails: for [annotate("hello world", "hello brave new
    world")] the scans do not give the prefix ["hello "], the suffix
    [" world"] and the added region ["brave new"] (the suffix scan stops at
    the end of the prefix, so the blank before ["world"] is not counted
    twice). *)
Lemma C1_counterexample :
  let d := scan hello_world hello_brave_new_world in
  ¬ (prefix_of d hello_brave_new_world = str "hello "
     ∧ suffix_of d hello_brave_new_world = str " world"
     ∧ added_of d hello_brave_new_world = str "brave new").
Proof. vm_compute. intros (_ & Hsuffix & _). discriminate Hsuffix. Qed.

(** C1, amended: [annotate("hello world", "hello brave new world")] computes
    the common prefix ["hello "] and, in what remains after the prefix, the
    common suffix ["world"]; the added region is ["brave new "], and the
    result wraps only its trimmed form ["brave new"] in the marker block,
    with the prefix and the suffix unchanged around it. *)
Theorem C1_hello_brave_new_world :
  let d := scan hello_world hello_brave_new_world in
  prefix_of d hello_brave_new_world = str "hello "
  ∧ suffix_of d hello_brave_new_world = str "world"
  ∧ added_of d hello_brave_new_world = str "brave new "
  ∧ trim (added_of d hello_brave_new_world) = str "brave new"
  ∧ markAiAdditions hello_world hello_brave_new_world
    = str "hello " ++ [nl; nl] ++ marker_open ++ [nl] ++ str "brave new"
      ++ [nl] ++ marker_close ++ [nl; nl] ++ str "world".
Proof. vm_compute. done. Qed.

(** C2, as stated, fails: in [annotate("hello world", "hello brave new
    world")] a marker block is inserted, and the delimiters are not one line
    feed away from the prefix and the suffix but two. *)
Lemma C2_counterexample :
  let d := scan hello_world hello_brave_new_world in
  let prefix := prefix_of d hello_brave_new_world in
  let added := added_of d hello_brave_new_world in
  let suffix := suffix_of d hello_brave_new_world in
  inserts_marker hello_world hello_brave_new_world = true
  ∧ markAiAdditions hello_world hello_brave_new_world
    ≠ one_newline_wrap prefix added suffix
  ∧ markAiAdditions hello_world hello_brave_new_world
    = prefix ++ [nl; nl] ++ marker_open ++ [nl] ++ trim added ++ [nl]
      ++ marker_close ++ [nl; nl] ++ suffix.
Proof. vm_compute. done. Qed.

(** C2, amended: for every pair on which a marker block is inserted, the
    result is the prefix without its trailing line feeds, a separator, the
    opening delimiter, one line feed, the trimmed added region, one line
    feed, the closing delimiter, a separator, and the suffix without its
    leading line feeds, where a separator is exactly two line feeds next to
    a non-empty prefix or suffix and one line feed next to an empty one, and
    where every run of three or more line feeds of the three texts is
    collapsed to two; so the result never has three line feeds in a row. *)
Theorem C2_marker_block (oldContent newContent : jsstring) :
  inserts_marker oldContent newContent = true →
  let d := scan oldContent newContent in
  let prefix := prefix_of d newContent in
  let added := added_of d newContent in
  let suffix := suffix_of d newContent in
  let before := collapse_newlines (strip_trailing_newlines prefix) in
  let inner := collapse_newlines (trim added) in
  let after := collapse_newlines (strip_leading_newlines suffix) in
  markAiAdditions oldContent newContent
  = before ++ separator prefix ++ marker_open ++ [nl] ++ inner ++ [nl]
    ++ marker_close ++ separator suffix ++ after
  ∧ last before ≠ Some nl
  ∧ head inner ≠ Some nl ∧ last inner ≠ Some nl
  ∧ head after ≠ Some nl
  ∧ ¬ has_triple_newline (markAiAdditions oldContent newContent).
Proof.
  unfold inserts_marker, markAiAdditions.
  intros [Hold Hadded]%andb_true_iff. rewrite Hold, Hadded. simpl.
  apply truthy_true in Hadded.
  destruct (strip_trailing_shape
              (prefix_of (scan oldContent newContent) newContent))
    as (_ & _ & Hcore & _).
  destruct (strip_leading_shape
              (suffix_of (scan oldContent newContent) newContent))
    as (_ & _ & Hrest & _).
  split; [by apply collapse_wrap|].
  split; [by apply collapse_last'|].
  split; [apply collapse_head, trim_head_not_nl|].
  split; [apply collapse_last', trim_last_not_nl|].
  split; [by apply collapse_head|].
  apply collapse_no_triple.
Qed.

Lemma C2_marker_block_witness :
  inserts_marker hello_world hello_brave_new_world = true
  ∧ ¬ has_triple_newline (markAiAdditions hello_world hello_brave_new_world).
Proof.
  split; [reflexivity|].
  apply (C2_marker_block hello_world hello_brave_new_world). reflexivity.
Defined.

(** C3: the diff annotator returns [newText] itself, with no marker, when
    [oldText] is empty or all white space, and when the added region is
    empty or all white space. *)
Theorem C3_degenerate_identity (oldContent newContent : jsstring) :
  blank oldContent
  ∨ blank (added_of (scan oldContent newContent) newContent) →
  markAiAdditions oldContent newContent = newContent.
Proof.
  unfold markAiAdditions.
  intros [Hold|Hadded].
  - apply trim_nil_iff in Hold. by rewrite Hold.
  - apply trim_nil_iff in Hadded. rewrite Hadded.
    by destruct (negb _).
Qed.

(** The two examples of the spec: [annotate("", "hello") = "hello"] and
    [annotate("same", "same") = "same"]. *)
Lemma C3_degenerate_identity_witness :
  markAiAdditions (str "") (str "hello") = str "hello"
  ∧ markAiAdditions (str "same") (str "same") = str "same".
Proof.
  split.
  - apply (C3_degenerate_identity (str "") (str "hello")).
    left. constructor.
  - apply (C3_degenerate_identity (str "same") (str "same")).
    right. vm_compute. constructor.
Defined.

(** ** The inline parser *)

Import Markdown.

(** The pattern [d(.+?)d] matches [s] at position [i] with the group [g]:
    the group is not empty, holds no line terminator, and stands between two
    copies of the delimiter. *)
Definition occurs (d s : jsstring) (i : nat) (g : jsstring) : Prop :=
  g ≠ [] ∧ Forall (λ c, is_line_terminator c = false) g
  ∧ ∃ pre rest, s = pre ++ d ++ g ++ d ++ rest ∧ length pre = i.

(** What the inline parser emits, without the keys: literal text or one
    styled span that holds raw text. *)
Inductive inline :=
  | Plain (s : jsstring)
  | Styled (ty : style) (s : jsstring).

Definition inline_node (k : nat) (x : inline) : node :=
  match x with
  | Plain s => Elem Span (Some k) [Text s]
  | Styled ty s => Elem (style_tag ty) (Some k) [Text s]
  end.

(** The parse that the claim describes: at each step the match that starts
    first, among the three patterns, is taken with its shortest group; the
    text before it is literal, the group is one span, and the parse goes on
    after the match; when nothing matches, what remains is literal. *)
Inductive parses : jsstring → list inline → Prop :=
  | parses_empty : parses [] []
  | parses_literal s :
      s ≠ [] →
      (∀ ty i g, ¬ occurs (delimiter ty) s i g) →
      parses s [Plain s]
  | parses_span s ty pre g rest l :
      s = pre ++ delimiter ty ++ g ++ delimiter ty ++ rest →
      g ≠ [] →
      Forall (λ c, is_line_terminator c = false) g →
      (∀ ty' i' g', occurs (delimiter ty') s i' g' → length pre ≤ i') →
      (∀ g', occurs (delimiter ty) s (length pre) g' → length g ≤ length g') →
      parses rest l →
      parses s ((if bool_decide (pre = []) then [] else [Plain pre])
                ++ Styled ty g :: l).

Section regex.
Implicit Types (d s g : jsstring).

Lemma startsWith_false d s : startsWith d s = false → ∀ r, s ≠ d ++ r.
Proof.
  intros H r ->. assert (startsWith d (d ++ r) = true); [|congruence].
  apply startsWith_true. by exists r.
Qed.

Lemma lazy_group_Some d s g :
  lazy_group d s = Some g →
  g ≠ [] ∧ Forall (λ c, is_line_terminator c = false) g
  ∧ ∃ rest, s = g ++ d ++ rest.
Proof.
  revert g. induction s as [|c s IH]; intros g; simpl; [done|].
  destruct (is_line_terminator c) eqn:Hc; [done|].
  destruct (startsWith d s) eqn:Hd.
  - intros [= <-]. apply startsWith_true in Hd as [rest ->].
    split; [done|]. split; [by repeat constructor|by exists rest].
  - destruct (lazy_group d s) as [g0|]; [|done]. intros [= <-].
    destruct (IH g0 eq_refl) as (_ & Hall & rest & ->).
    split; [done|]. split; [by constructor|by exists rest].
Qed.

Lemma lazy_group_least d s g g' rest :
  lazy_group d s = Some g → g' ≠ [] → s = g' ++ d ++ rest →
  length g ≤ length g'.
Proof.
  revert g g'. induction s as [|c s IH]; intros g g'; simpl; [done|].
  destruct (is_line_terminator c); [done|].
  destruct (startsWith d s) eqn:Hd.
  - intros [= <-] Hg' _. destruct g'; [done|simpl; lia].
  - destruct (lazy_group d s) as [g0|]; [|done]. intros [= <-] Hg' Hs.
    destruct g' as [|c' g'']; [done|]. injection Hs as -> Hs.
    destruct g'' as [|c'' g''].
    { by apply (startsWith_false _ _ Hd) in Hs. }
    simpl. apply le_n_S. by apply (IH g0 (c'' :: g'')).
Qed.

Lemma lazy_group_None d s g rest :
  lazy_group d s = None → g ≠ [] →
  Forall (λ c, is_line_terminator c = false) g → s ≠ g ++ d ++ rest.
Proof.
  revert g. induction s as [|c s IH]; intros g; simpl.
  - intros _ Hg _ Hs. by destruct g.
  - destruct (is_line_terminator c) eqn:Hc.
    { intros _ Hg Hall Hs. destruct g as [|c' g]; [done|].
      injection Hs as -> _. inversion Hall; congruence. }
    destruct (startsWith d s) eqn:Hd; [done|].
    destruct (lazy_group d s) as [g0|] eqn:Hg0; [done|].
    intros _ Hg Hall Hs. destruct g as [|c' g]; [done|].
    injection Hs as -> Hs. destruct g as [|c'' g].
    { by apply (startsWith_false _ _ Hd) in Hs. }
    apply (IH (c'' :: g)); [done|done|by inversion Hall|done].
Qed.

Lemma occurs_here d s g :
  occurs d s 0 g
  ↔ g ≠ [] ∧ Forall (λ c, is_line_terminator c = false) g
    ∧ ∃ rest, s = d ++ g ++ d ++ rest.
Proof.
  unfold occurs. split.
  - intros (? & ? & pre & rest & -> & Hpre).
    apply nil_length_inv in Hpre as ->. eauto.
  - intros (? & ? & rest & ->). split; [done|]. split; [done|].
    by exists [], rest.
Qed.

Lemma occurs_later d c s i g : occurs d (c :: s) (S i) g ↔ occurs d s i g.
Proof.
  unfold occurs. split.
  - intros (? & ? & pre & rest & Hs & Hpre).
    destruct pre as [|c' pre]; [done|]. injection Hs as -> ->.
    split; [done|]. split; [done|]. exists pre, rest.
    split; [done|]. simpl in Hpre. lia.
  - intros (? & ? & pre & rest & -> & <-).
    split; [done|]. split; [done|]. by exists (c :: pre), rest.
Qed.

Lemma occurs_nil d i g : ¬ occurs d [] i g.
Proof.
  intros (Hg & _ & pre & rest & Hs & _).
  symmetry in Hs. apply app_eq_nil in Hs as [_ Hs].
  apply app_eq_nil in Hs as [_ Hs]. by apply app_eq_nil in Hs as [? _].
Qed.

Lemma match_at_Some d s g :
  match_at d s = Some g →
  occurs d s 0 g ∧ ∀ g', occurs d s 0 g' → length g ≤ length g'.
Proof.
  unfold match_at. destruct (strip_prefix d s) as [r|] eqn:Hr; [|done].
  simpl. apply strip_prefix_Some in Hr as ->. intros Hg.
  destruct (lazy_group_Some _ _ _ Hg) as (Hne & Hall & rest & Hs).
  split.
  - apply occurs_here. split; [done|]. split; [done|].
    exists rest. by rewrite Hs.
  - intros g' (Hne' & _ & rest' & Hs')%occurs_here.
    apply app_inv_head in Hs'. by eapply lazy_group_least.
Qed.

Lemma match_at_None d s g : match_at d s = None → ¬ occurs d s 0 g.
Proof.
  unfold match_at. intros Hm (Hne & Hall & rest & ->)%occurs_here.
  destruct (strip_prefix d _) as [r|] eqn:Hr.
  - apply strip_prefix_Some, app_inv_head in Hr as <-. simpl in Hm.
    by eapply lazy_group_None.
  - assert (strip_prefix d (d ++ g ++ d ++ rest) = Some (g ++ d ++ rest))
      by by apply strip_prefix_Some.
    congruence.
Qed.

(** [search] finds the leftmost match, and its shortest group there. *)
Lemma search_from_Some d s i m :
  search_from d s i = Some m →
  ∃ j, index m = i + j
       ∧ whole m = d ++ group1 m ++ d
       ∧ occurs d s j (group1 m)
       ∧ ∀ j' g', occurs d s j' g' →
           j ≤ j' ∧ (j' = j → length (group1 m) ≤ length g').
Proof.
  revert i. induction s as [|c s IH]; intros i; simpl.
  - destruct (match_at d []) as [g|] eqn:Hm; [|done].
    intros [= <-]. apply match_at_Some in Hm as [Hocc _].
    by apply occurs_nil in Hocc.
  - destruct (match_at d (c :: s)) as [g|] eqn:Hm.
    + intros [= <-]. simpl. apply match_at_Some in Hm as [Hocc Hleast].
      exists 0. split; [lia|]. split; [done|]. split; [done|].
      intros j' g' Hocc'. split; [lia|]. intros ->. by apply Hleast.
    + intros (j & Hi & Hw & Hocc & Hleast)%IH.
      exists (S j). split; [lia|]. split; [done|].
      split; [by apply occurs_later|].
      intros [|j'] g' Hocc'.
      { by apply (match_at_None _ _ g') in Hm. }
      apply (proj1 (occurs_later _ _ _ _ _)) in Hocc'.
      destruct (Hleast _ _ Hocc') as [? Hlen]. split; [lia|].
      intros [= ->]. by apply Hlen.
Qed.

Lemma search_from_None d s i j g :
  search_from d s i = None → ¬ occurs d s j g.
Proof.
  revert i j. induction s as [|c s IH]; intros i j; simpl.
  - intros _. apply occurs_nil.
  - destruct (match_at d (c :: s)) as [g0|] eqn:Hm; [done|].
    intros Hs. destruct j as [|j].
    + by apply match_at_None.
    + rewrite occurs_later. by eapply IH.
Qed.

Lemma search_Some d s m :
  search d s = Some m →
  whole m = d ++ group1 m ++ d
  ∧ occurs d s (index m) (group1 m)
  ∧ ∀ j' g', occurs d s j' g' →
      index m ≤ j' ∧ (j' = index m → length (group1 m) ≤ length g').
Proof.
  intros (j & Hi & ? & ? & ?)%search_from_Some. simpl in Hi.
  by subst j.
Qed.

End regex.

Section sorting.
Implicit Types (x y : style * regex_match) (l : list (style * regex_match)).

Lemma insert_by_index_elem x l y :
  y ∈ insert_by_index x l ↔ y = x ∨ y ∈ l.
Proof.
  induction l as [|z l IH]; simpl.
  - rewrite list_elem_of_singleton, elem_of_nil. tauto.
  - case_bool_decide.
    + by rewrite elem_of_cons.
    + rewrite !elem_of_cons, IH. tauto.
Qed.

Lemma sort_by_index_elem l y : y ∈ sort_by_index l ↔ y ∈ l.
Proof.
  induction l as [|x l IH]; simpl; [done|].
  by rewrite insert_by_index_elem, elem_of_cons, IH.
Qed.

Definition by_index x y : Prop := index (x.2) ≤ index (y.2).

Lemma insert_by_index_sorted x l :
  StronglySorted by_index l → StronglySorted by_index (insert_by_index x l).
Proof.
  induction 1 as [|z l Hl IH Hz]; simpl.
  - by repeat constructor.
  - case_bool_decide as Hxz.
    + constructor; [by constructor|].
      constructor; [done|].
      eapply Forall_impl; [done|]. unfold by_index in *.
      intros y ?. simpl in *. lia.
    + constructor; [done|].
      apply Forall_forall. intros y [->|Hy]%insert_by_index_elem.
      * unfold by_index. lia.
      * by eapply Forall_forall in Hz.
Qed.

Lemma sort_by_index_sorted l : StronglySorted by_index (sort_by_index l).
Proof.
  induction l as [|x l IH]; simpl; [constructor|].
  by apply insert_by_index_sorted.
Qed.

(** The entry taken by [matches[0]] starts no later than any other. *)
Lemma sort_by_index_first l x r y :
  sort_by_index l = x :: r → y ∈ l → x ∈ l ∧ index (x.2) ≤ index (y.2).
Proof.
  intros Hsort Hy.
  pose proof (sort_by_index_sorted l) as Hsorted.
  rewrite Hsort in Hsorted. inversion Hsorted as [|?? _ Hall]; subst.
  split.
  - apply sort_by_index_elem. rewrite Hsort. by left.
  - apply sort_by_index_elem in Hy. rewrite Hsort in Hy.
    apply elem_of_cons in Hy as [->|Hy]; [done|].
    by eapply Forall_forall in Hall.
Qed.

Lemma sort_by_index_nil l : sort_by_index l = [] → l = [].
Proof.
  destruct l as [|x l]; [done|]. intros Hsort.
  assert (x ∈ sort_by_index (x :: l)) as Hx
    by (apply sort_by_index_elem; by left).
  rewrite Hsort in Hx. by apply elem_of_nil in Hx.
Qed.

Lemma candidates_elem s ty m :
  (ty, m) ∈ candidates s ↔ search (delimiter ty) s = Some m.
Proof.
  unfold candidates. rewrite list_elem_of_omap. split.
  - intros (ty' & _ & (m' & Hm & [= -> ->])%fmap_Some). done.
  - intros Hm. exists ty. rewrite Hm. split; [|done].
    destruct ty; set_solver.
Qed.

End sorting.

Section inline.
Implicit Types (remaining text : jsstring).

Lemma candidates_none remaining ty i g :
  candidates remaining = [] → ¬ occurs (delimiter ty) remaining i g.
Proof.
  intros Hnone.
  destruct (search (delimiter ty) remaining) as [m|] eqn:Hs.
  - apply candidates_elem in Hs. rewrite Hnone in Hs.
    by apply elem_of_nil in Hs.
  - by eapply search_from_None.
Qed.

Lemma first_is_earliest remaining ty m r ty' i' g' :
  sort_by_index (candidates remaining) = (ty, m) :: r →
  occurs (delimiter ty') remaining i' g' → index m ≤ i'.
Proof.
  intros Hsort Hocc.
  destruct (search (delimiter ty') remaining) as [m'|] eqn:Hs.
  - pose proof (search_Some _ _ _ Hs) as (_ & _ & Hleast).
    destruct (Hleast _ _ Hocc) as [Hle _].
    apply candidates_elem in Hs.
    destruct (sort_by_index_first _ _ _ _ Hsort Hs) as [_ ?].
    simpl in *. lia.
  - by eapply search_from_None in Hs.
Qed.

(** The loop, for any fuel that covers the text: its nodes are the parse
    of the text, numbered from [k]. *)
Lemma inline_loop_parses fuel remaining k :
  length remaining ≤ fuel →
  ∃ l, inline_loop fuel remaining k = imap (λ i, inline_node (k + i)) l
       ∧ parses remaining l.
Proof.
  revert remaining k.
  induction fuel as [|fuel IH]; intros remaining k Hlen.
  { destruct remaining; [|simpl in Hlen; lia].
    exists []. split; [done|constructor]. }
  simpl. case_bool_decide as Hpos.
  2:{ destruct remaining; [|simpl in Hpos; lia].
      exists []. split; [done|constructor]. }
  assert (remaining ≠ []) as Hne by (intros ->; simpl in Hpos; lia).
  destruct (sort_by_index (candidates remaining)) as [|[ty m] r] eqn:Hsort.
  - apply sort_by_index_nil in Hsort.
    exists [Plain remaining]. split.
    + simpl. by rewrite Nat.add_0_r.
    + apply parses_literal; [done|].
      intros ty i g. by apply candidates_none.
  - assert ((ty, m) ∈ candidates remaining) as Hin.
    { apply sort_by_index_elem. rewrite Hsort. by left. }
    apply candidates_elem in Hin.
    pose proof (search_Some _ _ _ Hin)
      as (Hw & (Hg & Hall & pre & rest & Hrem & Hpre) & Hleast).
    simpl.
    assert (slice 0 (index m) remaining = pre) as ->.
    { unfold slice. rewrite Nat.sub_0_r, drop_0, Hrem, <- Hpre.
      by rewrite take_app_length. }
    assert (slice_from (index m + length (whole m)) remaining = rest) as ->.
    { unfold slice_from. rewrite Hrem, Hw, <- Hpre, <- drop_drop.
      rewrite drop_app_length.
      assert (delimiter ty ++ group1 m ++ delimiter ty ++ rest
              = (delimiter ty ++ group1 m ++ delimiter ty) ++ rest) as ->
        by by rewrite <- !app_assoc.
      by rewrite drop_app_length. }
    assert (length rest ≤ fuel) as Hfuel.
    { rewrite Hrem in Hlen. rewrite !length_app in Hlen.
      destruct (group1 m); [done|]. simpl in Hlen. lia. }
    assert (parses_step : ∀ l, parses rest l →
              parses remaining
                ((if bool_decide (pre = []) then [] else [Plain pre])
                 ++ Styled ty (group1 m) :: l)).
    { intros l Hl. eapply parses_span; [done|done|done| | |done].
      - intros ty' i' g' Hocc. rewrite Hpre.
        by eapply first_is_earliest.
      - intros g' Hocc. rewrite Hpre in Hocc.
        destruct (Hleast _ _ Hocc) as [_ Hlen']. by apply Hlen'. }
    destruct (decide (index m = 0)) as [Hzero|Hpos'].
    + rewrite Hzero in *. apply nil_length_inv in Hpre as Hnil.
      rewrite bool_decide_eq_false_2 by lia. simpl.
      destruct (IH rest (S (k + 0)) Hfuel) as (l & -> & Hl).
      exists (Styled ty (group1 m) :: l). split.
      * simpl. f_equal. apply imap_ext. intros i x _. simpl.
        f_equal. lia.
      * specialize (parses_step l Hl).
        by rewrite Hnil, bool_decide_eq_true_2 in parses_step.
    + rewrite bool_decide_eq_true_2 by lia. simpl.
      destruct (IH rest (S (k + 1)) Hfuel) as (l & -> & Hl).
      exists (Plain pre :: Styled ty (group1 m) :: l). split.
      * simpl. rewrite Nat.add_0_r. do 2 f_equal.
        apply imap_ext. intros i x _. simpl. f_equal. lia.
      * specialize (parses_step l Hl).
        rewrite bool_decide_eq_false_2 in parses_step; [done|].
        intros ->. simpl in Hpre. lia.
Qed.

End inline.

(** C5: for every text, the nodes of the inline parser are, in order and
    with keys [0, 1, ...], literal text and bold, italic and code spans,
    each holding one raw string, so that no span is nested in another; they
    come from taking, at each step, the match that starts first among the
    three patterns, with its shortest group, and going on after it.  Markup
    inside a span stays raw text: ["**a *b* c**"] is one bold span. *)
Theorem C5_inline_parser (text : jsstring) :
  (∃ l, InlineMarkdown text = imap inline_node l ∧ parses text l)
  ∧ Forall (λ n, ∃ t k s, n = Elem t (Some k) [Text s]
                          ∧ t ∈ [Span; Strong; Em; Code])
      (InlineMarkdown text)
  ∧ InlineMarkdown (str "**a *b* c**")
    = [Elem Strong (Some 0) [Text (str "a *b* c")]].
Proof.
  destruct (inline_loop_parses (length text) text 0 ltac:(done))
    as (l & Hl & Hparse).
  split; [by exists l|]. split; [|by vm_compute].
  unfold InlineMarkdown. rewrite Hl.
  apply Forall_forall. intros n (i & x & -> & _)%elem_of_lookup_imap.
  destruct x as [s|ty s]; simpl.
  - exists Span, i, s. split; [done|set_solver].
  - exists (style_tag ty), i, s. split; [done|]. destruct ty; set_solver.
Qed.

(** ** The block parser *)

(** The list item that a line is, if it is one: a bullet item when the
    trimmed line starts with ["- "] or ["* "], a numbered item when it
    matches the numbered pattern. *)
Definition line_item (line : jsstring) : option (list_kind * jsstring) :=
  let trimmed := trim line in
  if startsWith (str "- ") trimmed || startsWith (str "* ") trimmed
  then Some (bullet, slice_from 2 trimmed)
  else (numbered,.) <$> numbered_match trimmed.

(** The list node of a run of items. *)
Definition list_node (kind : list_kind) (items : list jsstring) : node :=
  Elem (match kind with bullet => Ul | numbered => Ol end) None
    (list_items items).

(** The node that [pushElement] appends for [n] when the counter is [k]. *)
Definition keyed (wrapAi : bool) (k : nat) (n : node) : node :=
  if wrapAi then Elem DivAi (Some k) [n]
  else match n with
       | Elem t _ children => Elem t (Some k) children
       | Text _ => Elem Span (Some k) [n]
       end.

Definition node_key (n : node) : option nat :=
  match n with
  | Elem _ k _ => k
  | Text _ => None
  end.

Definition without_key (n : node) : node :=
  match n with
  | Elem t _ children => Elem t None children
  | Text s => Text s
  end.

(** The "newly added" container around a node: the [div] takes the key and
    the node inside has none. *)
Definition wrap_ai (n : node) : node :=
  Elem DivAi (node_key n) [without_key n].

Section block.
Implicit Types (st : lines_state) (line item : jsstring)
  (kind : list_kind) (items : list jsstring) (w : bool).

Lemma pushElement_eq w n st :
  pushElement w n st
  = {| localElements := localElements st ++ [keyed w (key st) n];
       listItems := listItems st;
       key := S (key st) |}.
Proof. unfold pushElement, keyed. by destruct w, n. Qed.

Lemma flushList_some w st kind items :
  listItems st = Some (kind, items) →
  flushList w st
  = {| localElements :=
         localElements st ++ [keyed w (key st) (list_node kind items)];
       listItems := None;
       key := S (key st) |}.
Proof.
  unfold flushList. intros ->. rewrite pushElement_eq. by destruct kind.
Qed.

Lemma flushList_none w st : listItems st = None → flushList w st = st.
Proof. unfold flushList. by intros ->. Qed.

Lemma add_item_same w st kind items item :
  listItems st = Some (kind, items) →
  add_item w kind item st
  = {| localElements := localElements st;
       listItems := Some (kind, items ++ [item]);
       key := key st |}.
Proof.
  unfold add_item. intros Hl.
  rewrite bool_decide_eq_true_2 by by rewrite Hl.
  by rewrite Hl.
Qed.

Lemma add_item_switch w st kind kind' items item :
  listItems st = Some (kind, items) → kind ≠ kind' →
  add_item w kind' item st
  = {| localElements :=
         localElements st ++ [keyed w (key st) (list_node kind items)];
       listItems := Some (kind', [item]);
       key := S (key st) |}.
Proof.
  unfold add_item. intros Hl Hne.
  rewrite bool_decide_eq_false_2 by (rewrite Hl; simpl; congruence).
  by rewrite (flushList_some _ _ _ _ Hl).
Qed.

Lemma add_item_first w st kind item :
  listItems st = None →
  add_item w kind item st
  = {| localElements := localElements st;
       listItems := Some (kind, [item]);
       key := key st |}.
Proof.
  unfold add_item. intros Hl.
  rewrite bool_decide_eq_false_2 by by rewrite Hl.
  by rewrite flushList_none.
Qed.

Lemma render_line_item w st line kind item :
  line_item line = Some (kind, item) →
  render_line w st line = add_item w kind item st.
Proof.
  unfold line_item, render_line.
  destruct (startsWith (str "- ") (trim line)
            || startsWith (str "* ") (trim line)).
  - by intros [= <- <-].
  - destruct (numbered_match (trim line)); [|done]. by intros [= <- <-].
Qed.

(** A line that is no list item closes the list and adds at most one
    block of its own. *)
Lemma render_line_other w st line :
  line_item line = None →
  ∃ more, length more ≤ 1
    ∧ render_line w st line
      = {| localElements := localElements (flushList w st) ++ more;
           listItems := listItems (flushList w st);
           key := key (flushList w st) + length more |}.
Proof.
  unfold line_item, render_line.
  destruct (startsWith (str "- ") (trim line)
            || startsWith (str "* ") (trim line)); [done|].
  destruct (numbered_match (trim line)); [done|]. intros _.
  set (st1 := flushList w st).
  assert (∀ n, ∃ more, length more ≤ 1
            ∧ pushElement w n st1
              = {| localElements := localElements st1 ++ more;
                   listItems := listItems st1;
                   key := key st1 + length more |}) as Hpush.
  { intros n. exists [keyed w (key st1) n]. split; [done|].
    rewrite pushElement_eq. simpl. f_equal. lia. }
  repeat (match goal with |- context [if ?b then _ else _] =>
                            destruct b end); try apply Hpush.
  exists []. split; [simpl; lia|]. simpl.
  rewrite app_nil_r, Nat.add_0_r. by destruct st1.
Qed.

(** A run of items of one kind, read from an empty state. *)
Lemma render_items w kind lines items st acc :
  listItems st = Some (kind, acc) →
  Forall2 (λ line item, line_item line = Some (kind, item)) lines items →
  foldl (render_line w) st lines
  = {| localElements := localElements st;
       listItems := Some (kind, acc ++ items);
       key := key st |}.
Proof.
  intros Hst Hlines. revert st acc Hst.
  induction Hlines as [|line item lines items Hline _ IH];
    intros st acc Hst; simpl.
  - rewrite app_nil_r. destruct st; simpl in *. by subst.
  - rewrite (render_line_item _ _ _ _ _ Hline).
    rewrite (add_item_same _ _ _ _ _ Hst).
    rewrite (IH _ (acc ++ [item])); [|done]. simpl.
    by rewrite <- app_assoc.
Qed.

Lemma renderLines_items w kind lines items key0 :
  lines ≠ [] →
  Forall2 (λ line item, line_item line = Some (kind, item)) lines items →
  renderLines lines w key0
  = ([keyed w key0 (list_node kind items)], S key0).
Proof.
  intros Hne Hlines. unfold renderLines.
  destruct Hlines as [|line item lines items Hline Hlines]; [done|].
  simpl. rewrite (render_line_item _ _ _ _ _ Hline).
  rewrite add_item_first by done.
  rewrite (render_items w kind lines items _ [item]); [|done|done].
  by rewrite (flushList_some _ _ kind (item :: items)).
Qed.

End block.

(** C6: in the block parser a list item of the kind of the open list joins
    it and emits nothing; an item of the other kind closes the open list as
    one list node and opens a new list; a line that is no list item closes
    the open list as one list node; a run of items of one kind alone is one
    list node; and the lines ["- a"], ["- b"], ["1. c"] give one bullet list
    of [a], [b] followed by one numbered list of [c]. *)
Theorem C6_list_coalescing :
  (∀ w st kind items line item,
     listItems st = Some (kind, items) →
     line_item line = Some (kind, item) →
     render_line w st line
     = {| localElements := localElements st;
          listItems := Some (kind, items ++ [item]);
          key := key st |})
  ∧ (∀ w st kind kind' items line item,
       listItems st = Some (kind, items) →
       line_item line = Some (kind', item) → kind ≠ kind' →
       render_line w st line
       = {| localElements :=
              localElements st ++ [keyed w (key st) (list_node kind items)];
            listItems := Some (kind', [item]);
            key := S (key st) |})
  ∧ (∀ w st kind items line,
       listItems st = Some (kind, items) →
       line_item line = None →
       ∃ more, length more ≤ 1
         ∧ render_line w st line
           = {| localElements :=
                  localElements st
                  ++ keyed w (key st) (list_node kind items) :: more;
                listItems := None;
                key := S (key st) + length more |})
  ∧ (∀ w kind lines items key0,
       lines ≠ [] →
       Forall2 (λ line item, line_item line = Some (kind, item)) lines items →
       renderLines lines w key0
       = ([keyed w key0 (list_node kind items)], S key0))
  ∧ (renderLines [str "- a"; str "- b"; str "1. c"] false 0).1
    = [Elem Ul (Some 0)
         [Elem Li (Some 0) [Elem Span (Some 0) [Text (str "a")]];
          Elem Li (Some 1) [Elem Span (Some 0) [Text (str "b")]]];
       Elem Ol (Some 1)
         [Elem Li (Some 0) [Elem Span (Some 0) [Text (str "c")]]]].
Proof.
  split.
  { intros w st kind items line item Hst Hline.
    rewrite (render_line_item _ _ _ _ _ Hline). by apply add_item_same. }
  split.
  { intros w st kind kind' items line item Hst Hline Hne.
    rewrite (render_line_item _ _ _ _ _ Hline). by apply add_item_switch. }
  split.
  { intros w st kind items line Hst Hline.
    destruct (render_line_other w st line Hline) as (more & Hlen & ->).
    exists more. split; [done|].
    rewrite (flushList_some _ _ _ _ Hst). simpl.
    by rewrite <- app_assoc. }
  split; [apply renderLines_items|by vm_compute].
Qed.

Lemma C6_list_coalescing_witness :
  renderLines [str "- a"; str "- b"] true 7
  = ([keyed true 7 (list_node bullet [str "a"; str "b"])], 8).
Proof.
  apply (proj1 (proj2 (proj2 (proj2 C6_list_coalescing)))); [done|].
  repeat constructor.
Defined.

(** ** The preview *)

(** A line that is one of the two delimiters. *)
Definition is_delimiter (line : jsstring) : Prop :=
  trim line = marker_open ∨ trim line = marker_close.

(** What holds of the state of the loop of [MarkdownPreview] after any
    lines: the keys of the nodes are [0, 1, ...]; only the buffer of the
    current mode holds lines; no buffered line is a delimiter. *)
Record preview_inv (st : preview_state) : Prop := {
  inv_keys : node_key <$> elements st = Some <$> seq 0 (next_key st);
  inv_normal : inAiBlock st = true → normalBuffer st = [];
  inv_ai : inAiBlock st = false → aiBuffer st = [];
  inv_lines : Forall (λ l, ¬ is_delimiter l) (normalBuffer st ++ aiBuffer st);
}.

Section preview.
Implicit Types (st : preview_state) (ls : lines_state) (w : bool).

(** *** Keys *)

Definition keys_from (k0 : nat) (ls : lines_state) : Prop :=
  node_key <$> localElements ls = Some <$> seq k0 (length (localElements ls))
  ∧ key ls = k0 + length (localElements ls).

Lemma keyed_key w k n : node_key (keyed w k n) = Some k.
Proof. unfold keyed. by destruct w, n. Qed.

Lemma pushElement_keys k0 w n ls :
  keys_from k0 ls → keys_from k0 (pushElement w n ls).
Proof.
  intros [Hkeys Hkey]. rewrite pushElement_eq. split; simpl.
  - rewrite fmap_app, length_app, seq_app, fmap_app, Hkeys. simpl.
    by rewrite keyed_key, Hkey.
  - rewrite length_app. simpl. lia.
Qed.

Lemma flushList_keys k0 w ls : keys_from k0 ls → keys_from k0 (flushList w ls).
Proof.
  intros Hls. unfold flushList.
  destruct (listItems ls) as [[kind items]|]; [|done].
  set (n := Elem _ None _).
  by destruct (pushElement_keys _ w n _ Hls).
Qed.

Lemma add_item_keys k0 w kind item ls :
  keys_from k0 ls → keys_from k0 (add_item w kind item ls).
Proof.
  intros Hls. unfold add_item. case_bool_decide; [done|].
  by apply (flushList_keys _ w) in Hls.
Qed.

Lemma render_line_keys k0 w ls line :
  keys_from k0 ls → keys_from k0 (render_line w ls line).
Proof.
  intros Hls. unfold render_line.
  pose proof (flushList_keys _ w _ Hls) as Hflush.
  repeat (match goal with
          | |- context [if ?b then _ else _] => destruct b
          | |- context [match ?o with Some _ => _ | None => _ end] =>
              destruct o
          end);
    auto using add_item_keys, pushElement_keys.
Qed.

Lemma renderLines_keys lines w k :
  let r := renderLines lines w k in
  node_key <$> r.1 = Some <$> seq k (length r.1) ∧ r.2 = k + length r.1.
Proof.
  unfold renderLines. simpl. apply flushList_keys.
  set (init := {| localElements := []; listItems := None; key := k |}).
  assert (keys_from k init) as Hinit by (split; simpl; [done|lia]).
  revert Hinit. generalize init. clear init.
  induction lines as [|line lines IH]; intros ls Hls; simpl; [done|].
  by apply IH, render_line_keys.
Qed.

(** *** Wrapping *)

Definition wrapped_of (plain ai : lines_state) : Prop :=
  localElements ai = wrap_ai <$> localElements plain
  ∧ listItems ai = listItems plain
  ∧ key ai = key plain.

Lemma pushElement_wrapped plain ai t children :
  wrapped_of plain ai →
  wrapped_of (pushElement false (Elem t None children) plain)
    (pushElement true (Elem t None children) ai).
Proof.
  intros (Hel & Hli & Hk). rewrite !pushElement_eq.
  split; [|split; simpl; [done|by rewrite Hk]].
  simpl. by rewrite fmap_app, Hel, Hk.
Qed.

Lemma flushList_wrapped plain ai :
  wrapped_of plain ai → wrapped_of (flushList false plain) (flushList true ai).
Proof.
  intros H. pose proof H as (Hel & Hli & Hk).
  unfold flushList. rewrite Hli.
  destruct (listItems plain) as [[kind items]|]; [|done].
  by apply (pushElement_wrapped _ _
              (match kind with bullet => Ul | numbered => Ol end)
              (list_items items)) in H as (? & ? & ?).
Qed.

Lemma add_item_wrapped plain ai kind item :
  wrapped_of plain ai →
  wrapped_of (add_item false kind item plain) (add_item true kind item ai).
Proof.
  intros H. pose proof H as (Hel & Hli & Hk).
  unfold add_item. rewrite Hli. case_bool_decide.
  - split; [done|]. simpl. by rewrite Hli, Hk.
  - apply flushList_wrapped in H as (? & ? & ?). by split.
Qed.

Lemma render_line_wrapped plain ai line :
  wrapped_of plain ai →
  wrapped_of (render_line false plain line) (render_line true ai line).
Proof.
  intros H. unfold render_line.
  pose proof (flushList_wrapped _ _ H) as Hflush.
  repeat (match goal with
          | |- context [if ?b then _ else _] => destruct b
          | |- context [match ?o with Some _ => _ | None => _ end] =>
              destruct o
          end);
    auto using add_item_wrapped, pushElement_wrapped.
Qed.

(** The annotated lines are parsed as plain lines are, and then each node
    is put in a container of its own. *)
Lemma renderLines_wrapped lines k :
  renderLines lines true k
  = (wrap_ai <$> (renderLines lines false k).1,
     (renderLines lines false k).2).
Proof.
  unfold renderLines. simpl.
  set (init := {| localElements := []; listItems := None; key := k |}).
  assert (wrapped_of (foldl (render_line false) init lines)
            (foldl (render_line true) init lines)) as H.
  { assert (wrapped_of init init) as Hinit by done.
    revert Hinit. generalize init at 1 3. generalize init.
    induction lines as [|line lines IH]; intros ai plain H; simpl;
      [done|].
    by apply IH, render_line_wrapped. }
  apply flushList_wrapped in H as (-> & _ & ->). done.
Qed.

(** *** The loop over the lines *)

Lemma renderLines_nil w k : renderLines [] w k = ([], k).
Proof. done. Qed.

Lemma flushNormal_eq st :
  let r := renderLines (normalBuffer st) false (next_key st) in
  flushNormal st
  = {| elements := elements st ++ r.1;
       inAiBlock := inAiBlock st;
       normalBuffer := [];
       aiBuffer := aiBuffer st;
       next_key := r.2 |}.
Proof.
  unfold flushNormal. case_bool_decide as Hlen; [|done].
  apply nil_length_inv in Hlen. rewrite Hlen. simpl.
  rewrite app_nil_r. destruct st; simpl in *. by subst.
Qed.

Lemma flushAi_eq st :
  let r := renderLines (aiBuffer st) true (next_key st) in
  flushAi st
  = {| elements := elements st ++ r.1;
       inAiBlock := inAiBlock st;
       normalBuffer := normalBuffer st;
       aiBuffer := [];
       next_key := r.2 |}.
Proof.
  unfold flushAi. case_bool_decide as Hlen; [|done].
  apply nil_length_inv in Hlen. rewrite Hlen. simpl.
  rewrite app_nil_r. destruct st; simpl in *. by subst.
Qed.

Lemma keys_extend els k lines w :
  node_key <$> els = Some <$> seq 0 k →
  let r := renderLines lines w k in
  node_key <$> (els ++ r.1) = Some <$> seq 0 r.2.
Proof.
  intros Hels. cbv zeta.
  pose proof (renderLines_keys lines w k) as [Hkeys Hk]. cbv zeta in *.
  by rewrite Hk, fmap_app, Hels, Hkeys, seq_app, fmap_app.
Qed.

Lemma preview_init_inv : preview_inv preview_init.
Proof. by split. Qed.

Lemma preview_line_inv st line :
  preview_inv st → preview_inv (preview_line st line).
Proof.
  intros [Hkeys Hnormal Hai Hlines]. unfold preview_line.
  case_bool_decide as Hopen; [|case_bool_decide as Hclose].
  - rewrite flushAi_eq, flushNormal_eq. split; simpl; try done.
    by apply keys_extend, keys_extend.
  - rewrite flushAi_eq. split; simpl; try done.
    + by apply keys_extend.
    + rewrite app_nil_r. by apply Forall_app in Hlines as [? _].
  - assert (¬ is_delimiter line) by (unfold is_delimiter; tauto).
    destruct (inAiBlock st) eqn:Hin; split; simpl.
    + done.
    + done.
    + done.
    + rewrite app_assoc. apply Forall_app. split; [done|by constructor].
    + done.
    + done.
    + intros _. by apply Hai.
    + rewrite Hai in * by done. rewrite !app_nil_r in *.
      apply Forall_app. split; [done|by constructor].
Qed.

Lemma preview_run_inv lines : preview_inv (preview_run lines).
Proof.
  unfold preview_run.
  assert (∀ st, preview_inv st → preview_inv (foldl preview_line st lines))
    as H; [|apply H, preview_init_inv].
  induction lines as [|line lines IH]; intros st Hst; simpl; [done|].
  by apply IH, preview_line_inv.
Qed.




End preview.


Definition sample_note : jsstring :=
  str "# T" ++ [nl] ++ str ":::ai" ++ [nl] ++ str "- a" ++ [nl] ++ str ":::"
    ++ [nl] ++ str "p".


(** ** The note state *)

(** The calls that the components make on the hook, and time passing. *)
Inductive note_op :=
  | Update (text : jsstring)
  | Append (text : jsstring)
  | Replace (text : jsstring)
  | ForceSave
  | Wait (ms : nat).

Definition run_note_op (db_update : jsstring → jsstring → option Note.SessionNote)
    (st : Note.state) (op : note_op) : Note.state :=
  match op with
  | Update text => Note.updateContent text st
  | Append text => Note.appendToNote db_update text st
  | Replace text => Note.setNoteContent db_update text st
  | ForceSave => Note.forceSave db_update st
  | Wait ms => Note.advance db_update ms st
  end.

(** The content that the calls leave in memory. *)
Definition content_after (c : jsstring) (op : note_op) : jsstring :=
  match op with
  | Update text | Replace text => text
  | Append text => if truthy c then c ++ [nl; nl] ++ text else text
  | ForceSave | Wait _ => c
  end.

Section note.
Import Note.
Context (db_update : jsstring → jsstring → option SessionNote).
Implicit Types (st : state) (text : jsstring) (nid : option jsstring).

#[local] Abbreviation saveNote := (Note.saveNote db_update).
#[local] Abbreviation advance := (Note.advance db_update).
#[local] Abbreviation run_due := (Note.run_due db_update).
#[local] Abbreviation run_timer := (Note.run_timer db_update).

(** *** What [saveNote] touches *)

Lemma saveNote_frame nid text st :
  let st' := saveNote nid text st in
  content st' = content st ∧ saveTimeoutRef st' = saveTimeoutRef st
  ∧ now st' = now st ∧ timers st' = timers st
  ∧ next_timer st' = next_timer st
  ∧ saveNote_calls st' = saveNote_calls st ++ [text].
Proof.
  unfold saveNote. destruct nid as [i|]; [|done].
  destruct (negb (truthy i) || bool_decide (text = lastSavedContent st));
    [done|].
  by destruct (db_update i text).
Qed.

(** Without a note id nothing is written. *)
Lemma saveNote_no_id text st :
  let st' := saveNote None text st in
  note st' = note st ∧ lastSavedContent st' = lastSavedContent st
  ∧ db_updates st' = db_updates st.
Proof. done. Qed.

(** What is persisted depends on the text, on the id, and on what was
    last saved. *)
Lemma saveNote_persist nid text st1 st2 :
  lastSavedContent st1 = lastSavedContent st2 →
  db_updates st1 = db_updates st2 →
  note st1 = note st2 →
  let st1' := saveNote nid text st1 in
  let st2' := saveNote nid text st2 in
  lastSavedContent st1' = lastSavedContent st2'
  ∧ db_updates st1' = db_updates st2'
  ∧ note st1' = note st2'.
Proof.
  intros Hl Hd Hn. unfold saveNote. destruct nid as [i|]; [|done].
  rewrite Hl.
  destruct (negb (truthy i) || bool_decide (text = lastSavedContent st2));
    [done|].
  destruct (db_update i text); simpl; by rewrite ?Hd.
Qed.

(** *** Time passing *)

Lemma set_now_now st : set_now (now st) st = st.
Proof. by destruct st. Qed.

Lemma set_now_set_now t1 t2 st : set_now t2 (set_now t1 st) = set_now t2 st.
Proof. done. Qed.

Lemma run_timers_idle st (l : list nat) :
  (∀ i, i ∈ l → run_timer i st = st) →
  foldl (flip run_timer) st l = st.
Proof.
  induction l as [|i l IH]; intros H; simpl; [done|].
  change (foldl (flip run_timer) (run_timer i st) l = st).
  rewrite H by (by left). apply IH.
  intros j Hj. apply H. by right.
Qed.

Lemma run_due_idle st :
  (∀ i t, timers st !! i = Some t → now st < deadline t) →
  run_due st = st.
Proof.
  intros Hidle. apply run_timers_idle. intros i _. unfold Note.run_timer.
  destruct (timers st !! i) as [t|] eqn:Ht; [|done].
  rewrite bool_decide_eq_false_2; [done|].
  apply Hidle in Ht. lia.
Qed.

Lemma advance_idle d st :
  (∀ i t, timers st !! i = Some t → now st + d < deadline t) →
  advance d st = set_now (now st + d) st.
Proof.
  revert st. induction d as [|d IH]; intros st Hidle; simpl.
  - by rewrite Nat.add_0_r, set_now_now.
  - rewrite run_due_idle.
    + rewrite IH; simpl.
      * rewrite set_now_set_now. f_equal. lia.
      * intros i t Ht. apply Hidle in Ht. lia.
    + simpl. intros i t Ht. apply Hidle in Ht. lia.
Qed.

Lemma advance_add a b st : advance (a + b) st = advance b (advance a st).
Proof. revert st. induction a as [|a IH]; intros st; simpl; [done|apply IH]. Qed.

(** One pending timer that is due runs, and nothing else does. *)
Lemma run_due_single st i t :
  timers st = {[i := t]} → i < next_timer st → deadline t ≤ now st →
  run_due st = saveNote (captured_id t) (payload t) (clearTimeout i st).
Proof.
  intros Htimers Hi Hdue. unfold run_due.
  assert (seq 0 (next_timer st)
          = seq 0 i ++ [i] ++ seq (S i) (next_timer st - S i)) as ->.
  { replace (next_timer st) with (i + S (next_timer st - S i)) at 1 by lia.
    by rewrite seq_app. }
  rewrite !foldl_app.
  assert (foldl (flip run_timer) st (seq 0 i) = st) as ->.
  { apply run_timers_idle. intros j Hj%elem_of_seq. unfold Note.run_timer.
    rewrite Htimers, lookup_singleton_ne; [done|lia]. }
  assert (foldl (flip run_timer) st [i]
          = saveNote (captured_id t) (payload t) (clearTimeout i st)) as ->.
  { simpl. unfold flip, Note.run_timer.
    rewrite Htimers, lookup_singleton_eq.
    by rewrite bool_decide_eq_true_2. }
  apply run_timers_idle. intros j _. unfold Note.run_timer.
  destruct (saveNote_frame (captured_id t) (payload t) (clearTimeout i st))
    as (_ & _ & _ & -> & _).
  simpl. by rewrite Htimers, delete_singleton_eq, lookup_empty.
Qed.

(** *** The debounce *)

(** After a call [updateContent(text)] that follows a state [st0] with no
    pending timer: exactly one timer is pending, due in 800 ms, with the
    text of the call; nothing has been persisted since [st0]. *)
Definition pending (st0 : state) (text : jsstring) (st : state) : Prop :=
  (∃ i, timers st
        = {[i := {| deadline := now st + 800; captured_id := note_id st0;
                    payload := text |}]}
        ∧ i < next_timer st ∧ saveTimeoutRef st = Some i)
  ∧ content st = text
  ∧ note st = note st0
  ∧ lastSavedContent st = lastSavedContent st0
  ∧ db_updates st = db_updates st0
  ∧ saveNote_calls st = saveNote_calls st0.

Lemma updateContent_first st gap text :
  timers st = ∅ → pending st text (updateContent text (advance gap st)).
Proof.
  intros Hempty.
  rewrite advance_idle by (intros i t; by rewrite Hempty, lookup_empty).
  unfold updateContent, pending, clear_pending, note_id. simpl.
  assert (∀ o, timers (match o with
                       | Some i => clearTimeout i
                                     (setContent text (set_now (now st + gap) st))
                       | None => setContent text (set_now (now st + gap) st)
                       end) = ∅) as Hcleared.
  { intros [i|]; simpl; rewrite Hempty; [apply delete_empty|done]. }
  destruct (saveTimeoutRef st) as [i|]; simpl; rewrite Hempty.
  - rewrite delete_empty, insert_empty. split; [|done].
    exists (next_timer st). split; [done|]. split; [lia|done].
  - rewrite insert_empty. split; [|done].
    exists (next_timer st). split; [done|]. split; [lia|done].
Qed.

Lemma updateContent_next st0 st gap text text' :
  pending st0 text st → gap < 800 →
  pending st0 text' (updateContent text' (advance gap st)).
Proof.
  intros ((i & Htimers & Hi & Href) & Hc & Hn & Hl & Hd & Hs) Hgap.
  rewrite advance_idle.
  2:{ intros j t. rewrite Htimers. intros [-> <-]%lookup_singleton_Some.
      simpl. lia. }
  unfold updateContent, pending, clear_pending, note_id. simpl.
  rewrite Href. simpl. rewrite Htimers, delete_singleton_eq, insert_empty.
  rewrite Hn. split; [|done].
  exists (next_timer st). split; [done|]. split; [lia|done].
Qed.

Lemma last_cons_default {A} (x : A) (l : list A) (d d' : A) :
  List.last (x :: l) d = List.last (x :: l) d'.
Proof.
  revert x. induction l as [|y l IH]; intros x; [done|].
  change (List.last (y :: l) d = List.last (y :: l) d'). apply IH.
Qed.

Lemma typing_pending st0 st c calls :
  pending st0 (c.2) st →
  Forall (λ c, c.1 < 800) calls →
  pending st0 (List.last calls c).2 (typing db_update calls st).
Proof.
  intros Hst Hcalls. revert st c Hst.
  induction Hcalls as [|c' calls Hc _ IH]; intros st c Hst; [done|].
  simpl typing.
  pose proof (updateContent_next _ _ _ _ (c'.2) Hst Hc) as Hnext.
  apply IH in Hnext. destruct calls as [|c'' calls]; [done|].
  by rewrite (last_cons_default _ _ _ c').
Qed.

(** When the last timer of a burst is due, [saveNote] runs once. *)
Lemma advance_fires st0 st text idle :
  pending st0 text st → 800 ≤ idle →
  ∃ st1, advance idle st
         = set_now (now st + idle)
             (saveNote (note_id st0) text st1)
         ∧ timers st1 = ∅ ∧ content st1 = text
         ∧ note st1 = note st0
         ∧ lastSavedContent st1 = lastSavedContent st0
         ∧ db_updates st1 = db_updates st0
         ∧ saveNote_calls st1 = saveNote_calls st0.
Proof.
  intros ((i & Htimers & Hi & Href) & Hc & Hn & Hl & Hd & Hs) Hidle.
  set (st1 := clearTimeout i (set_now (now st + 800) st)).
  assert (advance idle st
          = set_now (now st + idle) (saveNote (note_id st0) text st1))
    as Hfire.
  { assert (idle = 799 + (1 + (idle - 800))) as -> by lia.
    rewrite !advance_add.
    rewrite (advance_idle 799).
    2:{ intros j t. rewrite Htimers. intros [-> <-]%lookup_singleton_Some.
        simpl. lia. }
    change (advance 1 ?s) with (run_due (set_now (S (now s)) s)).
    rewrite set_now_set_now.
    erewrite run_due_single; [|exact Htimers|done|simpl; lia].
    replace (S (now (set_now (now st + 799) st))) with (now st + 800)
      by (simpl; lia).
    fold st1. cbn [deadline captured_id payload].
    destruct (saveNote_frame (note_id st0) text st1)
      as (_ & _ & Hnow & Htm & _).
    rewrite advance_idle.
    2:{ intros j t. rewrite Htm. subst st1. simpl.
        by rewrite Htimers, delete_singleton_eq, lookup_empty. }
    rewrite Hnow. subst st1. simpl. f_equal. lia. }
  exists st1. split; [done|].
  subst st1. simpl. by rewrite Htimers, delete_singleton_eq.
Qed.

End note.

Section note_unloaded.
Import Note.
Context (db_update : jsstring → jsstring → option SessionNote).
Implicit Types (st : state) (text : jsstring).

(** No note has been loaded, the pending timers were set while none was
    loaded, and nothing has been written since [st0]. *)
Definition unloaded (st0 st : state) : Prop :=
  note st = None
  ∧ (∀ i t, timers st !! i = Some t → captured_id t = None)
  ∧ db_updates st = db_updates st0
  ∧ lastSavedContent st = lastSavedContent st0.

Lemma clear_pending_frame st :
  let st' := clear_pending st in
  note st' = note st ∧ content st' = content st
  ∧ lastSavedContent st' = lastSavedContent st
  ∧ db_updates st' = db_updates st ∧ now st' = now st
  ∧ next_timer st' = next_timer st
  ∧ ∀ i t, timers st' !! i = Some t → timers st !! i = Some t.
Proof.
  unfold clear_pending. destruct (saveTimeoutRef st) as [j|]; simpl; [|done].
  repeat split; try done. by intros i t [_ ?]%lookup_delete_Some.
Qed.

Lemma saveNote_unloaded st0 st text :
  unloaded st0 st → unloaded st0 (saveNote db_update None text st).
Proof. done. Qed.

Lemma updateContent_unloaded st0 st text :
  unloaded st0 st → unloaded st0 (updateContent text st).
Proof.
  intros (Hn & Ht & Hd & Hl). unfold updateContent, note_id.
  destruct (clear_pending_frame (setContent text st))
    as (Hn' & _ & Hl' & Hd' & _ & _ & Ht').
  unfold unloaded. simpl. rewrite Hn', Hl', Hd'. simpl.
  split; [done|]. split; [|done].
  intros i t [[_ <-]|[_ Hi]]%lookup_insert_Some.
  - simpl. by rewrite Hn.
  - apply Ht' in Hi. by eapply Ht.
Qed.

Lemma run_timer_unloaded st0 st i :
  unloaded st0 st →
  unloaded st0 (run_timer db_update i st)
  ∧ content (run_timer db_update i st) = content st.
Proof.
  intros Hst. pose proof Hst as (Hn & Ht & Hd & Hl). unfold run_timer.
  destruct (timers st !! i) as [t|] eqn:Hi; [|done].
  destruct (bool_decide _); [|done].
  rewrite (Ht _ _ Hi). split; [|done].
  apply saveNote_unloaded. split; [done|]. split; [|done]. simpl.
  intros j t' [_ ?]%lookup_delete_Some. by eapply Ht.
Qed.

Lemma run_due_unloaded st0 st :
  unloaded st0 st →
  unloaded st0 (run_due db_update st)
  ∧ content (run_due db_update st) = content st.
Proof.
  unfold run_due. generalize (seq 0 (next_timer st)). intros l. revert st.
  induction l as [|i l IH]; intros st Hst; simpl; [done|].
  destruct (run_timer_unloaded st0 st i Hst) as [Hst' Hc].
  destruct (IH _ Hst') as [? Hc']. split; [done|].
  etrans; [apply Hc'|apply Hc].
Qed.

Lemma advance_unloaded st0 st ms :
  unloaded st0 st →
  unloaded st0 (advance db_update ms st)
  ∧ content (advance db_update ms st) = content st.
Proof.
  revert st. induction ms as [|ms IH]; intros st Hst; simpl; [done|].
  assert (unloaded st0 (set_now (S (now st)) st)) as Hst' by done.
  destruct (run_due_unloaded _ _ Hst') as [Hst'' Hc].
  destruct (IH _ Hst'') as [? Hc']. split; [done|].
  etrans; [apply Hc'|apply Hc].
Qed.

Lemma run_note_op_unloaded st0 st op :
  unloaded st0 st →
  unloaded st0 (run_note_op db_update st op)
  ∧ content (run_note_op db_update st op) = content_after (content st) op.
Proof.
  intros Hst. pose proof Hst as (Hn & Ht & Hd & Hl).
  assert (note_id st = None) as Hid by (unfold note_id; by rewrite Hn).
  destruct op as [text|text|text| |ms]; simpl.
  - split; [by apply updateContent_unloaded|].
    unfold updateContent.
    by destruct (clear_pending_frame (setContent text st)) as (_ & -> & _).
  - unfold appendToNote. by rewrite Hid.
  - unfold setNoteContent. by rewrite Hid.
  - unfold forceSave. rewrite Hid.
    destruct (clear_pending_frame st) as (Hn' & Hc' & Hl' & Hd' & _ & _ & Ht').
    assert (unloaded st0 (clear_pending st)) as Hcleared.
    { unfold unloaded. rewrite Hn', Hl', Hd'. repeat split; try done.
      intros i t Hi%Ht'. by eapply Ht. }
    by destruct (bool_decide _).
  - by apply advance_unloaded.
Qed.

Lemma run_note_ops_unloaded st0 st ops :
  unloaded st0 st →
  unloaded st0 (foldl (run_note_op db_update) st ops)
  ∧ content (foldl (run_note_op db_update) st ops)
    = foldl content_after (content st) ops.
Proof.
  revert st. induction ops as [|op ops IH]; intros st Hst; simpl; [done|].
  destruct (run_note_op_unloaded st0 st op Hst) as [Hnext Hc].
  destruct (IH _ Hnext) as [? Hc']. split; [done|]. by rewrite Hc', Hc.
Qed.

End note_unloaded.

(** A note that is loaded, and a database that accepts every update. *)
Definition loaded_note : Note.state :=
  {| Note.note := Some {| Note.id := str "n1"; Note.note_content := [] |};
     Note.content := []; Note.isSaving := false;
     Note.lastSavedContent := []; Note.saveTimeoutRef := None;
     Note.now := 0; Note.timers := ∅; Note.next_timer := 1;
     Note.db_updates := []; Note.saveNote_calls := [] |}.

Definition accepting_db : jsstring → jsstring → option Note.SessionNote :=
  λ i c, Some {| Note.id := i; Note.note_content := c |}.

(** C7: [updateContent] sets the content at once; each call leaves exactly
    one pending timer, due 800 ms later, that holds the text of the call.
    For every burst of calls that starts with no timer pending and whose
    gaps are all under 800 ms: during the burst [saveNote] is not called
    and no update is sent to the database; once 800 ms or more have passed
    after the last call, [saveNote] has been called exactly once, with the
    last text.  When a note is loaded and the last text differs from what
    was last saved, that call sends exactly one update to the database,
    for the row of the note and with the last text, and when the database
    accepts it the last text is what counts as saved; when the last text
    is what was last saved, no update is sent. *)
Theorem C7_debounce
    (db_update : jsstring → jsstring → option Note.SessionNote)
    (st : Note.state) (first : nat * jsstring)
    (rest : list (nat * jsstring)) (idle : nat) :
  Note.timers st = ∅ →
  Forall (λ c, c.1 < 800) rest →
  800 ≤ idle →
  let text := (List.last rest first).2 in
  let typed := Note.typing db_update (first :: rest) st in
  let final := Note.advance db_update idle typed in
  (∀ t s, Note.content (Note.updateContent t s) = t)
  ∧ Note.content typed = text
  ∧ (∃ i, Note.timers typed
          = {[i := {| Note.deadline := Note.now typed + 800;
                      Note.captured_id := Note.note_id st;
                      Note.payload := text |}]})
  ∧ Note.saveNote_calls typed = Note.saveNote_calls st
  ∧ Note.db_updates typed = Note.db_updates st
  ∧ Note.saveNote_calls final = Note.saveNote_calls st ++ [text]
  ∧ Note.db_updates final
    = Note.db_updates (Note.saveNote db_update (Note.note_id st) text st)
  ∧ (∀ i, Note.note_id st = Some i → truthy i = true →
       text ≠ Note.lastSavedContent st →
       Note.db_updates final = Note.db_updates st ++ [(i, text)]
       ∧ (∀ data, db_update i text = Some data →
            Note.note final = Some data
            ∧ Note.lastSavedContent final = text))
  ∧ (text = Note.lastSavedContent st →
     Note.db_updates final = Note.db_updates st)
  ∧ Note.content final = text
  ∧ Note.timers final = ∅.
Proof.
  intros Hempty Hgaps Hidle. cbv zeta.
  pose proof (updateContent_first db_update st (first.1) (first.2) Hempty)
    as Hfirst.
  pose proof (typing_pending db_update _ _ first rest Hfirst Hgaps) as Htyped.
  change (Note.typing db_update rest
            (Note.updateContent first.2 (Note.advance db_update first.1 st)))
    with (Note.typing db_update (first :: rest) st) in Htyped.
  set (typed := Note.typing db_update (first :: rest) st) in *.
  set (text := (List.last rest first).2) in *.
  destruct (advance_fires db_update _ _ _ idle Htyped Hidle)
    as (st1 & -> & Htm & Hc1 & Hn1 & Hl1 & Hd1 & Hs1).
  destruct Htyped as ((i & Htimers & _ & _) & Hc & _ & _ & Hd & Hs).
  destruct (saveNote_frame db_update (Note.note_id st) text st1)
    as (Hc' & _ & _ & Htm' & _ & Hs').
  destruct (saveNote_persist db_update (Note.note_id st) text st1 st
              Hl1 Hd1 Hn1) as (Hl' & Hd' & Hn').
  split.
  { intros t s. unfold Note.updateContent, Note.setTimeout.
    cbn [Note.content].
    by destruct (clear_pending_frame (Note.setContent t s)) as (_ & -> & _). }
  split; [done|]. split; [by exists i|]. split; [done|]. split; [done|].
  cbn [Note.set_now Note.saveNote_calls Note.db_updates Note.content
       Note.timers Note.note Note.lastSavedContent].
  rewrite Hs', Hs1, Hd', Hn', Hl', Hc', Hc1, Htm', Htm.
  split; [done|]. split; [done|]. split; [|split; [|done]].
  - intros j Hid Hj Hne. rewrite Hid. unfold Note.saveNote. rewrite Hj.
    rewrite bool_decide_eq_false_2 by done. simpl.
    split; [by destruct (db_update j text)|].
    by intros data ->.
  - intros Heq. unfold Note.saveNote.
    destruct (Note.note_id st) as [j|]; [|done].
    rewrite (bool_decide_eq_true_2 _ Heq), orb_true_r. done.
Qed.

Lemma C7_debounce_witness :
  let calls := [(50, str "ab"); (799, str "abc")] in
  Note.timers loaded_note = ∅
  ∧ Forall (λ c : nat * jsstring, c.1 < 800) calls
  ∧ 800 ≤ 800
  ∧ Note.note_id loaded_note = Some (str "n1")
  ∧ str "abc" ≠ Note.lastSavedContent loaded_note
  ∧ Note.db_updates
      (Note.advance accepting_db 800
         (Note.typing accepting_db ((0, str "a") :: calls) loaded_note))
    = [(str "n1", str "abc")].
Proof.
  cbv zeta.
  assert (Forall (λ c : nat * jsstring, c.1 < 800)
            [(50, str "ab"); (799, str "abc")]) as Hgaps.
  { repeat constructor; cbn [fst]; lia. }
  assert (str "abc" ≠ Note.lastSavedContent loaded_note) as Hne
    by discriminate.
  split; [reflexivity|]. split; [exact Hgaps|]. split; [lia|].
  split; [reflexivity|]. split; [exact Hne|].
  exact (proj1
    (proj1 (proj2 (proj2 (proj2 (proj2 (proj2 (proj2 (proj2
       (C7_debounce accepting_db loaded_note (0, str "a")
          [(50, str "ab"); (799, str "abc")] 800
          eq_refl Hgaps (le_n 800)))))))))
       (str "n1") eq_refl eq_refl Hne)).
Defined.

(** C10: while no note record is loaded (and the pending timers were set
    while none was loaded), no sequence of calls of [updateContent],
    [appendToNote], [setNoteContent] and [forceSave], with any time passing
    between them so that the debounced saves run, sends an update or
    changes what counts as last saved: only the content in memory
    changes. *)
Theorem C10_no_note_no_write
    (db_update : jsstring → jsstring → option Note.SessionNote)
    (st : Note.state) (ops : list note_op) :
  Note.note st = None →
  (∀ i t, Note.timers st !! i = Some t → Note.captured_id t = None) →
  let st' := foldl (run_note_op db_update) st ops in
  Note.db_updates st' = Note.db_updates st
  ∧ Note.lastSavedContent st' = Note.lastSavedContent st
  ∧ Note.note st' = None
  ∧ Note.content st' = foldl content_after (Note.content st) ops.
Proof.
  intros Hnote Htimers. cbv zeta.
  assert (unloaded st st) as Hst by done.
  destruct (run_note_ops_unloaded db_update st st ops Hst)
    as ((Hn & _ & Hd & Hl) & Hc).
  done.
Qed.

Lemma C10_no_note_no_write_witness :
  let db := λ i c, Some {| Note.id := i; Note.note_content := c |} in
  let ops := [Update (str "a"); Wait 800; Append (str "b");
              Replace (str "c"); ForceSave] in
  Note.note (Note.mount 0) = None
  ∧ Note.db_updates (foldl (run_note_op db) (Note.mount 0) ops) = []
  ∧ Note.content (foldl (run_note_op db) (Note.mount 0) ops) = str "c".
Proof.
  cbv zeta. split; [reflexivity|].
  assert (∀ i t, Note.timers (Note.mount 0) !! i = Some t
                 → Note.captured_id t = None) as Htimers.
  { intros i t Hi. exfalso. revert Hi. unfold Note.mount.
    cbn [Note.timers]. rewrite lookup_empty. discriminate. }
  pose proof (C10_no_note_no_write
                (λ i c, Some {| Note.id := i; Note.note_content := c |})
                (Note.mount 0)
                [Update (str "a"); Wait 800; Append (str "b");
                 Replace (str "c"); ForceSave]
                eq_refl Htimers) as (Hd & _ & _ & Hc).
  split; [exact Hd|exact Hc].
Defined.

(** ** Chat history *)

Section chat.
Import Chat.
Context (insert_message : nat → jsstring → role → jsstring
                          → option ChatMessage)
        (post_chat : nat → jsstring → jsstring → jsstring → chat_fetch)
        (post_summarize : nat → option jsstring → list summarize_entity
                          → option SummarizeResult)
        (toLowerCase : jsstring → jsstring)
        (toISOString : nat → jsstring)
        (p : props).
Implicit Types (st : state) (m : ChatMessage) (prev : list ChatMessage).

#[local] Abbreviation saveMessage := (Chat.saveMessage insert_message p).
#[local] Abbreviation addAssistantMessage :=
  (Chat.addAssistantMessage insert_message toISOString p).
#[local] Abbreviation handleSummarizeCommand :=
  (Chat.handleSummarizeCommand insert_message post_summarize toISOString p).
#[local] Abbreviation sendMessage :=
  (Chat.sendMessage insert_message post_chat post_summarize toLowerCase
     toISOString p).

Definition ids (prev : list ChatMessage) : list jsstring := Chat.id <$> prev.

Lemma existsb_id m prev :
  existsb (λ m', bool_decide (Chat.id m' = Chat.id m)) prev = true
  ↔ Chat.id m ∈ ids prev.
Proof.
  unfold ids. rewrite existsb_exists, list_elem_of_fmap. split.
  - intros (m' & Hin%list_elem_of_In & Heq%bool_decide_eq_true).
    by exists m'.
  - intros (m' & Heq & Hin). exists m'.
    split; [by apply list_elem_of_In|by apply bool_decide_eq_true].
Qed.

Lemma add_unless_present_old m prev :
  Chat.id m ∈ ids prev → add_unless_present m prev = prev.
Proof. intros H%existsb_id. unfold add_unless_present. by rewrite H. Qed.

Lemma add_unless_present_new m prev :
  Chat.id m ∉ ids prev → add_unless_present m prev = prev ++ [m].
Proof.
  intros H. unfold add_unless_present.
  destruct (existsb _ prev) eqn:E; [|done]. by apply existsb_id in E.
Qed.

Lemma add_unless_present_NoDup m prev :
  NoDup (ids prev) → NoDup (ids (add_unless_present m prev)).
Proof.
  intros Hnd. destruct (decide (Chat.id m ∈ ids prev)) as [Hin|Hout].
  - by rewrite add_unless_present_old.
  - rewrite add_unless_present_new by done. unfold ids in *.
    rewrite fmap_app. apply NoDup_app. split; [done|].
    split; [|apply NoDup_singleton].
    intros x Hx ->%list_elem_of_singleton. done.
Qed.

(** *** While the saves succeed *)

Definition saves_succeed : Prop :=
  ∀ n sid r text, is_Some (insert_message n sid r text).

Definition in_session : Prop :=
  ∃ sid, sessionId p = Some sid ∧ truthy sid = true.

Definition unique_ids (st : state) : Prop := NoDup (ids (messages st)).

Lemma saveMessage_messages r text st :
  messages (saveMessage r text st).1 = messages st.
Proof.
  unfold Chat.saveMessage. destruct (sessionId p) as [sid|]; [|done].
  by destruct (truthy sid).
Qed.

Lemma saveMessage_saved r text st :
  saves_succeed → in_session → is_Some (saveMessage r text st).2.
Proof.
  intros Hsave (sid & Hsid & Ht). unfold Chat.saveMessage.
  rewrite Hsid, Ht. apply Hsave.
Qed.

Lemma addAssistantMessage_unique text st :
  saves_succeed → in_session →
  unique_ids st → unique_ids (addAssistantMessage text st).
Proof.
  intros Hsave Hsess Hst. unfold Chat.addAssistantMessage.
  pose proof (saveMessage_messages assistant text st) as Hm.
  pose proof (saveMessage_saved assistant text st Hsave Hsess) as [m Hsaved].
  destruct (saveMessage assistant text st) as [st1 saved].
  simpl in *. subst saved. unfold unique_ids. simpl. rewrite Hm.
  by apply add_unless_present_NoDup.
Qed.

Lemma handleSummarizeCommand_unique userQuery st :
  saves_succeed → in_session →
  unique_ids st → unique_ids (handleSummarizeCommand userQuery st).
Proof.
  intros Hsave Hsess Hst. unfold Chat.handleSummarizeCommand.
  case_bool_decide; [by apply addAssistantMessage_unique|].
  destruct (post_summarize _ _ _) as [result|];
    [|by apply addAssistantMessage_unique].
  assert (unique_ids
            (addAssistantMessage (responseText result)
               (perform
                  (InsertSummary (sessionId p) (summaryData p userQuery result))
                  (perform (PostSummarize (sessionId p) (summarize_payload p))
                     st)))) as Hreply
    by (by apply addAssistantMessage_unique).
  destruct (onEntitiesUpdate p _); [done|].
  by apply addAssistantMessage_unique.
Qed.

Lemma sendMessage_unique userMessage st :
  saves_succeed → unique_ids st → unique_ids (sendMessage userMessage st).
Proof.
  intros Hsave Hst. unfold Chat.sendMessage.
  destruct (sessionId p) as [sid|] eqn:Hsid; [|done].
  destruct (truthy sid) eqn:Ht; [|done]. simpl.
  destruct (negb (truthy (trim userMessage))); [done|].
  assert in_session as Hsess by (by exists sid).
  pose proof (saveMessage_messages user userMessage (setIsLoading true st))
    as Hm.
  pose proof (saveMessage_saved user userMessage (setIsLoading true st)
                Hsave Hsess) as [m Hsaved].
  destruct (saveMessage user userMessage (setIsLoading true st))
    as [st1 saved].
  simpl in Hm, Hsaved. subst saved.
  assert (unique_ids (setMessages (add_unless_present m) st1)) as Hst1.
  { unfold unique_ids. simpl. rewrite Hm. by apply add_unless_present_NoDup. }
  revert Hst1. generalize (setMessages (add_unless_present m) st1).
  intros st2 Hst2.
  destruct (isSummarizeCommand toLowerCase userMessage).
  { by apply (handleSummarizeCommand_unique userMessage) in Hst2. }
  assert (∀ text st', unique_ids st' →
            unique_ids (addAssistantMessage text st')) as Hadd.
  { intros. by apply addAssistantMessage_unique. }
  destruct (post_chat _ _ _ _) as [| | | | |result];
    try (by apply (Hadd _ (perform _ st2))).
  specialize (Hadd (if truthy (reply result) then reply result
                    else str "I processed your request.")
                (perform (PostChat sid userMessage (currentNote p)) st2)
                Hst2).
  destruct (noteWasModified result && some_truthy (updatedNote result));
    [done|].
  by destruct (negb (noteWasModified result)).
Qed.

End chat.

Definition no_insert : nat → jsstring → Chat.role → jsstring
                       → option Chat.ChatMessage := λ _ _ _ _, None.

Definition some_session : Chat.props :=
  {| Chat.sessionId := Some (str "s"); Chat.entities := [];
     Chat.selectedEntityIds := ∅; Chat.currentNote := [];
     Chat.onEntitiesUpdate := λ _, Chat.Returns |}.

Definition empty_chat : Chat.state :=
  {| Chat.messages := []; Chat.isLoading := false; Chat.log := [];
     Chat.clock := λ _, 1000; Chat.reads := 0 |}.

(** C8, as stated, fails: when the replies cannot be saved, two assistant
    replies added within one millisecond are both appended under the id
    [temp-1000]; the second add does not check that the id is present. *)
Lemma C8_counterexample :
  let add := Chat.addAssistantMessage no_insert (λ _, []) some_session in
  let st := add (str "b") (add (str "a") empty_chat) in
  ids (Chat.messages st) = [str "temp-1000"; str "temp-1000"]
  ∧ length (Chat.messages st) = 2
  ∧ ¬ NoDup (ids (Chat.messages st)).
Proof.
  vm_compute. split; [done|]. split; [done|].
  intros Hnd. inversion Hnd as [|?? Hnotin _]; subst.
  apply Hnotin. by left.
Qed.

(** When the clock has moved between the two replies, their ids differ. *)
Example temp_ids_differ :
  let add := Chat.addAssistantMessage no_insert (λ _, []) some_session in
  let st0 := {| Chat.messages := []; Chat.isLoading := false;
                Chat.log := []; Chat.clock := λ n, 1000 + n;
                Chat.reads := 0 |} in
  ids (Chat.messages (add (str "b") (add (str "a") st0)))
  = [str "temp-1000"; str "temp-1001"].
Proof. by vm_compute. Qed.

(** C8, amended: every path that adds a turn returned by the database (the
    realtime insert, the saved user turn on send, the saved assistant reply)
    first checks whether a turn with that id is present and is a no-op if
    so; hence adding two turns with identical id this way yields a history
    of length 1, and while the saves succeed [sendMessage] and the realtime
    handler keep the ids of the history distinct.  An assistant reply whose
    save failed is appended without the check, under the id
    [temp-<Date.now()>]. *)
Theorem C8_dedup
    (insert_message : nat → jsstring → Chat.role → jsstring
                      → option Chat.ChatMessage)
    (post_chat : nat → jsstring → jsstring → jsstring → Chat.chat_fetch)
    (post_summarize : nat → option jsstring → list Chat.summarize_entity
                      → option Chat.SummarizeResult)
    (toLowerCase : jsstring → jsstring) (toISOString : nat → jsstring)
    (p : Chat.props) :
  (∀ m st, Chat.messages (Chat.realtime_insert m st)
           = Chat.add_unless_present m (Chat.messages st))
  ∧ (∀ m prev, Chat.id m ∈ ids prev → Chat.add_unless_present m prev = prev)
  ∧ (∀ m m', Chat.id m = Chat.id m' →
       length (Chat.add_unless_present m' (Chat.add_unless_present m [])) = 1)
  ∧ (∀ m st, unique_ids st → unique_ids (Chat.realtime_insert m st))
  ∧ (saves_succeed insert_message →
     ∀ userMessage st,
       unique_ids st →
       unique_ids (Chat.sendMessage insert_message post_chat post_summarize
                     toLowerCase toISOString p userMessage st))
  ∧ (∀ text st,
       (Chat.saveMessage insert_message p Chat.assistant text st).2 = None →
       Chat.messages
         (Chat.addAssistantMessage insert_message toISOString p text st)
       = Chat.messages st
         ++ [{| Chat.id := str "temp-" ++ str (pretty (Chat.now st));
                Chat.session_id := default [] (Chat.sessionId p);
                Chat.msg_role := Chat.assistant;
                Chat.content := text;
                Chat.created_at := toISOString (Chat.now st) |}]).
Proof.
  split; [done|]. split; [apply add_unless_present_old|].
  split.
  { intros m m' Hid. rewrite add_unless_present_old; [done|].
    rewrite <- Hid. unfold ids. simpl. set_solver. }
  split.
  { intros m st. apply add_unless_present_NoDup. }
  split; [intros; by apply sendMessage_unique|].
  intros text st. unfold Chat.addAssistantMessage, Chat.temp_message.
  pose proof (saveMessage_messages insert_message p Chat.assistant text st)
    as Hm.
  unfold Chat.saveMessage in *.
  destruct (Chat.sessionId p) as [sid|]; [|done].
  destruct (truthy sid); [|done]. simpl. by intros ->.
Qed.

Definition first_turn : Chat.ChatMessage :=
  {| Chat.id := str "m1"; Chat.session_id := str "s";
     Chat.msg_role := Chat.user; Chat.content := str "hi";
     Chat.created_at := [] |}.

Lemma C8_dedup_witness :
  Chat.id first_turn ∈ ids [first_turn]
  ∧ Chat.add_unless_present first_turn [first_turn] = [first_turn].
Proof.
  assert (Chat.id first_turn ∈ ids [first_turn]) as Hin by (by left).
  split; [exact Hin|].
  exact (proj1 (proj2
    (C8_dedup no_insert (λ _ _ _ _, Chat.Aborted) (λ _ _ _, None)
       (λ s, s) (λ _, []) some_session)) first_turn [first_turn] Hin).
Defined.

(** C9: when the entities left after restricting to the selection (if any)
    and leaving out the ['ai-summary'] entities are none, the summarize
    flow, in a session, does exactly this: it inserts one assistant turn
    whose text is exactly ["There's nothing to summarize yet. Upload some
    screenshots first!"] into the chat table, and shows it: the saved row
    is added to the history unless a turn with its id is there already, and
    when the save fails a local turn with that text is appended.  The
    insert is the only effect: no request goes to the summarize endpoint,
    no summary entity is created, and [onEntitiesUpdate] is not called. *)
Theorem C9_nothing_to_summarize
    (insert_message : nat → jsstring → Chat.role → jsstring
                      → option Chat.ChatMessage)
    (post_summarize : nat → option jsstring → list Chat.summarize_entity
                      → option Chat.SummarizeResult)
    (toISOString : nat → jsstring)
    (p : Chat.props) (userQuery sid : jsstring) (st : Chat.state) :
  Chat.contextEntities p = [] →
  Chat.sessionId p = Some sid → truthy sid = true →
  let st' := Chat.handleSummarizeCommand insert_message post_summarize
               toISOString p userQuery st in
  let text :=
    str "There's nothing to summarize yet. Upload some screenshots first!" in
  Chat.log st' = Chat.log st ++ [Chat.InsertMessage sid Chat.assistant text]
  ∧ Chat.messages st'
    = match insert_message (length (Chat.log st)) sid Chat.assistant text with
      | Some saved =>
          if decide (Chat.id saved ∈ ids (Chat.messages st))
          then Chat.messages st
          else Chat.messages st ++ [saved]
      | None =>
          Chat.messages st
          ++ [{| Chat.id := str "temp-" ++ str (pretty (Chat.now st));
                 Chat.session_id := sid;
                 Chat.msg_role := Chat.assistant;
                 Chat.content := text;
                 Chat.created_at := toISOString (Chat.now st) |}]
      end
  ∧ Chat.isLoading st' = false
  ∧ (∀ e, e ∈ drop (length (Chat.log st)) (Chat.log st') →
       (∀ s ents, e ≠ Chat.PostSummarize s ents)
       ∧ (∀ s d, e ≠ Chat.InsertSummary s d)
       ∧ e ≠ Chat.EntitiesUpdate).
Proof.
  intros Hnone Hsid Ht. cbv zeta. unfold Chat.handleSummarizeCommand.
  rewrite Hnone. simpl bool_decide. cbv iota.
  change Chat.nothing_to_summarize
    with (str "There's nothing to summarize yet. Upload some screenshots first!").
  set (text :=
         str "There's nothing to summarize yet. Upload some screenshots first!").
  assert (Chat.log
            (Chat.addAssistantMessage insert_message toISOString p text st)
          = Chat.log st ++ [Chat.InsertMessage sid Chat.assistant text])
    as Hlog.
  { unfold Chat.addAssistantMessage, Chat.saveMessage. rewrite Hsid, Ht.
    by destruct (insert_message _ _ _ _). }
  split; [exact Hlog|]. split; [|split].
  - unfold Chat.addAssistantMessage, Chat.saveMessage. rewrite Hsid, Ht.
    destruct (insert_message _ _ _ _) as [saved|]; simpl.
    + destruct (decide (Chat.id saved ∈ ids (Chat.messages st))) as [Hin|Hout].
      * by apply add_unless_present_old.
      * by apply add_unless_present_new.
    + unfold Chat.temp_message. by rewrite Hsid.
  - unfold Chat.addAssistantMessage.
    by destruct (Chat.saveMessage _ _ _ _ _) as [st1 [saved|]].
  - intros e. rewrite Hlog, drop_app_length.
    intros ->%list_elem_of_singleton. done.
Qed.

Definition echo_insert : nat → jsstring → Chat.role → jsstring
                         → option Chat.ChatMessage :=
  λ n sid r text,
    Some {| Chat.id := str "m" ++ str (pretty n); Chat.session_id := sid;
            Chat.msg_role := r; Chat.content := text;
            Chat.created_at := [] |}.

Lemma C9_nothing_to_summarize_witness :
  let text :=
    str "There's nothing to summarize yet. Upload some screenshots first!" in
  Chat.contextEntities some_session = []
  ∧ Chat.sessionId some_session = Some (str "s")
  ∧ truthy (str "s") = true
  ∧ Chat.log
      (Chat.handleSummarizeCommand echo_insert (λ _ _ _, None) (λ _, [])
         some_session (str "summarize") empty_chat)
    = [Chat.InsertMessage (str "s") Chat.assistant text]
  ∧ Chat.messages
      (Chat.handleSummarizeCommand echo_insert (λ _ _ _, None) (λ _, [])
         some_session (str "summarize") empty_chat)
    = [{| Chat.id := str "m0"; Chat.session_id := str "s";
          Chat.msg_role := Chat.assistant; Chat.content := text;
          Chat.created_at := [] |}].
Proof.
  cbv zeta.
  assert (Chat.contextEntities some_session = []) as Hnone by reflexivity.
  split; [exact Hnone|]. split; [reflexivity|]. split; [reflexivity|].
  destruct (C9_nothing_to_summarize echo_insert (λ _ _ _, None) (λ _, [])
              some_session (str "summarize") (str "s") empty_chat
              Hnone eq_refl eq_refl) as (Hlog & Hmessages & _).
  split; [exact Hlog|exact Hmessages].
Defined.

(** * Further properties *)

(** ** The two scans of the diff annotator *)

Section diff_scan.
Implicit Types (old new extra : jsstring).

(** The suffix loop moves both ends by the same amount, whatever the
    fuel. *)
Lemma suffix_loop_steps fuel old new p o n :
  let r := suffix_loop fuel old new p o n in
  r.1 ≤ o ∧ r.2 ≤ n ∧ o - r.1 = n - r.2.
Proof.
  revert o n. induction fuel as [|fuel IH]; intros o n; simpl; [lia|].
  destruct (bool_decide (p < o) && bool_decide (p < n)
            && bool_decide (old !! (o - 1) = new !! (n - 1))) eqn:E;
    simpl; [|lia].
  apply andb_prop in E as [E _]. apply andb_prop in E as [E1 E2].
  apply bool_decide_eq_true in E1, E2.
  specialize (IH (o - 1) (n - 1)). simpl in IH. lia.
Qed.

(** What the suffix loop has passed agrees in both texts. *)
Lemma suffix_loop_agree fuel old new p o n :
  let r := suffix_loop fuel old new p o n in
  ∀ k, k < o - r.1 → old !! (r.1 + k) = new !! (r.2 + k).
Proof.
  revert o n. induction fuel as [|fuel IH]; intros o n; simpl.
  { intros k ?. lia. }
  destruct (bool_decide (p < o) && bool_decide (p < n)
            && bool_decide (old !! (o - 1) = new !! (n - 1))) eqn:E;
    simpl; [|intros k ?; lia].
  apply andb_prop in E as [E E3]. apply andb_prop in E as [E1 E2].
  apply bool_decide_eq_true in E1, E2, E3.
  intros k Hk.
  pose proof (suffix_loop_steps fuel old new p (o - 1) (n - 1)) as Hb.
  specialize (IH (o - 1) (n - 1)). simpl in IH, Hb.
  destruct (decide (k < o - 1 - (suffix_loop fuel old new p (o - 1) (n - 1)).1))
    as [Hlt|Hge]; [by apply IH|].
  replace ((suffix_loop fuel old new p (o - 1) (n - 1)).1 + k)
    with (o - 1) by lia.
  replace ((suffix_loop fuel old new p (o - 1) (n - 1)).2 + k)
    with (n - 1) by lia.
  done.
Qed.

(** The scans as facts about the two texts. *)
Lemma scan_facts old new :
  let d := scan old new in
  prefixEnd d ≤ oldSuffixStart d ≤ length old
  ∧ prefixEnd d ≤ newSuffixStart d ≤ length new
  ∧ length old - oldSuffixStart d = length new - newSuffixStart d
  ∧ (∀ i, i < prefixEnd d → old !! i = new !! i)
  ∧ (∀ k, k < length old - oldSuffixStart d →
       old !! (oldSuffixStart d + k) = new !! (newSuffixStart d + k))
  ∧ ¬ (prefixEnd d < length old `min` length new
       ∧ old !! prefixEnd d = new !! prefixEnd d)
  ∧ ¬ (prefixEnd d < oldSuffixStart d ∧ prefixEnd d < newSuffixStart d
       ∧ old !! (oldSuffixStart d - 1) = new !! (newSuffixStart d - 1)).
Proof.
  unfold scan.
  set (m := length old `min` length new).
  pose proof (prefix_loop_exits m old new m 0 ltac:(lia) ltac:(lia))
    as (Hp & Hstop & Hsame). simpl in Hp, Hstop, Hsame.
  set (p := prefix_loop m old new m 0) in *.
  pose proof (suffix_loop_exits (length old) old new p (length old)
                (length new) ltac:(lia)) as (Ho & Hn & Hlen & Hpo & Hpn & Hend).
  pose proof (suffix_loop_agree (length old) old new p (length old)
                (length new)) as Hagree.
  simpl in Ho, Hn, Hlen, Hpo, Hpn, Hend, Hagree.
  destruct (suffix_loop _ _ _ _ _ _) as [o n]. simpl in *.
  repeat split; try lia; try done.
  intros i Hi. apply Hsame. lia.
Qed.

End diff_scan.

Section diff_edits.
Implicit Types (old new extra a b c : jsstring).

Lemma scan_unfold old new :
  let p := prefix_loop (length old `min` length new) old new
             (length old `min` length new) 0 in
  let r := suffix_loop (length old) old new p (length old) (length new) in
  scan old new
  = {| prefixEnd := p; oldSuffixStart := r.1; newSuffixStart := r.2 |}.
Proof. unfold scan. simpl. by destruct (suffix_loop _ _ _ _ _ _). Qed.

(** While the code units before the two ends agree and both ends stay above
    the prefix, the suffix loop goes on. *)
Lemma suffix_loop_progress j fuel old new p o n :
  j ≤ fuel → p + j ≤ o → p + j ≤ n →
  (∀ k, k < j → old !! (o - 1 - k) = new !! (n - 1 - k)) →
  suffix_loop fuel old new p o n
  = suffix_loop (fuel - j) old new p (o - j) (n - j).
Proof.
  revert fuel o n. induction j as [|j IH]; intros fuel o n Hf Ho Hn Hk.
  { by rewrite !Nat.sub_0_r. }
  destruct fuel as [|fuel]; [lia|]. simpl.
  assert (old !! (o - 1) = new !! (n - 1)) as H0.
  { specialize (Hk 0 ltac:(lia)). by rewrite !Nat.sub_0_r in Hk. }
  rewrite !bool_decide_eq_true_2 by (done || lia).
  simpl. rewrite (IH fuel (o - 1) (n - 1)); [|lia..|].
  - f_equal; lia.
  - intros k Hlt. specialize (Hk (S k) ltac:(lia)).
    replace (o - 1 - 1 - k) with (o - 1 - S k) by lia.
    replace (n - 1 - 1 - k) with (n - 1 - S k) by lia. done.
Qed.

Lemma suffix_loop_stop fuel old new p o :
  suffix_loop fuel old new p o p = (o, p).
Proof.
  destruct fuel as [|fuel]; simpl; [done|].
  rewrite (bool_decide_eq_false_2 (p < p)) by lia.
  by rewrite andb_false_r.
Qed.

Lemma suffix_loop_stop_old fuel old new p n :
  suffix_loop fuel old new p p n = (p, n).
Proof.
  destruct fuel as [|fuel]; simpl; [done|].
  by rewrite (bool_decide_eq_false_2 (p < p)) by lia.
Qed.

End diff_edits.

(** X1: the two scans cut both texts at a common prefix and a common
    suffix that do not overlap: the old text is the prefix, a removed
    region and the suffix; the new text is the same prefix, the added
    region and the same suffix. *)
Theorem diff_common_parts (oldContent newContent : jsstring) :
  let d := scan oldContent newContent in
  let prefix := prefix_of d newContent in
  let added := added_of d newContent in
  let suffix := suffix_of d newContent in
  let removed := slice (prefixEnd d) (oldSuffixStart d) oldContent in
  oldContent = prefix ++ removed ++ suffix
  ∧ newContent = prefix ++ added ++ suffix
  ∧ length prefix = prefixEnd d
  ∧ length suffix = length newContent - newSuffixStart d.
Proof.
  cbv zeta.
  pose proof (scan_facts oldContent newContent)
    as ((Hpo & Ho) & (Hpn & Hn) & Hlen & Hpre & Hsuf & _).
  pose proof (scan_parts oldContent newContent) as [_ Hnew].
  cbv zeta in *.
  set (d := scan oldContent newContent) in *.
  assert (take (prefixEnd d) newContent = take (prefixEnd d) oldContent)
    as Htake.
  { apply list_eq. intros i. rewrite !lookup_take.
    case_decide; [|done]. symmetry. by apply Hpre. }
  assert (drop (newSuffixStart d) newContent
          = drop (oldSuffixStart d) oldContent) as Hdrop.
  { apply list_eq. intros i. rewrite !lookup_drop.
    destruct (decide (i < length oldContent - oldSuffixStart d)) as [Hi|Hi].
    - symmetry. by apply Hsuf.
    - rewrite !lookup_ge_None_2; [done|lia..]. }
  split; [|split; [done|split]].
  - unfold prefix_of, suffix_of, slice, slice_from.
    rewrite Nat.sub_0_r, drop_0, Htake, Hdrop.
    rewrite <- (take_drop (prefixEnd d) oldContent) at 1. f_equal.
    rewrite <- (take_drop (oldSuffixStart d - prefixEnd d)
                  (drop (prefixEnd d) oldContent)) at 1.
    f_equal. rewrite drop_drop. f_equal. lia.
  - unfold prefix_of, slice. rewrite Nat.sub_0_r, drop_0, length_take. lia.
  - unfold suffix_of, slice_from. by rewrite length_drop.
Qed.

(** X2: neither scan stops early.  The prefix ends where one of the texts
    ends or where the two texts differ; the suffix starts where it meets
    the prefix in one of the texts or where the code units before it
    differ. *)
Theorem diff_scans_maximal (oldContent newContent : jsstring) :
  let d := scan oldContent newContent in
  (prefixEnd d = length oldContent `min` length newContent
   ∨ oldContent !! prefixEnd d ≠ newContent !! prefixEnd d)
  ∧ (oldSuffixStart d = prefixEnd d ∨ newSuffixStart d = prefixEnd d
     ∨ oldContent !! (oldSuffixStart d - 1)
       ≠ newContent !! (newSuffixStart d - 1)).
Proof.
  cbv zeta.
  pose proof (scan_facts oldContent newContent)
    as ((Hpo & Ho) & (Hpn & Hn) & _ & _ & _ & Hstop & Hend).
  cbv zeta in *.
  set (d := scan oldContent newContent) in *.
  split.
  - destruct (decide (prefixEnd d
                      = length oldContent `min` length newContent));
      [by left|right].
    intros Heq. apply Hstop. split; [lia|done].
  - destruct (decide (oldSuffixStart d = prefixEnd d)); [by left|].
    destruct (decide (newSuffixStart d = prefixEnd d)); [by right; left|].
    right; right. intros Heq. apply Hend. repeat split; [lia..|done].
Qed.

(** X3: when the new text is the old text with more text after it, the
    whole old text is the prefix and exactly the appended text is marked:
    the result is the old text without its trailing line feeds, a blank
    line, the marker block around the trimmed appended text, and a final
    line feed. *)
Theorem markAiAdditions_append (oldContent extra : jsstring) :
  ¬ blank oldContent → ¬ blank extra →
  markAiAdditions oldContent (oldContent ++ extra)
  = collapse_newlines (strip_trailing_newlines oldContent) ++ [nl; nl]
    ++ marker_open ++ [nl] ++ collapse_newlines (trim extra) ++ [nl]
    ++ marker_close ++ [nl].
Proof.
  intros Hold Hextra.
  rewrite <- trim_nil_iff in Hold, Hextra.
  pose proof (scan_facts oldContent (oldContent ++ extra))
    as (_ & _ & _ & _ & _ & Hstop & _).
  pose proof (scan_parts oldContent (oldContent ++ extra)) as [[Hpn _] _].
  pose proof (scan_unfold oldContent (oldContent ++ extra)) as Hscan.
  cbv zeta in *.
  rewrite length_app in *.
  replace (length oldContent `min` (length oldContent + length extra))
    with (length oldContent) in * by lia.
  set (p := prefix_loop _ _ _ _ _) in *.
  assert (prefixEnd (scan oldContent (oldContent ++ extra)) = p) as Hp
    by (by rewrite Hscan).
  rewrite Hp in Hstop.
  assert (p ≤ length oldContent) as Hle.
  { pose proof (prefix_loop_exits (length oldContent) oldContent
                  (oldContent ++ extra) (length oldContent) 0
                  ltac:(lia) ltac:(lia)) as ((_ & ?) & _). done. }
  assert (p = length oldContent) as Hpeq.
  { destruct (decide (p = length oldContent)) as [|Hne]; [done|].
    exfalso. apply Hstop. split; [lia|].
    symmetry. apply lookup_app_l. lia. }
  rewrite Hpeq, suffix_loop_stop_old in Hscan. simpl in Hscan.
  unfold markAiAdditions. rewrite Hscan.
  unfold prefix_of, added_of, suffix_of, slice, slice_from. simpl.
  rewrite Nat.sub_0_r, drop_0, take_app_length.
  rewrite drop_app_length.
  replace (length oldContent + length extra - length oldContent)
    with (length extra) by lia.
  rewrite firstn_all.
  assert (drop (length oldContent + length extra) (oldContent ++ extra) = [])
    as ->.
  { apply drop_ge. rewrite length_app. lia. }
  assert (truthy (trim oldContent) = true) as -> by by apply truthy_true.
  assert (truthy (trim extra) = true) as -> by by apply truthy_true.
  simpl. rewrite collapse_wrap by done.
  assert (truthy oldContent = true) as Hto.
  { apply truthy_true. intros ->. by apply Hold. }
  unfold separator. rewrite Hto. reflexivity.
Qed.

Lemma markAiAdditions_append_witness :
  ¬ blank (str "a") ∧ ¬ blank (str "b")
  ∧ markAiAdditions (str "a") (str "a" ++ str "b")
    = collapse_newlines (strip_trailing_newlines (str "a")) ++ [nl; nl]
      ++ marker_open ++ [nl] ++ collapse_newlines (trim (str "b")) ++ [nl]
      ++ marker_close ++ [nl].
Proof.
  assert (∀ c : N, is_ws c = false → ¬ blank [c]) as Hnb.
  { intros c Hc Hb. inversion Hb; congruence. }
  assert (¬ blank (str "a")) as Ha by (by apply Hnb).
  assert (¬ blank (str "b")) as Hb by (by apply Hnb).
  split; [exact Ha|]. split; [exact Hb|].
  exact (markAiAdditions_append (str "a") (str "b") Ha Hb).
Defined.

(** X4: an edit that only deletes a stretch of the old text (or changes
    nothing) adds no marker: the new text is returned as it is. *)
Theorem markAiAdditions_deletion (a b c : jsstring) :
  markAiAdditions (a ++ b ++ c) (a ++ c) = a ++ c.
Proof.
  set (old := a ++ b ++ c). set (new := a ++ c).
  pose proof (scan_facts old new) as (_ & _ & _ & _ & _ & Hstop & _).
  pose proof (scan_unfold old new) as Hscan.
  cbv zeta in *.
  assert (length old = length a + length b + length c) as Hlo
    by (unfold old; rewrite !length_app; lia).
  assert (length new = length a + length c) as Hln
    by (unfold new; rewrite !length_app; lia).
  replace (length old `min` length new) with (length new) in * by lia.
  pose proof (prefix_loop_exits (length new) old new (length new) 0
                ltac:(lia) ltac:(lia)) as ((_ & Hle) & _). simpl in Hle.
  set (p := prefix_loop _ _ _ _ _) in *.
  assert (prefixEnd (scan old new) = p) as Hp by (by rewrite Hscan).
  rewrite Hp in Hstop.
  assert (length a ≤ p) as Hge.
  { destruct (decide (length a ≤ p)) as [|Hlt]; [done|].
    exfalso. apply Hstop. split; [lia|].
    unfold old, new, jsstring. rewrite !lookup_app_l; [done|lia..]. }
  rewrite (suffix_loop_progress (length new - p)) in Hscan; [|lia..|].
  2:{ intros k Hk. unfold old, new, jsstring.
      rewrite (app_assoc a b c).
      rewrite !lookup_app_r; rewrite ?length_app; [|lia..].
      f_equal. lia. }
  replace (length new - (length new - p)) with p in Hscan by lia.
  rewrite suffix_loop_stop in Hscan. simpl in Hscan.
  unfold markAiAdditions. rewrite Hscan.
  unfold added_of, slice. simpl. rewrite Nat.sub_diag. simpl.
  by destruct (negb _).
Qed.

(** ** What the annotator keeps of the new text *)

(** A text without its line feeds. *)
Definition non_newlines (s : list N) : list N := filter (λ c, c ≠ nl) s.

Section diff_keeps.
Implicit Types (s prefix suffix added : jsstring).

Lemma non_newlines_app s1 s2 :
  non_newlines (s1 ++ s2) = non_newlines s1 ++ non_newlines s2.
Proof. apply filter_app. Qed.

Lemma non_newlines_replicate k : non_newlines (replicate k nl) = [].
Proof.
  induction k as [|k IH]; [done|]. cbn [replicate].
  unfold non_newlines in *.
  by rewrite filter_cons_False by (intros H; by apply H).
Qed.

Lemma non_newlines_emit_run k : non_newlines (emit_run k) = [].
Proof. apply non_newlines_replicate. Qed.

(** Collapsing runs of line feeds touches nothing else. *)
Lemma non_newlines_collapse_from k s :
  non_newlines (collapse_from k s) = non_newlines s.
Proof.
  revert k. induction s as [|c s IH]; intros k; simpl.
  - apply non_newlines_emit_run.
  - destruct (N.eqb_spec c nl) as [->|Hc].
    + rewrite IH. unfold non_newlines.
      by rewrite (filter_cons_False _ nl) by (intros H; by apply H).
    + rewrite non_newlines_app, non_newlines_emit_run. simpl.
      unfold non_newlines in *. by rewrite !filter_cons_True, IH.
Qed.

Lemma non_newlines_cleanPrefix prefix :
  non_newlines (cleanPrefix prefix) = non_newlines prefix.
Proof.
  unfold cleanPrefix. destruct (endsWith [nl] prefix); [done|].
  destruct (truthy prefix) eqn:Ht.
  - by rewrite non_newlines_app, app_nil_r.
  - by apply truthy_false in Ht as ->.
Qed.

Lemma non_newlines_cleanSuffix suffix :
  non_newlines (cleanSuffix suffix) = non_newlines suffix.
Proof.
  unfold cleanSuffix. destruct (startsWith [nl] suffix); [done|].
  destruct (truthy suffix) eqn:Ht.
  - unfold non_newlines.
    by rewrite (filter_cons_False _ nl) by (intros H; by apply H).
  - by apply truthy_false in Ht as ->.
Qed.

End diff_keeps.

(** X5: when a marker block is inserted, the result is, line feeds aside,
    the new text with the two delimiters put around the added region and
    the white space around that region trimmed: no other code unit of the
    new text is changed, dropped or moved. *)
Theorem markAiAdditions_keeps_text (oldContent newContent : jsstring) :
  inserts_marker oldContent newContent = true →
  let d := scan oldContent newContent in
  let prefix := prefix_of d newContent in
  let added := added_of d newContent in
  let suffix := suffix_of d newContent in
  newContent = prefix ++ added ++ suffix
  ∧ non_newlines (markAiAdditions oldContent newContent)
    = non_newlines prefix ++ marker_open ++ non_newlines (trim added)
      ++ marker_close ++ non_newlines suffix.
Proof.
  unfold inserts_marker, markAiAdditions.
  intros [Hold Hadded]%andb_true_iff. cbv zeta. rewrite Hold, Hadded.
  split; [apply scan_parts|]. simpl negb. cbv iota.
  unfold collapse_newlines. rewrite non_newlines_collapse_from.
  unfold wrap. rewrite !non_newlines_app.
  rewrite non_newlines_cleanPrefix, non_newlines_cleanSuffix.
  assert (non_newlines [nl] = []) as -> by reflexivity.
  assert (non_newlines marker_open = marker_open) as -> by reflexivity.
  assert (non_newlines marker_close = marker_close) as -> by reflexivity.
  reflexivity.
Qed.

Lemma markAiAdditions_keeps_text_witness :
  inserts_marker hello_world hello_brave_new_world = true
  ∧ non_newlines (markAiAdditions hello_world hello_brave_new_world)
    = str "hello :::aibrave new:::world".
Proof.
  assert (inserts_marker hello_world hello_brave_new_world = true) as H
    by reflexivity.
  split; [exact H|].
  exact (proj2 (markAiAdditions_keeps_text hello_world hello_brave_new_world H)).
Defined.

(** ** More on the inline parser *)

(** The markdown source of a node of the inline parser. *)
Definition node_source (n : node) : jsstring :=
  match n with
  | Elem Span _ [Text s] => s
  | Elem Strong _ [Text s] => delimiter bold ++ s ++ delimiter bold
  | Elem Em _ [Text s] => delimiter italic ++ s ++ delimiter italic
  | Elem Code _ [Text s] => delimiter code ++ s ++ delimiter code
  | _ => []
  end.

Definition inline_source (x : inline) : jsstring :=
  match x with
  | Plain s => s
  | Styled ty s => delimiter ty ++ s ++ delimiter ty
  end.

Section inline_more.
Implicit Types (text s : jsstring).

Lemma node_source_inline k x : node_source (inline_node k x) = inline_source x.
Proof. destruct x as [s|[] s]; reflexivity. Qed.

Lemma parses_source s l : parses s l → concat (inline_source <$> l) = s.
Proof.
  induction 1 as [|s _ _|s ty pre g rest l -> _ _ _ _ _ IH].
  - done.
  - simpl. by rewrite app_nil_r.
  - rewrite fmap_app, concat_app, fmap_cons. cbn [concat inline_source].
    rewrite IH, <- !app_assoc. f_equal.
    case_bool_decide as Hpre; [by subst pre|]. simpl. by rewrite app_nil_r.
Qed.

Lemma occurs_delimiter ty s i g :
  occurs (delimiter ty) s i g → 42%N ∈ s ∨ 96%N ∈ s.
Proof.
  intros (_ & _ & pre & rest & -> & _).
  destruct ty; [left|left|right];
    rewrite elem_of_app; right; simpl; by left.
Qed.

End inline_more.

(** X6: the inline parser loses no text: the nodes, read back with the
    delimiters of the styled spans, spell the text that was parsed. *)
Theorem InlineMarkdown_source (text : jsstring) :
  concat (node_source <$> InlineMarkdown text) = text.
Proof.
  destruct (inline_loop_parses (length text) text 0 ltac:(done))
    as (l & Hl & Hparse).
  unfold InlineMarkdown. rewrite Hl, fmap_imap.
  rewrite (imap_ext _ (const inline_source)).
  - rewrite imap_const. by apply parses_source.
  - intros i x _. apply node_source_inline.
Qed.

(** X7: a text with no asterisk and no backquote is one literal span. *)
Theorem InlineMarkdown_plain (text : jsstring) :
  text ≠ [] → 42%N ∉ text → 96%N ∉ text →
  InlineMarkdown text = [Elem Span (Some 0) [Text text]].
Proof.
  intros Hne Hstar Hquote.
  assert (candidates text = []) as Hnone.
  { destruct (candidates text) as [|[ty m] r] eqn:E; [done|].
    assert ((ty, m) ∈ candidates text) as Hin by (rewrite E; by left).
    apply candidates_elem, search_Some in Hin as (_ & Hocc & _).
    apply occurs_delimiter in Hocc. tauto. }
  unfold InlineMarkdown. destruct text as [|c t]; [done|].
  cbn [length inline_loop].
  rewrite bool_decide_eq_true_2 by (cbn [length]; lia). by rewrite Hnone.
Qed.

Lemma InlineMarkdown_plain_witness :
  str "note" ≠ [] ∧ (42%N ∉ str "note") ∧ (96%N ∉ str "note")
  ∧ InlineMarkdown (str "note") = [Elem Span (Some 0) [Text (str "note")]].
Proof.
  assert (str "note" ≠ []) as H1 by done.
  assert (42%N ∉ str "note") as H2.
  { rewrite list_elem_of_In. simpl. intros [|[|[|[|]]]]; done. }
  assert (96%N ∉ str "note") as H3.
  { rewrite list_elem_of_In. simpl. intros [|[|[|[|]]]]; done. }
  split; [exact H1|]. split; [exact H2|]. split; [exact H3|].
  exact (InlineMarkdown_plain (str "note") H1 H2 H3).
Defined.

(** ** More on the preview *)

Section preview_more.
Implicit Types (st : preview_state) (lines : list jsstring).

(** Lines that are no delimiters go to the buffer of the current mode. *)
Lemma preview_buffer_lines st lines :
  Forall (λ l, ¬ is_delimiter l) lines →
  foldl preview_line st lines
  = {| elements := elements st;
       inAiBlock := inAiBlock st;
       normalBuffer :=
         if inAiBlock st then normalBuffer st else normalBuffer st ++ lines;
       aiBuffer :=
         if inAiBlock st then aiBuffer st ++ lines else aiBuffer st;
       next_key := next_key st |}.
Proof.
  intros Hlines. revert st.
  induction Hlines as [|line lines Hline _ IH]; intros st; simpl.
  - rewrite !app_nil_r. destruct st as [? [] ? ? ?]; done.
  - rewrite IH. unfold preview_line.
    rewrite !bool_decide_eq_false_2 by (unfold is_delimiter in Hline; tauto).
    destruct (inAiBlock st); simpl; by rewrite <- app_assoc.
Qed.

Lemma preview_final_keys st :
  preview_inv st →
  let els := elements (flushAi (flushNormal st)) in
  node_key <$> els = Some <$> seq 0 (length els).
Proof.
  intros [Hkeys _ _ _]. cbv zeta.
  rewrite flushAi_eq, flushNormal_eq. cbn [elements next_key aiBuffer].
  set (r1 := renderLines (normalBuffer st) false (next_key st)).
  set (r2 := renderLines (aiBuffer st) true r1.2).
  pose proof (keys_extend _ _ (normalBuffer st) false Hkeys) as H1.
  pose proof (keys_extend _ _ (aiBuffer st) true H1) as H2.
  cbv zeta in H1, H2. fold r1 in H1, H2. fold r2 in H2.
  assert (length ((elements st ++ r1.1) ++ r2.1) = r2.2) as ->; [|done].
  apply (f_equal length) in H2. by rewrite !length_fmap, length_seq in H2.
Qed.

Lemma preview_line_open st line :
  trim line = marker_open →
  preview_line st line = set_inAiBlock true (flushAi (flushNormal st)).
Proof. intros H. unfold preview_line. by rewrite bool_decide_eq_true_2. Qed.

Lemma preview_line_close st line :
  trim line = marker_close →
  preview_line st line = set_inAiBlock false (flushAi st).
Proof.
  intros H. unfold preview_line.
  rewrite bool_decide_eq_false_2 by (rewrite H; by vm_compute).
  by rewrite bool_decide_eq_true_2.
Qed.

Lemma foldl_step {A B} (f : A → B → A) (a : A) (x : B) (l : list B) :
  foldl f a (x :: l) = foldl f (f a x) l.
Proof. reflexivity. Qed.

(** The loop over plain lines, an opening delimiter, annotated lines, a
    closing delimiter, and plain lines. *)
Lemma preview_run_block before inside after opening closing :
  trim opening = marker_open → trim closing = marker_close →
  Forall (λ l, ¬ is_delimiter l) before →
  Forall (λ l, ¬ is_delimiter l) inside →
  Forall (λ l, ¬ is_delimiter l) after →
  let r1 := renderLines before false 0 in
  let r2 := renderLines inside false r1.2 in
  let r3 := renderLines after false r2.2 in
  elements (flushAi (flushNormal
              (preview_run (before ++ opening :: inside ++ closing :: after))))
  = r1.1 ++ (wrap_ai <$> r2.1) ++ r3.1.
Proof.
  intros Hopen Hclose Hbefore Hinside Hafter. cbv zeta.
  set (r1 := renderLines before false 0).
  set (r2 := renderLines inside false r1.2).
  set (r3 := renderLines after false r2.2).
  pose (mk := λ els b nb ab k,
          {| elements := els; inAiBlock := b; normalBuffer := nb;
             aiBuffer := ab; next_key := k |}).
  assert (foldl preview_line preview_init before = mk [] false before [] 0)
    as E1.
  { by rewrite (preview_buffer_lines _ _ Hbefore). }
  assert (preview_line (mk [] false before [] 0) opening
          = mk r1.1 true [] [] r1.2) as E2.
  { rewrite (preview_line_open _ _ Hopen), flushNormal_eq, flushAi_eq.
    unfold set_inAiBlock, mk.
    cbn [elements inAiBlock normalBuffer aiBuffer next_key].
    rewrite renderLines_nil. cbn [fst snd app]. by rewrite app_nil_r. }
  assert (foldl preview_line (mk r1.1 true [] [] r1.2) inside
          = mk r1.1 true [] inside r1.2) as E3.
  { by rewrite (preview_buffer_lines _ _ Hinside). }
  assert (preview_line (mk r1.1 true [] inside r1.2) closing
          = mk (r1.1 ++ (wrap_ai <$> r2.1)) false [] [] r2.2) as E4.
  { rewrite (preview_line_close _ _ Hclose), flushAi_eq.
    unfold set_inAiBlock, mk.
    cbn [elements inAiBlock normalBuffer aiBuffer next_key].
    by rewrite renderLines_wrapped. }
  assert (foldl preview_line (mk (r1.1 ++ (wrap_ai <$> r2.1)) false [] [] r2.2)
            after
          = mk (r1.1 ++ (wrap_ai <$> r2.1)) false after [] r2.2) as E5.
  { by rewrite (preview_buffer_lines _ _ Hafter). }
  assert (elements (flushAi (flushNormal
                      (mk (r1.1 ++ (wrap_ai <$> r2.1)) false after [] r2.2)))
          = (r1.1 ++ (wrap_ai <$> r2.1)) ++ r3.1) as E6.
  { rewrite flushNormal_eq, flushAi_eq. unfold mk.
    cbn [elements inAiBlock normalBuffer aiBuffer next_key].
    rewrite renderLines_nil. cbn [fst snd]. by rewrite app_nil_r. }
  unfold preview_run.
  rewrite foldl_app, E1, foldl_step, E2, foldl_app, E3, foldl_step, E4, E5.
  by rewrite E6, <- app_assoc.
Qed.

End preview_more.

(** X8: a note in which no line is a delimiter is rendered by the block
    parser alone, in one pass over all of its lines. *)
Theorem MarkdownPreview_plain (content : jsstring) :
  Forall (λ l, ¬ is_delimiter l) (split_lines content) →
  MarkdownPreview content
  = Elem DivProse None (renderLines (split_lines content) false 0).1.
Proof.
  intros Hlines. unfold MarkdownPreview, preview_run.
  rewrite (preview_buffer_lines _ _ Hlines). simpl.
  rewrite flushAi_eq, flushNormal_eq. simpl. by rewrite app_nil_r.
Qed.

Lemma MarkdownPreview_plain_witness :
  Forall (λ l, ¬ is_delimiter l) (split_lines (str "# T"))
  ∧ MarkdownPreview (str "# T")
    = Elem DivProse None (renderLines (split_lines (str "# T")) false 0).1.
Proof.
  assert (Forall (λ l, ¬ is_delimiter l) (split_lines (str "# T"))) as H.
  { repeat constructor. intros [H|H]; vm_compute in H; discriminate H. }
  split; [exact H|]. exact (MarkdownPreview_plain (str "# T") H).
Defined.

(** X9: the nodes of the preview carry the keys [0, 1, ...] in order, so
    that no two of them share a key. *)
Theorem MarkdownPreview_keys (content : jsstring) :
  ∃ els, MarkdownPreview content = Elem DivProse None els
         ∧ node_key <$> els = Some <$> seq 0 (length els)
         ∧ NoDup (node_key <$> els).
Proof.
  unfold MarkdownPreview. eexists. split; [done|].
  pose proof (preview_final_keys _ (preview_run_inv (split_lines content)))
    as Hkeys. cbv zeta in Hkeys.
  split; [done|]. rewrite Hkeys. apply (NoDup_fmap_2 _), NoDup_seq.
Qed.

(** X10: a note with one annotation block, that is, plain lines, an opening
    delimiter, annotated lines, a closing delimiter and plain lines again,
    is rendered as the blocks of the first lines, then the blocks of the
    annotated lines each in a container of its own, then the blocks of the
    last lines; the three groups are parsed separately. *)
Theorem MarkdownPreview_block (content : jsstring)
    (before inside after : list jsstring) (opening closing : jsstring) :
  split_lines content = before ++ opening :: inside ++ closing :: after →
  trim opening = marker_open → trim closing = marker_close →
  Forall (λ l, ¬ is_delimiter l) before →
  Forall (λ l, ¬ is_delimiter l) inside →
  Forall (λ l, ¬ is_delimiter l) after →
  let r1 := renderLines before false 0 in
  let r2 := renderLines inside false r1.2 in
  let r3 := renderLines after false r2.2 in
  MarkdownPreview content
  = Elem DivProse None (r1.1 ++ (wrap_ai <$> r2.1) ++ r3.1).
Proof.
  intros Hsplit Hopen Hclose Hbefore Hinside Hafter. cbv zeta.
  unfold MarkdownPreview. rewrite Hsplit. f_equal.
  by apply preview_run_block.
Qed.

Lemma MarkdownPreview_block_witness :
  split_lines sample_note
  = [str "# T"] ++ str ":::ai" :: [str "- a"] ++ str ":::" :: [str "p"]
  ∧ trim (str ":::ai") = marker_open ∧ trim (str ":::") = marker_close
  ∧ MarkdownPreview sample_note
    = Elem DivProse None
        ((renderLines [str "# T"] false 0).1
         ++ (wrap_ai <$> (renderLines [str "- a"] false 1).1)
         ++ (renderLines [str "p"] false 2).1).
Proof.
  assert (∀ l, trim l ≠ marker_open → trim l ≠ marker_close
               → Forall (λ l, ¬ is_delimiter l) [l]) as Hone.
  { intros l H1 H2. repeat constructor. intros [|]; done. }
  assert (split_lines sample_note
          = [str "# T"] ++ str ":::ai" :: [str "- a"] ++ str ":::" :: [str "p"])
    as Hs by (by vm_compute).
  assert (trim (str ":::ai") = marker_open) as Ho by (by vm_compute).
  assert (trim (str ":::") = marker_close) as Hc by (by vm_compute).
  split; [exact Hs|]. split; [exact Ho|]. split; [exact Hc|].
  exact (MarkdownPreview_block sample_note [str "# T"] [str "- a"] [str "p"]
           (str ":::ai") (str ":::") Hs Ho Hc
           (Hone (str "# T") ltac:(by vm_compute) ltac:(by vm_compute))
           (Hone (str "- a") ltac:(by vm_compute) ltac:(by vm_compute))
           (Hone (str "p") ltac:(by vm_compute) ltac:(by vm_compute))).
Defined.

(** ** Removing the markers *)

Section editor.
Import Editor.
Implicit Types (s t kw : jsstring) (ml : jsstring → option nat).

Lemma includes_cons kw c t :
  Chat.includes kw (c :: t) = startsWith kw (c :: t) || Chat.includes kw t.
Proof. reflexivity. Qed.

Lemma includes_starts kw s : startsWith kw s = true → Chat.includes kw s = true.
Proof. destruct s; simpl; by intros ->. Qed.

Lemma startsWith_app kw1 kw2 s :
  startsWith (kw1 ++ kw2) s = true → startsWith kw1 s = true.
Proof.
  rewrite !startsWith_true. intros [r ->]. exists (kw2 ++ r).
  by rewrite <- app_assoc.
Qed.

(** Removing matches never makes a text longer. *)
Lemma remove_matches_length ml k s :
  length (remove_matches ml k s) ≤ length s.
Proof.
  revert k. induction s as [|c s IH]; intros k; simpl; [done|].
  destruct k as [|k].
  - destruct (ml (c :: s)) as [[|j]|]; simpl;
      [specialize (IH 0)|specialize (IH j)|specialize (IH 0)]; lia.
  - specialize (IH k). lia.
Qed.

(** Where no match starts, nothing is removed. *)
Lemma remove_matches_none ml kw s :
  (∀ t, ml t ≠ None → startsWith kw t = true ∨ ∃ c t',
          t = c :: t' ∧ startsWith kw t' = true) →
  Chat.includes kw s = false → remove_matches ml 0 s = s.
Proof.
  intros Hml. induction s as [|c s IH]; [done|].
  rewrite includes_cons. intros [Hhere Hlater]%orb_false_iff.
  simpl. destruct (ml (c :: s)) as [j|] eqn:E.
  - destruct (Hml (c :: s)) as [H|(c' & t' & [= <- <-] & H)]; [by rewrite E| |].
    + congruence.
    + apply includes_starts in H. congruence.
  - by rewrite IH.
Qed.

Lemma open_len_starts t :
  open_len t ≠ None → startsWith Diff.marker_close t = true.
Proof.
  unfold open_len. destruct (strip_prefix Diff.marker_open t) as [r|] eqn:E;
    [|done].
  intros _. apply strip_prefix_Some in E as ->.
  apply startsWith_true. by exists (str "ai" ++ r).
Qed.

Lemma close_len_starts t :
  close_len t ≠ None →
  startsWith Diff.marker_close t = true
  ∨ ∃ c t', t = c :: t' ∧ startsWith Diff.marker_close t' = true.
Proof.
  unfold close_len. destruct t as [|c t']; [done|].
  destruct ((c =? nl)%N && startsWith Diff.marker_close t') eqn:E1.
  - apply andb_prop in E1 as [_ E1]. intros _. right. by exists c, t'.
  - destruct (startsWith Diff.marker_close (c :: t')); [by left|done].
Qed.

(** A match of the first pattern is found in any text that includes the
    opening delimiter. *)
Lemma remove_open_shorter s :
  Chat.includes Diff.marker_open s = true →
  length (remove_matches open_len 0 s) < length s.
Proof.
  induction s as [|c s IH]; [done|].
  rewrite includes_cons. intros Hinc. simpl remove_matches.
  destruct (startsWith Diff.marker_open (c :: s)) eqn:Hhere.
  - apply startsWith_true in Hhere as [r Hr].
    assert (open_len (c :: s) = Some 5 ∨ open_len (c :: s) = Some 6) as Hlen.
    { unfold open_len.
      assert (strip_prefix Diff.marker_open (c :: s) = Some r) as ->
        by by apply strip_prefix_Some.
      destruct r as [|c' r]; [by left|]. destruct (c' =? nl)%N; auto. }
    destruct Hlen as [-> | ->]; simpl;
      match goal with |- context [remove_matches open_len ?k s] =>
        pose proof (remove_matches_length open_len k s) end; lia.
  - simpl in Hinc. apply IH in Hinc.
    destruct (open_len (c :: s)) as [[|j]|]; simpl; try lia.
    pose proof (remove_matches_length open_len j s). lia.
Qed.

End editor.

(** X11: a text that does not include three colons in a row is left as it
    is by [removeAiMarkers]. *)
Theorem removeAiMarkers_unmarked (text : jsstring) :
  Chat.includes marker_close text = false →
  Editor.removeAiMarkers text = text.
Proof.
  intros Hnone. unfold Editor.removeAiMarkers.
  rewrite (remove_matches_none Editor.open_len marker_close text); [|auto using open_len_starts|done].
  apply (remove_matches_none _ marker_close); [|done].
  apply close_len_starts.
Qed.

Lemma removeAiMarkers_unmarked_witness :
  Chat.includes marker_close (str "a: b") = false
  ∧ Editor.removeAiMarkers (str "a: b") = str "a: b".
Proof.
  assert (Chat.includes marker_close (str "a: b") = false) as H
    by reflexivity.
  split; [exact H|]. exact (removeAiMarkers_unmarked (str "a: b") H).
Defined.

(** X12: whenever the content includes the opening delimiter, so that the
    timer of the editor is set, removing the markers makes the content
    strictly shorter: the timer always commits a cleaned text, and setting
    that text again and again must come to a text without the delimiter. *)
Theorem expire_shortens (content : jsstring) :
  Chat.includes marker_open content = true →
  Editor.expire content = Some (Editor.removeAiMarkers content)
  ∧ length (Editor.removeAiMarkers content) < length content.
Proof.
  intros Hinc.
  assert (length (Editor.removeAiMarkers content) < length content) as Hlt.
  { unfold Editor.removeAiMarkers.
    pose proof (remove_open_shorter content Hinc).
    pose proof (remove_matches_length Editor.close_len 0
                  (Editor.remove_matches Editor.open_len 0 content)).
    lia. }
  split; [|done]. unfold Editor.expire. rewrite Hinc. simpl.
  rewrite bool_decide_eq_true_2; [done|].
  intros Heq. rewrite Heq in Hlt. lia.
Qed.

Lemma expire_shortens_witness :
  Chat.includes marker_open (str "a:::aib:::c") = true
  ∧ Editor.expire (str "a:::aib:::c")
    = Some (Editor.removeAiMarkers (str "a:::aib:::c")).
Proof.
  assert (Chat.includes marker_open (str "a:::aib:::c") = true) as H
    by reflexivity.
  split; [exact H|]. exact (proj1 (expire_shortens (str "a:::aib:::c") H)).
Defined.

(** ** More on the note state *)

Section note_more.
Import Note.
Context (db_update : jsstring → jsstring → option SessionNote).
Implicit Types (st : state) (text : jsstring) (nid : option jsstring).

#[local] Abbreviation saveNote' := (Note.saveNote db_update).
#[local] Abbreviation advance' := (Note.advance db_update).

Lemma advance_no_timers d st :
  timers st = ∅ → advance' d st = set_now (now st + d) st.
Proof.
  intros Hempty. apply advance_idle. intros i t.
  by rewrite Hempty, lookup_empty.
Qed.


(** After a save that the database accepted, or that was not needed, the
    content counts as saved. *)
Lemma saveNote_saved i text st :
  truthy i = true → is_Some (db_update i text) →
  lastSavedContent (saveNote' (Some i) text st) = text.
Proof.
  intros Hi [data Hdata]. unfold Note.saveNote. rewrite Hi. simpl.
  case_bool_decide as Heq; [done|]. by rewrite Hdata.
Qed.

End note_more.

(** X13: a save that the database accepts is not repeated: saving the same
    text again right after it sends no update and changes neither the note
    record nor what counts as last saved. *)
Theorem saveNote_twice
    (db_update : jsstring → jsstring → option Note.SessionNote)
    (i text : jsstring) (st : Note.state) :
  is_Some (db_update i text) →
  let once := Note.saveNote db_update (Some i) text st in
  let twice := Note.saveNote db_update (Some i) text once in
  Note.db_updates twice = Note.db_updates once
  ∧ Note.note twice = Note.note once
  ∧ Note.lastSavedContent twice = Note.lastSavedContent once
  ∧ Note.content twice = Note.content st.
Proof.
  intros Hok. cbv zeta.
  destruct (truthy i) eqn:Hi.
  - pose proof (saveNote_saved db_update i text st Hi Hok) as Hsaved.
    set (once := Note.saveNote db_update (Some i) text st) in *.
    destruct (saveNote_frame db_update (Some i) text st) as (Hc & _).
    fold once in Hc.
    unfold Note.saveNote at 1 2 3 4. rewrite Hi, Hsaved. simpl.
    by rewrite bool_decide_eq_true_2.
  - unfold Note.saveNote. by rewrite Hi.
Qed.

Lemma saveNote_twice_witness :
  let db := λ i c, Some {| Note.id := i; Note.note_content := c |} in
  is_Some (db (str "n1") (str "x"))
  ∧ Note.db_updates
      (Note.saveNote db (Some (str "n1")) (str "x")
         (Note.saveNote db (Some (str "n1")) (str "x") (Note.mount 0)))
    = Note.db_updates
        (Note.saveNote db (Some (str "n1")) (str "x") (Note.mount 0)).
Proof.
  cbv zeta.
  assert (is_Some ((λ i c, Some {| Note.id := i; Note.note_content := c |})
                     (str "n1") (str "x"))) as H by (by eexists).
  split; [exact H|].
  exact (proj1 (saveNote_twice
                  (λ i c, Some {| Note.id := i; Note.note_content := c |})
                  (str "n1") (str "x") (Note.mount 0) H)).
Defined.

(** X14: [forceSave] after a burst of [updateContent] calls cancels the
    pending timer and calls [saveNote] at once with the last text, unless
    that text is what was last saved; however long one waits afterwards,
    the cancelled timer never runs. *)
Theorem forceSave_after_typing
    (db_update : jsstring → jsstring → option Note.SessionNote)
    (st : Note.state) (first : nat * jsstring)
    (rest : list (nat * jsstring)) (wait : nat) :
  Note.timers st = ∅ →
  Forall (λ c, c.1 < 800) rest →
  let text := (List.last rest first).2 in
  let typed := Note.typing db_update (first :: rest) st in
  let saved := Note.forceSave db_update typed in
  let final := Note.advance db_update wait saved in
  Note.timers saved = ∅
  ∧ Note.saveNote_calls saved
    = Note.saveNote_calls st
      ++ (if decide (text = Note.lastSavedContent st) then [] else [text])
  ∧ Note.saveNote_calls final = Note.saveNote_calls saved
  ∧ Note.db_updates final = Note.db_updates saved
  ∧ Note.content final = text.
Proof.
  intros Hempty Hgaps. cbv zeta.
  pose proof (updateContent_first db_update st (first.1) (first.2) Hempty)
    as Hfirst.
  pose proof (typing_pending db_update _ _ first rest Hfirst Hgaps) as Htyped.
  change (Note.typing db_update rest
            (Note.updateContent first.2 (Note.advance db_update first.1 st)))
    with (Note.typing db_update (first :: rest) st) in Htyped.
  set (typed := Note.typing db_update (first :: rest) st) in *.
  set (text := (List.last rest first).2) in *.
  destruct Htyped as ((i & Htimers & _ & Href) & Hc & Hn & Hl & Hd & Hs).
  assert (Note.timers (Note.clear_pending typed) = ∅) as Hcleared.
  { unfold Note.clear_pending. rewrite Href. simpl.
    by rewrite Htimers, delete_singleton_eq. }
  assert (Note.timers (Note.forceSave db_update typed) = ∅
          ∧ Note.content (Note.forceSave db_update typed) = text
          ∧ Note.saveNote_calls (Note.forceSave db_update typed)
            = Note.saveNote_calls st
              ++ (if decide (text = Note.lastSavedContent st)
                  then [] else [text])) as (Ht & Hct & Hcalls).
  { unfold Note.forceSave. rewrite Hc, Hl.
    destruct (clear_pending_frame typed) as (_ & Hc' & _).
    case_bool_decide as Hne.
    - destruct (saveNote_frame db_update (Note.note_id typed) text
                  (Note.clear_pending typed)) as (-> & _ & _ & -> & _ & ->).
      rewrite decide_False by done.
      unfold Note.clear_pending. rewrite Href. simpl.
      by rewrite Hs, Htimers, delete_singleton_eq.
    - rewrite decide_True by (by destruct (decide (text = Note.lastSavedContent st))).
      rewrite app_nil_r. unfold Note.clear_pending. rewrite Href. simpl.
      by rewrite Htimers, delete_singleton_eq. }
  rewrite (advance_no_timers db_update wait _ Ht). simpl.
  by rewrite Hct.
Qed.

Lemma forceSave_after_typing_witness :
  let db := λ i c, Some {| Note.id := i; Note.note_content := c |} in
  Note.timers (Note.mount 0) = ∅
  ∧ Forall (λ c : nat * jsstring, c.1 < 800) [(100, str "ab")]
  ∧ Note.timers
      (Note.forceSave db
         (Note.typing db [(0, str "a"); (100, str "ab")] (Note.mount 0)))
    = ∅.
Proof.
  cbv zeta.
  assert (Forall (λ c : nat * jsstring, c.1 < 800) [(100, str "ab")]) as Hg.
  { repeat constructor; cbn [fst]; lia. }
  split; [reflexivity|]. split; [exact Hg|].
  exact (proj1 (forceSave_after_typing
                  (λ i c, Some {| Note.id := i; Note.note_content := c |})
                  (Note.mount 0) (0, str "a") [(100, str "ab")] 5 eq_refl Hg)).
Defined.



(** ** More on the chat *)

(** [st'] has the history of [st] with at most [k] turns after it. *)
Definition extends_by (k : nat) (st st' : Chat.state) : Prop :=
  ∃ added, Chat.messages st' = Chat.messages st ++ added ∧ length added ≤ k.

Section chat_more.
Import Chat.
Context (insert_message : nat → jsstring → role → jsstring
                          → option ChatMessage)
        (post_chat : nat → jsstring → jsstring → jsstring → chat_fetch)
        (post_summarize : nat → option jsstring → list summarize_entity
                          → option SummarizeResult)
        (toLowerCase : jsstring → jsstring)
        (toISOString : nat → jsstring)
        (p : props).
Implicit Types (st : state) (m : ChatMessage) (prev : list ChatMessage).

#[local] Abbreviation addAssistantMessage' :=
  (Chat.addAssistantMessage insert_message toISOString p).
#[local] Abbreviation handleSummarizeCommand' :=
  (Chat.handleSummarizeCommand insert_message post_summarize toISOString p).
#[local] Abbreviation sendMessage' :=
  (Chat.sendMessage insert_message post_chat post_summarize toLowerCase
     toISOString p).

Lemma extends_by_refl k st : extends_by k st st.
Proof. exists []. split; [by rewrite app_nil_r|simpl; lia]. Qed.

Lemma extends_by_trans a b st1 st2 st3 :
  extends_by a st1 st2 → extends_by b st2 st3 → extends_by (a + b) st1 st3.
Proof.
  intros (l1 & H1 & ?) (l2 & H2 & ?). exists (l1 ++ l2).
  rewrite H2, H1, <- app_assoc, length_app. split; [done|lia].
Qed.

Lemma extends_by_same k st st' :
  messages st' = messages st → extends_by k st st'.
Proof. intros H. exists []. rewrite H, app_nil_r. split; [done|simpl; lia]. Qed.

Lemma add_unless_present_extends m st :
  extends_by 1 st (setMessages (add_unless_present m) st).
Proof.
  unfold extends_by, add_unless_present. simpl.
  destruct (existsb _ _).
  - exists []. split; [by rewrite app_nil_r|simpl; lia].
  - by exists [m].
Qed.

Lemma addAssistantMessage_extends text st :
  extends_by 1 st (addAssistantMessage' text st).
Proof.
  unfold Chat.addAssistantMessage.
  pose proof (saveMessage_messages insert_message p assistant text st) as Hm.
  destruct (Chat.saveMessage insert_message p assistant text st)
    as [st1 [m|]]; simpl in Hm.
  - destruct (add_unless_present_extends m st1) as (added & Ha & Hlen).
    exists added. simpl in *. by rewrite <- Hm.
  - exists [temp_message toISOString p text st1]. simpl. by rewrite Hm.
Qed.

Lemma extends_by_le a b st st' :
  a ≤ b → extends_by a st st' → extends_by b st st'.
Proof. intros Hle (added & Ha & Hlen). exists added. split; [done|lia]. Qed.

Lemma perform_extends k e st st' :
  extends_by k st st' → extends_by k st (perform e st').
Proof. intros (added & Ha & Hlen). by exists added. Qed.

Lemma addAssistantMessage_after k text st st' :
  extends_by k st st' →
  extends_by (k + 1) st (addAssistantMessage' text st').
Proof.
  intros H. eapply extends_by_trans; [exact H|].
  apply addAssistantMessage_extends.
Qed.

(** The summarize flow adds one assistant turn, and a second one when
    [onEntitiesUpdate] throws: the reply is shown before the callback is
    called, and the [catch] then adds the turn that says that the summary
    could not be made. *)
Lemma handleSummarizeCommand_extends userQuery st :
  extends_by 2 st (handleSummarizeCommand' userQuery st).
Proof.
  unfold Chat.handleSummarizeCommand.
  case_bool_decide;
    [apply (extends_by_le 1); [lia|apply addAssistantMessage_extends]|].
  assert (∀ e, extends_by 0 st (perform e st)) as Hone
    by (intros e; apply perform_extends, extends_by_refl).
  destruct (post_summarize _ _ _) as [result|].
  - set (st2 := perform _ (perform _ st)).
    assert (extends_by 0 st st2) as H2
      by (apply perform_extends, perform_extends, extends_by_refl).
    pose proof (addAssistantMessage_after 0 (responseText result) st st2 H2)
      as H3.
    destruct (onEntitiesUpdate p _).
    + apply (extends_by_le 1); [lia|]. by apply perform_extends.
    + apply (addAssistantMessage_after 1). by apply perform_extends.
  - apply (extends_by_le 1); [lia|].
    apply (addAssistantMessage_after 0), Hone.
Qed.

Lemma handleSummarizeCommand_extends_returns userQuery st :
  (∀ n, onEntitiesUpdate p n = Returns) →
  extends_by 1 st (handleSummarizeCommand' userQuery st).
Proof.
  intros Hreturns. unfold Chat.handleSummarizeCommand.
  case_bool_decide; [apply addAssistantMessage_extends|].
  destruct (post_summarize _ _ _) as [result|].
  - rewrite Hreturns. apply perform_extends.
    apply (addAssistantMessage_after 0).
    apply perform_extends, perform_extends, extends_by_refl.
  - apply (addAssistantMessage_after 0), perform_extends, extends_by_refl.
Qed.

(** A call of [sendMessage] adds the user turn and then what the summarize
    flow or the chat request adds. *)
Lemma sendMessage_extends_with k userMessage st :
  1 ≤ k →
  (isSummarizeCommand toLowerCase userMessage = true →
   ∀ st2, extends_by k st2 (handleSummarizeCommand' userMessage st2)) →
  extends_by (S k) st (sendMessage' userMessage st).
Proof.
  intros Hk Hsum. unfold Chat.sendMessage.
  destruct (sessionId p) as [sid|] eqn:Hsid; [|apply extends_by_refl].
  destruct (negb (truthy sid) || negb (truthy (trim userMessage)));
    [apply extends_by_refl|].
  pose proof (saveMessage_messages insert_message p user userMessage
                (setIsLoading true st)) as Hm.
  destruct (Chat.saveMessage insert_message p user userMessage
              (setIsLoading true st)) as [st1 saved].
  simpl in Hm.
  set (st2 := match saved with
              | Some m => setMessages (add_unless_present m) st1
              | None => st1
              end).
  assert (extends_by 1 st st2) as H12.
  { subst st2. destruct saved as [m|].
    - destruct (add_unless_present_extends m st1) as (added & Ha & Hlen).
      exists added. by rewrite <- Hm.
    - by apply extends_by_same. }
  assert (∀ st3, extends_by k st2 st3 →
            extends_by (S k) st (setIsLoading false st3)) as Hend.
  { intros st3 H23.
    destruct (extends_by_trans _ _ _ _ _ H12 H23) as (added & Ha & Hlen).
    by exists added. }
  assert (∀ text e, extends_by k st2
                      (addAssistantMessage' text (perform e st2))) as Hadd.
  { intros text e. apply (extends_by_le 1); [done|].
    apply (addAssistantMessage_after 0), perform_extends, extends_by_refl. }
  apply Hend.
  destruct (isSummarizeCommand toLowerCase userMessage);
    [by apply Hsum|].
  destruct (post_chat _ _ _ _) as [| | | | |result]; try apply Hadd.
  destruct (noteWasModified result && some_truthy (updatedNote result));
    [apply perform_extends, Hadd|].
  destruct (negb (noteWasModified result));
    [apply perform_extends, Hadd|apply Hadd].
Qed.

Lemma sendMessage_extends userMessage st :
  extends_by 3 st (sendMessage' userMessage st).
Proof.
  apply sendMessage_extends_with; [lia|].
  intros _ st2. apply handleSummarizeCommand_extends.
Qed.

Lemma sendMessage_extends_returns userMessage st :
  (∀ n, onEntitiesUpdate p n = Returns)
  ∨ isSummarizeCommand toLowerCase userMessage = false →
  extends_by 2 st (sendMessage' userMessage st).
Proof.
  intros Hcase. apply sendMessage_extends_with; [lia|].
  intros Hsum st2. destruct Hcase as [Hreturns|Hnot]; [|congruence].
  by apply handleSummarizeCommand_extends_returns.
Qed.

(** *** The entities sent to the summarize endpoint *)

Lemma contextEntities_elem e :
  e ∈ contextEntities p →
  e ∈ entities p ∧ entity_type e ≠ Some ai_summary
  ∧ (0 < size (selectedEntityIds p) → entity_id e ∈ selectedEntityIds p).
Proof.
  unfold contextEntities. case_bool_decide as Hsel.
  - intros [[? ?] ?]%list_elem_of_filter. done.
  - intros [? ?]%list_elem_of_filter. split; [done|]. split; [done|lia].
Qed.

Lemma summarize_payload_types :
  Forall (λ e, se_type e ≠ ai_summary) (summarize_payload p).
Proof.
  unfold summarize_payload. apply Forall_fmap, Forall_forall.
  intros e (_ & Hty & _)%contextEntities_elem. simpl.
  destruct (entity_type e) as [t|]; simpl.
  - destruct (truthy t); [congruence|discriminate].
  - discriminate.
Qed.

Lemma addAssistantMessage_log text st e :
  e ∈ log (addAssistantMessage' text st) →
  e ∈ log st ∨ ∃ sid, e = InsertMessage sid assistant text.
Proof.
  unfold Chat.addAssistantMessage, Chat.saveMessage.
  destruct (sessionId p) as [sid|]; [|by left].
  destruct (truthy sid); [|by left].
  destruct (insert_message _ _ _ _); simpl;
    (intros [?|Heq%list_elem_of_singleton]%elem_of_app;
     [by left|right; subst e; eauto]).
Qed.

(** *** [includes] *)

Lemma includes_spec kw s :
  includes kw s = true ↔ ∃ a b, s = a ++ kw ++ b.
Proof.
  induction s as [|c s IH].
  - simpl. rewrite orb_false_r, startsWith_true. split.
    + intros [r ->]. by exists [], r.
    + intros (a & b & H). symmetry in H.
      apply app_eq_nil in H as [-> H]. eauto.
  - rewrite includes_cons, orb_true_iff, IH, startsWith_true. split.
    + intros [[r ->]|(a & b & ->)]; [by exists [], r|by exists (c :: a), b].
    + intros ([|c' a] & b & H).
      * left. by exists b.
      * injection H as -> ->. right. by exists a, b.
Qed.

End chat_more.

(** X16: the visible history only grows, at its end: no turn is dropped,
    changed or moved.  A realtime insert adds at most one turn after the
    turns already shown.  A call of [sendMessage] adds at most three: the
    user turn, one assistant turn, and in the summarize flow a second
    assistant turn when [onEntitiesUpdate] throws after the summary was
    shown.  When the message is no summarize command, or the callback
    returns, it adds at most two. *)
Theorem history_grows
    (insert_message : nat → jsstring → Chat.role → jsstring
                      → option Chat.ChatMessage)
    (post_chat : nat → jsstring → jsstring → jsstring → Chat.chat_fetch)
    (post_summarize : nat → option jsstring → list Chat.summarize_entity
                      → option Chat.SummarizeResult)
    (toLowerCase : jsstring → jsstring) (toISOString : nat → jsstring)
    (p : Chat.props) (st : Chat.state) :
  (∀ m, extends_by 1 st (Chat.realtime_insert m st))
  ∧ (∀ userMessage,
       extends_by 3 st
         (Chat.sendMessage insert_message post_chat post_summarize
            toLowerCase toISOString p userMessage st))
  ∧ (∀ userMessage,
       (∀ n, Chat.onEntitiesUpdate p n = Chat.Returns)
       ∨ Chat.isSummarizeCommand toLowerCase userMessage = false →
       extends_by 2 st
         (Chat.sendMessage insert_message post_chat post_summarize
            toLowerCase toISOString p userMessage st)).
Proof.
  split; [|split].
  - intros m. apply add_unless_present_extends.
  - intros userMessage. apply sendMessage_extends.
  - intros userMessage. apply sendMessage_extends_returns.
Qed.

(** The bound of three turns is met: a summarize command in a session
    with one entity, answered by the endpoint, with a callback
    [onEntitiesUpdate] that throws. *)
Definition throwing_session : Chat.props :=
  {| Chat.sessionId := Some (str "s");
     Chat.entities :=
       [{| Chat.entity_id := str "e1"; Chat.entity_type := None;
           Chat.data := ∅ |}];
     Chat.selectedEntityIds := ∅; Chat.currentNote := [];
     Chat.onEntitiesUpdate := λ _, Chat.Throws |}.

Definition some_summary : Chat.SummarizeResult :=
  {| Chat.condensedSummary := str "c"; Chat.suggestedTitle := str "t";
     Chat.keyHighlights := None; Chat.recommendations := None |}.

Example three_turns :
  Chat.content
  <$> Chat.messages
        (Chat.sendMessage echo_insert (λ _ _ _ _, Chat.Aborted)
           (λ _ _ _, Some some_summary) (λ s, s) (λ _, []) throwing_session
           (str "summary") empty_chat)
  = [str "summary"; str "**t**" ++ [nl; nl] ++ str "c";
     str "Sorry, I couldn't create a summary. Please try again."].
Proof. by vm_compute. Qed.

(** What may be asked of the summarize endpoint: a list of entities that is
    not empty and holds no entity of type ['ai-summary']. *)
Definition sound_effect (e : Chat.effect) : Prop :=
  match e with
  | Chat.PostSummarize _ ents =>
      ents ≠ [] ∧ Forall (λ x, Chat.se_type x ≠ Chat.ai_summary) ents
  | _ => True
  end.

(** X17: the summarize flow never posts an empty list of entities, nor an
    entity that is itself a summary, to the summarize endpoint; this holds
    for every effect that [handleSummarizeCommand] adds. *)
Theorem summarize_posts_entities
    (insert_message : nat → jsstring → Chat.role → jsstring
                      → option Chat.ChatMessage)
    (post_summarize : nat → option jsstring → list Chat.summarize_entity
                      → option Chat.SummarizeResult)
    (toISOString : nat → jsstring)
    (p : Chat.props) (userQuery : jsstring) (st : Chat.state) :
  ∃ new,
    Chat.log (Chat.handleSummarizeCommand insert_message post_summarize
                toISOString p userQuery st)
    = Chat.log st ++ new
    ∧ Forall sound_effect new.
Proof.
  assert (∀ text st0, ∃ new,
            Chat.log (Chat.addAssistantMessage insert_message toISOString p
                        text st0) = Chat.log st0 ++ new
            ∧ Forall sound_effect new) as Hadd.
  { intros text st0. unfold Chat.addAssistantMessage, Chat.saveMessage.
    destruct (Chat.sessionId p) as [sid|];
      [|exists []; split; [by rewrite app_nil_r|constructor]].
    destruct (truthy sid);
      [|exists []; split; [by rewrite app_nil_r|constructor]].
    exists [Chat.InsertMessage sid Chat.assistant text].
    split; [by destruct (insert_message _ _ _ _)|by repeat constructor]. }
  unfold Chat.handleSummarizeCommand.
  case_bool_decide as Hempty; [apply Hadd|].
  assert (sound_effect (Chat.PostSummarize (Chat.sessionId p)
                          (Chat.summarize_payload p))) as Hpost.
  { split; [|apply summarize_payload_types].
    unfold Chat.summarize_payload. intros Heq%fmap_nil_inv.
    by rewrite Heq in Hempty. }
  destruct (post_summarize _ _ _) as [result|].
  - destruct (Hadd (Chat.responseText result)
                (Chat.perform
                   (Chat.InsertSummary (Chat.sessionId p)
                      (Chat.summaryData p userQuery result))
                   (Chat.perform
                      (Chat.PostSummarize (Chat.sessionId p)
                         (Chat.summarize_payload p)) st)))
      as (new & Hnew & Hsound).
    set (st3 := Chat.addAssistantMessage insert_message toISOString p
                  (Chat.responseText result) _) in *.
    simpl in Hnew. rewrite <- !app_assoc in Hnew.
    assert (Forall sound_effect
              ([Chat.PostSummarize (Chat.sessionId p)
                  (Chat.summarize_payload p)]
               ++ [Chat.InsertSummary (Chat.sessionId p)
                     (Chat.summaryData p userQuery result)]
               ++ new ++ [Chat.EntitiesUpdate])) as Hreply.
    { apply Forall_cons. split; [done|]. apply Forall_cons. split; [done|].
      apply Forall_app. split; [done|by repeat constructor]. }
    destruct (Chat.onEntitiesUpdate p _).
    + eexists. split; [|exact Hreply].
      simpl. rewrite Hnew. by rewrite <- !app_assoc.
    + destruct (Hadd (str "Sorry, I couldn't create a summary. Please try again.")
                  (Chat.perform Chat.EntitiesUpdate st3))
        as (new' & Hnew' & Hsound').
      eexists. split; [|exact (proj2 (Forall_app _ _ _) (conj Hreply Hsound'))].
      rewrite Hnew'. simpl. rewrite Hnew. by rewrite <- !app_assoc.
  - destruct (Hadd (str "Sorry, I couldn't create a summary. Please try again.")
                (Chat.perform
                   (Chat.PostSummarize (Chat.sessionId p)
                      (Chat.summarize_payload p)) st))
      as (new & Hnew & Hsound).
    eexists. rewrite Hnew. simpl. rewrite <- !app_assoc.
    split; [reflexivity|]. apply Forall_cons. by split.
Qed.

(** X18: a message is taken for a summarize command exactly when its lower
    case form holds one of the five keywords somewhere. *)
Theorem isSummarizeCommand_spec (toLowerCase : jsstring → jsstring)
    (message : jsstring) :
  Chat.isSummarizeCommand toLowerCase message = true
  ↔ ∃ kw a b, kw ∈ Chat.keywords ∧ toLowerCase message = a ++ kw ++ b.
Proof.
  unfold Chat.isSummarizeCommand. rewrite existsb_exists. split.
  - intros (kw & Hin%list_elem_of_In & (a & b & H)%includes_spec).
    by exists kw, a, b.
  - intros (kw & a & b & Hin & H). exists kw.
    split; [by apply list_elem_of_In|]. apply includes_spec. by exists a, b.
Qed.

(** ** The record of a summary *)

Section summary_data.
Import Chat.
Implicit Types (m : gmap jsstring jsstring) (vs : list jsstring).

Lemma str_inj (s1 s2 : string) : str s1 = str s2 → s1 = s2.
Proof.
  unfold str. intros H.
  assert (Inj (=) (=) N_of_ascii) as Hinj.
  { intros a b Hab. apply (f_equal ascii_of_N) in Hab.
    by rewrite !ascii_N_embedding in Hab. }
  apply (inj (fmap N_of_ascii)) in H.
  apply (f_equal string_of_list_ascii) in H.
  by rewrite !string_of_list_ascii_of_string in H.
Qed.

(** The key of the [i]-th value of a numbered family of fields. *)
Definition field_key (name : string) (i : nat) : jsstring :=
  str name ++ str (pretty (S i)).

Lemma field_key_inj name i j : field_key name i = field_key name j → i = j.
Proof.
  unfold field_key. intros H%app_inv_head%str_inj.
  apply (inj pretty) in H. lia.
Qed.

Definition put_field (name : string) m (iv : nat * jsstring) :=
  <[field_key name iv.1 := iv.2]> m.

Lemma put_fields_lookup name off vs m j :
  foldl (put_field name) m (imap (λ i v, (off + i, v)) vs) !! field_key name j
  = if decide (off ≤ j < off + length vs) then vs !! (j - off)
    else m !! field_key name j.
Proof.
  revert off m. induction vs as [|v vs IH]; intros off m.
  { simpl. case_decide; [lia|done]. }
  cbn [imap foldl].
  rewrite (imap_ext _ (λ i v, (S off + i, v)))
    by (intros; simpl; f_equal; lia).
  rewrite IH. unfold put_field at 1. cbn [fst snd length].
  destruct (decide (j = off)) as [->|Hne].
  - rewrite decide_False by lia. rewrite decide_True by lia.
    rewrite Nat.add_0_r, lookup_insert_eq, Nat.sub_diag. done.
  - case_decide.
    + rewrite decide_True by lia.
      replace (j - off) with (S (j - S off)) by lia. done.
    + rewrite decide_False by lia.
      rewrite lookup_insert_ne; [done|].
      intros Heq%field_key_inj. lia.
Qed.

Lemma put_fields_other name vs m k l :
  (∀ i, k ≠ field_key name i) →
  foldl (put_field name) m l !! k = m !! k.
Proof.
  intros Hk. revert m. induction l as [|iv l IH]; intros m; [done|].
  simpl. rewrite IH. unfold put_field. by rewrite lookup_insert_ne.
Qed.

Lemma numbered_fields_eq name values m :
  numbered_fields name values m
  = foldl (put_field name) m (imap (λ i v, (0 + i, v)) (default [] values)).
Proof. reflexivity. Qed.

Lemma numbered_fields_lookup name values m i v :
  default [] values !! i = Some v →
  numbered_fields name values m !! field_key name i = Some v.
Proof.
  intros Hi. rewrite numbered_fields_eq, put_fields_lookup.
  rewrite decide_True by (apply lookup_lt_Some in Hi; lia).
  by rewrite Nat.sub_0_r.
Qed.

Lemma numbered_fields_other name values m k :
  (∀ i, k ≠ field_key name i) →
  numbered_fields name values m !! k = m !! k.
Proof.
  intros Hk. rewrite numbered_fields_eq.
  by apply (put_fields_other name (default [] values)).
Qed.

End summary_data.

(** X19: the record of a new summary holds the [i]-th highlight under the
    key [highlight_<i+1>] and the [i]-th recommendation under
    [recommendation_<i+1>], next to the summary, the suggested title, the
    number of entities summarized and the query of the user; no field
    overwrites another. *)
Theorem summaryData_fields (p : Chat.props) (userQuery : jsstring)
    (result : Chat.SummarizeResult) :
  let d := Chat.summaryData p userQuery result in
  (∀ i h, default [] (Chat.keyHighlights result) !! i = Some h →
     d !! (str "highlight_" ++ str (pretty (S i))) = Some h)
  ∧ (∀ i r, default [] (Chat.recommendations result) !! i = Some r →
       d !! (str "recommendation_" ++ str (pretty (S i))) = Some r)
  ∧ d !! str "summary" = Some (Chat.condensedSummary result)
  ∧ d !! str "suggested_title" = Some (Chat.suggestedTitle result)
  ∧ d !! str "item_count"
    = Some (str (pretty (length (Chat.contextEntities p))))
  ∧ d !! str "user_query" = Some userQuery.
Proof.
  cbv zeta. unfold Chat.summaryData.
  assert (∀ name i k, head k ≠ head (str name) → name ≠ ""%string
                      → k ≠ field_key name i) as Hother.
  { intros name i k Hhead Hname ->. apply Hhead.
    destruct name as [|c name]; [done|]. reflexivity. }
  split; [|split; [|repeat split]].
  - intros i h Hi.
    rewrite numbered_fields_other.
    2:{ intros j. apply not_eq_sym.
        change (str "highlight_" ++ str (pretty (S i)))
          with (field_key "highlight_" i).
        apply Hother; [by vm_compute|done]. }
    by apply (numbered_fields_lookup "highlight_").
  - intros i r Hi. by apply (numbered_fields_lookup "recommendation_").
  - rewrite !numbered_fields_other
      by (intros; apply Hother; [by vm_compute|done]).
    by vm_compute.
  - rewrite !numbered_fields_other
      by (intros; apply Hother; [by vm_compute|done]).
    rewrite !lookup_insert_ne by (by vm_compute).
    by rewrite lookup_insert_eq.
  - rewrite !numbered_fields_other
      by (intros; apply Hother; [by vm_compute|done]).
    rewrite !lookup_insert_ne by (by vm_compute).
    by rewrite lookup_insert_eq.
  - rewrite !numbered_fields_other
      by (intros; apply Hother; [by vm_compute|done]).
    by rewrite lookup_insert_eq.
Qed.

(** ** The effects of a chat turn *)

Section chat_turn.
Import Chat.
Context (insert_message : nat → jsstring → role → jsstring
                          → option ChatMessage)
        (post_chat : nat → jsstring → jsstring → jsstring → chat_fetch)
        (post_summarize : nat → option jsstring → list summarize_entity
                          → option SummarizeResult)
        (toLowerCase : jsstring → jsstring)
        (toISOString : nat → jsstring)
        (p : props).
Implicit Types (st : state).

Lemma saveMessage_log r text st sid :
  sessionId p = Some sid → truthy sid = true →
  log (Chat.saveMessage insert_message p r text st).1
  = log st ++ [InsertMessage sid r text].
Proof. intros Hsid Ht. unfold Chat.saveMessage. by rewrite Hsid, Ht. Qed.

Lemma addAssistantMessage_log_eq text st sid :
  sessionId p = Some sid → truthy sid = true →
  log (Chat.addAssistantMessage insert_message toISOString p text st)
  = log st ++ [InsertMessage sid assistant text].
Proof.
  intros Hsid Ht. unfold Chat.addAssistantMessage, Chat.saveMessage.
  rewrite Hsid, Ht. by destruct (insert_message _ _ _ _).
Qed.

(** The effects of a message that is sent to the chat endpoint, up to the
    reply: the user turn is saved, then the request is posted. *)
Lemma sendMessage_chat userMessage st sid :
  sessionId p = Some sid → truthy sid = true →
  truthy (trim userMessage) = true →
  isSummarizeCommand toLowerCase userMessage = false →
  ∃ st2,
    log st2 = log st ++ [InsertMessage sid user userMessage;
                         PostChat sid userMessage (currentNote p)]
    ∧ Chat.sendMessage insert_message post_chat post_summarize toLowerCase
        toISOString p userMessage st
      = setIsLoading false
          (match post_chat (S (length (log st))) sid userMessage
                   (currentNote p) with
           | HttpOk result =>
               let aiResponse :=
                 if truthy (reply result) then reply result
                 else str "I processed your request." in
               let st3 := Chat.addAssistantMessage insert_message toISOString p
                            aiResponse st2 in
               if noteWasModified result && some_truthy (updatedNote result)
               then perform
                      (NoteUpdate
                         (Diff.markAiAdditions (currentNote p)
                            (default [] (updatedNote result)))) st3
               else if negb (noteWasModified result)
               then perform (NoteAppend (chatLog userMessage aiResponse)) st3
               else st3
           | HttpError status =>
               Chat.addAssistantMessage insert_message toISOString p
                 (error_turn (str "API request failed: "
                                ++ str (pretty status))) st2
           | Aborted =>
               Chat.addAssistantMessage insert_message toISOString p
                 (error_turn (str "Request timed out. Please try again."))
                 st2
           | FailedToFetch =>
               Chat.addAssistantMessage insert_message toISOString p
                 (error_turn
                    (str "Network error. Please check your connection and try again."))
                 st2
           | Threw message =>
               Chat.addAssistantMessage insert_message toISOString p
                 (error_turn message) st2
           | ThrewOther =>
               Chat.addAssistantMessage insert_message toISOString p
                 (error_turn (str "Unknown error")) st2
           end).
Proof.
  intros Hsid Ht Hmsg Hcmd. unfold Chat.sendMessage.
  rewrite Hsid, Ht, Hmsg, Hcmd. simpl negb. cbv iota. simpl orb. cbv iota.
  pose proof (saveMessage_log user userMessage (setIsLoading true st) sid
                Hsid Ht) as Hlog.
  destruct (Chat.saveMessage insert_message p user userMessage
              (setIsLoading true st)) as [st1 saved].
  simpl in Hlog.
  set (st1' := match saved with
               | Some m => setMessages (add_unless_present m) st1
               | None => st1
               end).
  assert (log st1' = log st ++ [InsertMessage sid user userMessage]) as Hlog'.
  { subst st1'. by destruct saved. }
  exists (perform (PostChat sid userMessage (currentNote p)) st1').
  split.
  { simpl. by rewrite Hlog', <- app_assoc. }
  rewrite Hlog', length_app. simpl length.
  replace (length (log st) + 1) with (S (length (log st))) by lia.
  reflexivity.
Qed.

End chat_turn.

(** X20: when the request to the chat endpoint is aborted by the 60 s
    timer, the turn ends with exactly three effects: the user turn is
    saved, the request is posted, and an assistant turn is saved whose text
    says that the request timed out; no note callback is called. *)
Theorem chat_timeout
    (insert_message : nat → jsstring → Chat.role → jsstring
                      → option Chat.ChatMessage)
    (post_chat : nat → jsstring → jsstring → jsstring → Chat.chat_fetch)
    (post_summarize : nat → option jsstring → list Chat.summarize_entity
                      → option Chat.SummarizeResult)
    (toLowerCase : jsstring → jsstring) (toISOString : nat → jsstring)
    (p : Chat.props) (userMessage sid : jsstring) (st : Chat.state) :
  Chat.sessionId p = Some sid → truthy sid = true →
  truthy (trim userMessage) = true →
  Chat.isSummarizeCommand toLowerCase userMessage = false →
  post_chat (S (length (Chat.log st))) sid userMessage (Chat.currentNote p)
  = Chat.Aborted →
  let st' := Chat.sendMessage insert_message post_chat post_summarize
               toLowerCase toISOString p userMessage st in
  let text := str "Sorry, I encountered an error: Request timed out. Please try again." in
  Chat.log st'
  = Chat.log st ++ [Chat.InsertMessage sid Chat.user userMessage;
                    Chat.PostChat sid userMessage (Chat.currentNote p);
                    Chat.InsertMessage sid Chat.assistant text]
  ∧ Chat.includes (str "timed out") text = true
  ∧ Chat.isLoading st' = false.
Proof.
  intros Hsid Ht Hmsg Hcmd Hout. cbv zeta.
  destruct (sendMessage_chat insert_message post_chat post_summarize
              toLowerCase toISOString p userMessage st sid Hsid Ht Hmsg Hcmd)
    as (st2 & Hlog & ->).
  rewrite Hout. split; [|split; [by vm_compute|done]].
  simpl. rewrite (addAssistantMessage_log_eq _ _ _ _ _ sid Hsid Ht), Hlog.
  by rewrite <- app_assoc.
Qed.

Definition abort_chat : nat → jsstring → jsstring → jsstring
                        → Chat.chat_fetch := λ _ _ _ _, Chat.Aborted.

Lemma chat_timeout_witness :
  Chat.sessionId some_session = Some (str "s")
  ∧ truthy (trim (str "hi")) = true
  ∧ Chat.isLoading
      (Chat.sendMessage no_insert abort_chat (λ _ _ _, None) (λ s, s)
         (λ _, []) some_session (str "hi") empty_chat)
    = false.
Proof.
  split; [reflexivity|]. split; [reflexivity|].
  exact (proj2 (proj2
    (chat_timeout no_insert abort_chat (λ _ _ _, None) (λ s, s) (λ _, [])
       some_session (str "hi") (str "s") empty_chat
       eq_refl eq_refl eq_refl eq_refl eq_refl))).
Defined.

(** X21: after a reply of the chat endpoint, the turn has saved the user
    turn, posted the request and saved the reply (or a stock sentence when
    the reply is empty), and then calls at most one note callback:
    [onNoteUpdate] with the updated note run through the diff annotator
    against the current note, when the reply says the note was modified and
    carries a note; [onNoteAppend] with the transcript of the turn, when the
    reply says the note was not modified; and none, when the reply says the
    note was modified but carries no note. *)
Theorem chat_reply_effects
    (insert_message : nat → jsstring → Chat.role → jsstring
                      → option Chat.ChatMessage)
    (post_chat : nat → jsstring → jsstring → jsstring → Chat.chat_fetch)
    (post_summarize : nat → option jsstring → list Chat.summarize_entity
                      → option Chat.SummarizeResult)
    (toLowerCase : jsstring → jsstring) (toISOString : nat → jsstring)
    (p : Chat.props) (userMessage sid : jsstring) (st : Chat.state)
    (result : Chat.ChatResponse) :
  Chat.sessionId p = Some sid → truthy sid = true →
  truthy (trim userMessage) = true →
  Chat.isSummarizeCommand toLowerCase userMessage = false →
  post_chat (S (length (Chat.log st))) sid userMessage (Chat.currentNote p)
  = Chat.HttpOk result →
  let st' := Chat.sendMessage insert_message post_chat post_summarize
               toLowerCase toISOString p userMessage st in
  let aiResponse :=
    if truthy (Chat.reply result) then Chat.reply result
    else str "I processed your request." in
  let note_effect :=
    if Chat.noteWasModified result then
      match Chat.updatedNote result with
      | Some (c :: u) =>
          [Chat.NoteUpdate (markAiAdditions (Chat.currentNote p) (c :: u))]
      | _ => []
      end
    else [Chat.NoteAppend (Chat.chatLog userMessage aiResponse)] in
  Chat.log st'
  = Chat.log st ++ [Chat.InsertMessage sid Chat.user userMessage;
                    Chat.PostChat sid userMessage (Chat.currentNote p);
                    Chat.InsertMessage sid Chat.assistant aiResponse]
      ++ note_effect.
Proof.
  intros Hsid Ht Hmsg Hcmd Hout. cbv zeta.
  destruct (sendMessage_chat insert_message post_chat post_summarize
              toLowerCase toISOString p userMessage st sid Hsid Ht Hmsg Hcmd)
    as (st2 & Hlog & ->).
  rewrite Hout. cbv zeta.
  set (aiResponse := if truthy (Chat.reply result) then Chat.reply result
                     else str "I processed your request.").
  pose proof (addAssistantMessage_log_eq insert_message toISOString p
                aiResponse st2 sid Hsid Ht) as Hadd.
  rewrite Hlog, <- app_assoc in Hadd. simpl in Hadd.
  destruct (Chat.noteWasModified result); simpl.
  - destruct (Chat.updatedNote result) as [[|c u]|]; simpl;
      rewrite Hadd, <- ?app_assoc; simpl; by rewrite ?app_nil_r.
  - by rewrite Hadd, <- app_assoc.
Qed.

Definition reply_chat (r : Chat.ChatResponse)
    : nat → jsstring → jsstring → jsstring → Chat.chat_fetch :=
  λ _ _ _ _, Chat.HttpOk r.

Lemma chat_reply_effects_witness :
  let r := {| Chat.reply := str "ok"; Chat.updatedNote := None;
              Chat.noteWasModified := true |} in
  Chat.sessionId some_session = Some (str "s")
  ∧ truthy (trim (str "hi")) = true
  ∧ Chat.log
      (Chat.sendMessage no_insert (reply_chat r) (λ _ _ _, None) (λ s, s)
         (λ _, []) some_session (str "hi") empty_chat)
    = [Chat.InsertMessage (str "s") Chat.user (str "hi");
       Chat.PostChat (str "s") (str "hi") [];
       Chat.InsertMessage (str "s") Chat.assistant (str "ok")].
Proof.
  cbv zeta. split; [reflexivity|]. split; [reflexivity|].
  exact (chat_reply_effects no_insert
           (reply_chat {| Chat.reply := str "ok"; Chat.updatedNote := None;
                          Chat.noteWasModified := true |})
           (λ _ _ _, None) (λ s, s) (λ _, [])
           some_session (str "hi") (str "s") empty_chat
           {| Chat.reply := str "ok"; Chat.updatedNote := None;
              Chat.noteWasModified := true |}
           eq_refl eq_refl eq_refl eq_refl eq_refl).
Defined.
